(** * Process execution and lifecycle supervisor of repo-runner-agent

    A shallow embedding of [src/process/manager.ts] (with the constants and
    the [ProcessInfo] / [ToolResult] types of [config.ts]) and the properties
    of it that the specification states; then, in the same way, of its
    callers: [utils/fsUtils.ts], [utils/pathUtils.ts], [llm/executor.ts],
    [llm/openaiClient.ts], [git/client.ts] and [core/orchestrator.ts]
    (modules [FsUtils], [PathUtils], [Executor], [OpenAIClient], [GitClient]
    and [Orchestrator]), with further properties of the code.

    Conventions of the embedding.
    - A JavaScript string is the list of its UTF-16 code units ([jsstring]).
    - The module-level [Map] [runningProcesses] is an insertion-ordered
      association list ([jsmap]); the closure variables of one detached
      invocation are the record [detached].
    - [process.kill] and [execa] belong to the environment: what they return
      or throw is an input of the model ([kill_oracle], [spawn_outcome],
      [execa_outcome]), what the program asks of them is written to the
      [trace] of the [world].
    - [logger.*] calls only print; they are left out, except the final
      report of [cleanupAllTrackedProcesses].
    - Template-literal [notes] are kept as the constructor of [note] that
      names the template, together with the interpolated values.
    - The program runs on one thread: a listener, a timeout callback and a
      call that awaits nothing pending each run to their end before the
      next event is taken, so each is one step of the model.
    - The file system, git and the language model belong to the environment
      as well: their answers are inputs, the requests are logged in order.
    - An 'error' event that no listener takes is thrown as an uncaught
      exception and ends the process. One invocation writes it to the trace
      ([EUncaught]); the system of invocations stops there; and a run of
      [cloneAndRun] that hands control to the event loop while such an event
      waits does not return. *)

From Stdlib Require Import String Ascii.
From Stdlib Require Import List NArith ZArith Bool Lia Arith.
Import ListNotations.
Open Scope string_scope.
Open Scope list_scope.

Set Implicit Arguments.

(** ** JavaScript strings *)

Module JsString.

Definition jsstring := list N.

(** A literal of the source, written as a Rocq string of ASCII characters. *)
Definition str (s : string) : jsstring :=
  map N_of_ascii (list_ascii_of_string s).

Fixpoint eqb (a b : jsstring) : bool :=
  match a, b with
  | [], [] => true
  | x :: a', y :: b' => N.eqb x y && eqb a' b'
  | _, _ => false
  end.

(** [s.slice(start)] for an integral [start]: a negative [start] counts from
    the end, and both ends are clamped to the string. *)
Definition slice_from (start : Z) (s : jsstring) : jsstring :=
  let len := Z.of_nat (length s) in
  let from := if (start <? 0)%Z then Z.max (len + start) 0 else Z.min start len in
  skipn (Z.to_nat from) s.

(** [s.slice(x)] for the number [num / den]: the argument is first truncated
    towards zero (ToIntegerOrInfinity); [-0] counts as [0]. *)
Definition slice_from_quot (num den : Z) (s : jsstring) : jsstring :=
  slice_from (Z.quot num den) s.

(** [parts.join(sep)] *)
Fixpoint join (sep : jsstring) (parts : list jsstring) : jsstring :=
  match parts with
  | [] => []
  | [p] => p
  | p :: rest => p ++ sep ++ join sep rest
  end.

End JsString.
Import JsString.

(** ** The regular expressions of the startup check *)

Module Regex.

(** The fragment of the regular-expression syntax that the two patterns of
    [executeCommand] use. A non-capturing group [(?:r)] is [r] itself. *)
Inductive regex : Type :=
| Lit (s : jsstring)                          (* a run of literal characters *)
| ClassRep (cls : N -> bool) (lo hi : nat)    (* [c{lo,hi}], greedy *)
| Seq (r1 r2 : regex)
| Alt (r1 r2 : regex)
| Group (i : nat) (r : regex).                (* capturing group number [i] *)

Definition is_digit (c : N) : bool := (48 <=? c)%N && (c <=? 57)%N.

(** Canonicalize of the [i] flag without the [u] flag. Exact on the ASCII
    range. Above it ECMAScript maps a unit to its upper case unless that is
    an ASCII unit, so no unit above 127 ever equals a canonicalized ASCII
    unit; the patterns here are ASCII, and the identity above 127 gives the
    same comparisons. *)
Definition canonicalize (c : N) : N :=
  if (97 <=? c)%N && (c <=? 122)%N then (c - 32)%N else c.

Definition char_eq_ci (p c : N) : bool :=
  N.eqb (canonicalize p) (canonicalize c).

Definition captures := list (nat * jsstring).

Fixpoint capture (i : nat) (caps : captures) : option jsstring :=
  match caps with
  | [] => None
  | (j, s) :: rest => if Nat.eqb i j then Some s else capture i rest
  end.

Definition cont := jsstring -> captures -> option (jsstring * captures).

Fixpoint match_lit (p : jsstring) (k : cont) (s : jsstring) (caps : captures)
  : option (jsstring * captures) :=
  match p with
  | [] => k s caps
  | pc :: p' =>
      match s with
      | c :: s' => if char_eq_ci pc c then match_lit p' k s' caps else None
      | [] => None
      end
  end.

Fixpoint rep_exact (cls : N -> bool) (n : nat) (k : cont) (s : jsstring)
  (caps : captures) : option (jsstring * captures) :=
  match n with
  | O => k s caps
  | S n' =>
      match s with
      | c :: s' => if cls c then rep_exact cls n' k s' caps else None
      | [] => None
      end
  end.

(** Greedy: one more character is tried first, and given up only when the
    rest of the pattern fails after it. *)
Fixpoint rep_upto (cls : N -> bool) (n : nat) (k : cont) (s : jsstring)
  (caps : captures) : option (jsstring * captures) :=
  match n with
  | O => k s caps
  | S n' =>
      match s with
      | c :: s' =>
          if cls c then
            match rep_upto cls n' k s' caps with
            | Some r => Some r
            | None => k s caps
            end
          else k s caps
      | [] => k s caps
      end
  end.

(** Backtracking matcher in continuation-passing style: [m r k s caps] matches
    [r] at the head of [s] and hands what is left of [s] to [k]. *)
Fixpoint m (r : regex) (k : cont) (s : jsstring) (caps : captures)
  : option (jsstring * captures) :=
  match r with
  | Lit p => match_lit p k s caps
  | ClassRep cls lo hi => rep_exact cls lo (rep_upto cls (hi - lo) k) s caps
  | Seq r1 r2 => m r1 (m r2 k) s caps
  | Alt r1 r2 =>
      match m r1 k s caps with
      | Some res => Some res
      | None => m r2 k s caps
      end
  | Group i r1 =>
      m r1 (fun rest caps' =>
              k rest ((i, firstn (length s - length rest) s) :: caps')) s caps
  end.

(** The match array of [exec]: element 0 and the captures. *)
Record match_result : Type := {
  index : nat;
  matched : jsstring;
  groups : captures
}.

Definition match_here (r : regex) (s : jsstring) : option (jsstring * captures) :=
  m r (fun rest caps => Some (rest, caps)) s [].

(** [exec] of a regular expression without the [g] and [y] flags: the match
    at the leftmost start index that has one. *)
Fixpoint exec_from (r : regex) (i : nat) (s : jsstring) : option match_result :=
  match match_here r s with
  | Some (rest, caps) =>
      Some {| index := i;
              matched := firstn (length s - length rest) s;
              groups := caps |}
  | None =>
      match s with
      | [] => None
      | _ :: s' => exec_from r (S i) s'
      end
  end.

(** [s.match(r)] for a non-global [r]. *)
Definition js_match (s : jsstring) (r : regex) : option match_result :=
  exec_from r 0 s.

(** [/(?:localhost|127\.0\.0\.1|0\.0\.0\.0):(\d{4,5})|on port (\d{4,5})/i] *)
Definition portRegex : regex :=
  Alt (Seq (Alt (Lit (str "localhost"))
                (Alt (Lit (str "127.0.0.1")) (Lit (str "0.0.0.0"))))
           (Seq (Lit (str ":")) (Group 1 (ClassRep is_digit 4 5))))
      (Seq (Lit (str "on port ")) (Group 2 (ClassRep is_digit 4 5))).

(** [/compiled successfully|ready on|listening on|server started|development server is running at|started successfully/i] *)
Definition successRegex : regex :=
  Alt (Lit (str "compiled successfully"))
 (Alt (Lit (str "ready on"))
 (Alt (Lit (str "listening on"))
 (Alt (Lit (str "server started"))
 (Alt (Lit (str "development server is running at"))
      (Lit (str "started successfully")))))).

(** [a || b] on values that are a string or [undefined]: the empty string
    is falsy. *)
Definition or_else (a b : option jsstring) : option jsstring :=
  match a with
  | Some (_ :: _) => a
  | _ => b
  end.

Definition truthy (a : option jsstring) : bool :=
  match a with
  | Some (_ :: _) => true
  | _ => false
  end.

End Regex.
Import Regex.

(** ** [Map<string, V>] *)

Module JsMap.
Section WithValue.

Variable V : Type.

(** The entries in insertion order. A [Map] never holds a key twice
    ([wf]); every operation below keeps it so. *)
Definition jsmap := list (jsstring * V).

Definition keys (mp : jsmap) : list jsstring := map fst mp.

Definition wf (mp : jsmap) : Prop := NoDup (keys mp).

Fixpoint get (k : jsstring) (mp : jsmap) : option V :=
  match mp with
  | [] => None
  | (k', v) :: rest => if JsString.eqb k k' then Some v else get k rest
  end.

Definition has (k : jsstring) (mp : jsmap) : bool :=
  match get k mp with
  | Some _ => true
  | None => false
  end.

(** [set] on a key that is present replaces the value where the entry
    stands, on a new key it appends the entry. *)
Fixpoint set (k : jsstring) (v : V) (mp : jsmap) : jsmap :=
  match mp with
  | [] => [(k, v)]
  | (k', v') :: rest =>
      if JsString.eqb k k' then (k', v) :: rest else (k', v') :: set k v rest
  end.

Fixpoint delete (k : jsstring) (mp : jsmap) : jsmap :=
  match mp with
  | [] => []
  | (k', v') :: rest =>
      if JsString.eqb k k' then delete k rest else (k', v') :: delete k rest
  end.

Definition size (mp : jsmap) : nat := length mp.

(** Number of entries stored under [k]. *)
Fixpoint count (k : jsstring) (mp : jsmap) : nat :=
  match mp with
  | [] => 0
  | (k', _) :: rest => (if JsString.eqb k k' then 1 else 0) + count k rest
  end.

End WithValue.
End JsMap.

(** ** Types of [config.ts] *)

Definition DEFAULT_COMMAND_TIMEOUT : Z := 120000.
Definition SERVER_START_TIMEOUT : Z := 30000.
Definition MAX_TOOL_RESULT_LENGTH : Z := 4000.

Module ProcessInfo.
Record t : Type := { pid : N; command : jsstring }.
End ProcessInfo.

(** The [notes] of a result: which template of the source, and the values
    it interpolates. *)
Inductive note : Type :=
| NoteNone
| NotePrematureExit (code : option Z) (signal : option jsstring)
| NoteRunError (message : jsstring)
| NoteStarted (pid : N) (found : option jsstring) (port : option jsstring)
| NoteUnrecognized (pid : N)
| NoteCompleted
| NoteTimedOut (timeout : Z)
| NoteFailed (exitCode : option Z)
| NoteExecutionFailed (message : jsstring).

Module ToolResult.
(** The fields of [ToolResult] that [executeCommand] fills. [None] is a
    field that is absent, [undefined] or [null]. *)
Record t : Type := {
  success : bool;
  stdout : option jsstring;
  stderr : option jsstring;
  exitCode : option Z;
  timedOut : option bool;
  signal : option jsstring;
  pid : option N;
  isRunningDetached : option bool;
  detectedPort : option jsstring;
  notes : option note;
  error : option jsstring
}.
End ToolResult.

(** ** The environment *)

(** An error object as the program inspects it. *)
Record js_error : Type := { code : option jsstring; message : jsstring }.

(** What the program asks of the operating system, oldest first, and the
    uncaught exception that ends it. *)
Inductive effect : Type :=
| EKill (pid : N) (sig : jsstring) (thrown : option js_error)
| EExeca (file : jsstring) (args : list jsstring) (cwd : jsstring)
         (detached : bool)
| EReportRemaining (remaining : nat)   (* "Failed to terminate all ..." *)
| EReportAllTerminated                (* "All tracked processes terminated" *)
| EUncaught (e : js_error).           (* an 'error' event that no listener takes *)

Record world : Type := {
  runningProcesses : JsMap.jsmap ProcessInfo.t;
  trace : list effect
}.

(** [process.kill(pid, sig)] either delivers the signal or throws; which,
    the operating system decides, here from the time (the number of earlier
    requests) and the process id. *)
Definition kill_oracle := nat -> N -> option js_error.

(** A completed statement or call: normally, or by a thrown error. *)
Inductive completion (A : Type) : Type :=
| Normal (a : A)
| Throw (e : js_error).
Arguments Normal {A} a.
Arguments Throw {A} e.

Definition M (A : Type) : Type := world -> completion A * world.

Definition ret {A} (a : A) : M A := fun w => (Normal a, w).

Definition bind {A B} (c : M A) (k : A -> M B) : M B :=
  fun w =>
    match c w with
    | (Normal a, w') => k a w'
    | (Throw e, w') => (Throw e, w')
    end.

Notation "x <- c ;; k" := (bind c (fun x => k))
  (at level 61, c at next level, right associativity).
Notation "c ;;; k" := (bind c (fun _ => k))
  (at level 61, right associativity).

(** [try { body } catch (e) { handler } finally { fin }] *)
Definition try_catch_finally {A} (body : M A) (handler : js_error -> M A)
  (fin : M unit) : M A :=
  fun w =>
    let '(c, w1) :=
      match body w with
      | (Normal a, w') => (Normal a, w')
      | (Throw e, w') => handler e w'
      end in
    match fin w1 with
    | (Normal _, w2) => (c, w2)
    | (Throw e, w2) => (Throw e, w2)
    end.

Definition with_registry (f : JsMap.jsmap ProcessInfo.t -> JsMap.jsmap ProcessInfo.t)
  (w : world) : world :=
  {| runningProcesses := f (runningProcesses w); trace := trace w |}.

Definition emit (e : effect) (w : world) : world :=
  {| runningProcesses := runningProcesses w; trace := trace w ++ [e] |}.

Definition registry_has (k : jsstring) : M bool :=
  fun w => (Normal (JsMap.has k (runningProcesses w)), w).

Definition registry_get (k : jsstring) : M (option ProcessInfo.t) :=
  fun w => (Normal (JsMap.get k (runningProcesses w)), w).

Definition registry_delete (k : jsstring) : M unit :=
  fun w => (Normal tt, with_registry (JsMap.delete k) w).

Definition SIGTERM : jsstring := str "SIGTERM".
Definition ESRCH : jsstring := str "ESRCH".

Definition process_kill (os : kill_oracle) (pid : N) (sig : jsstring) : M unit :=
  fun w =>
    let thrown := os (length (trace w)) pid in
    (match thrown with
     | None => Normal tt
     | Some e => Throw e
     end, emit (EKill pid sig thrown) w).

(** [killError.code === 'ESRCH'] *)
Definition is_ESRCH (e : js_error) : bool :=
  match code e with
  | Some c => JsString.eqb c ESRCH
  | None => false
  end.

(** ** [terminateTrackedProcess]

    Every caller passes the module's [runningProcesses] as [processMap], so
    the function works on the registry of the [world]. *)
Definition terminateTrackedProcess (os : kill_oracle) (repoPath : jsstring)
  : M unit :=
  present <- registry_has repoPath ;;
  if present then
    entry <- registry_get repoPath ;;
    match entry with
    | Some processInfo =>
        try_catch_finally
          (process_kill os (ProcessInfo.pid processInfo) SIGTERM)
          (fun killError =>
             if is_ESRCH killError
             then ret tt      (* logged: not found, likely already stopped *)
             else ret tt)     (* logged as an error *)
          (registry_delete repoPath)
    | None => ret tt
    end
  else
    ret tt.

(** ** [cleanupAllTrackedProcesses] *)

(** [Promise.allSettled] over the calls made by [map]: each call runs to its
    end when it is made, and a rejection would be absorbed. *)
Fixpoint terminate_each (os : kill_oracle) (ks : list jsstring) (w : world)
  : world :=
  match ks with
  | [] => w
  | k :: rest => terminate_each os rest (snd (terminateTrackedProcess os k w))
  end.

Definition cleanupAllTrackedProcesses (os : kill_oracle) : M unit :=
  fun w =>
    let ks := JsMap.keys (runningProcesses w) in
    let w1 := terminate_each os ks w in
    if (0 <? JsMap.size (runningProcesses w1))%nat
    then (Normal tt, emit (EReportRemaining (JsMap.size (runningProcesses w1))) w1)
    else (Normal tt, emit EReportAllTerminated w1).

(** ** [executeCommand], normal (non-detached) branch *)

(** The object that the awaited [execa] call returns ([reject: false]). *)
Module ExecaResult.
Record t : Type := {
  exitCode : option Z;
  timedOut : option bool;
  signal : option jsstring;
  stdout : jsstring;
  stderr : jsstring
}.
End ExecaResult.

Inductive execa_outcome : Type :=
| ExecaReturns (result : ExecaResult.t)
| ExecaThrows (message : jsstring) (stdout stderr : option jsstring).

(** The reported tail: [s.slice(-MAX_TOOL_RESULT_LENGTH / 2)]. *)
Definition tail_half (s : jsstring) : jsstring :=
  slice_from_quot (- MAX_TOOL_RESULT_LENGTH) 2 s.

(** [timeoutOverride || DEFAULT_COMMAND_TIMEOUT] *)
Definition effective_timeout (timeoutOverride : option Z) : Z :=
  match timeoutOverride with
  | Some t => if (t =? 0)%Z then DEFAULT_COMMAND_TIMEOUT else t
  | None => DEFAULT_COMMAND_TIMEOUT
  end.

(** [x || ''] *)
Definition or_empty (x : option jsstring) : jsstring :=
  match x with
  | Some s => s
  | None => []
  end.

(** [b ?? false] *)
Definition or_false (b : option bool) : bool :=
  match b with
  | Some v => v
  | None => false
  end.

Definition executeCommand_normal (repoPath command : jsstring)
  (args : list jsstring) (timeoutOverride : option Z) (answer : execa_outcome)
  : M ToolResult.t :=
  fun w =>
    let timeout := effective_timeout timeoutOverride in
    let w1 := emit (EExeca command args repoPath false) w in
    match answer with
    | ExecaReturns result =>
        let truncatedStdout := tail_half (ExecaResult.stdout result) in
        let truncatedStderr := tail_half (ExecaResult.stderr result) in
        let success0 :=
          match ExecaResult.exitCode result with
          | Some c => (c =? 0)%Z
          | None => false
          end && negb (or_false (ExecaResult.timedOut result)) in
        let '(success, notes) :=
          if success0 then (success0, NoteCompleted)
          else if or_false (ExecaResult.timedOut result)
               then (false, NoteTimedOut timeout)
               else (success0, NoteFailed (ExecaResult.exitCode result)) in
        (Normal
           {| ToolResult.success := success;
              ToolResult.stdout := Some truncatedStdout;
              ToolResult.stderr := Some truncatedStderr;
              ToolResult.exitCode := ExecaResult.exitCode result;
              ToolResult.timedOut := Some (or_false (ExecaResult.timedOut result));
              ToolResult.signal := ExecaResult.signal result;
              ToolResult.pid := None;
              ToolResult.isRunningDetached := Some false;
              ToolResult.detectedPort := None;
              ToolResult.notes := Some notes;
              ToolResult.error := None |}, w1)
    | ExecaThrows msg out err =>
        (Normal
           {| ToolResult.success := false;
              ToolResult.stdout := Some (or_empty out);
              ToolResult.stderr := Some (or_empty err);
              ToolResult.exitCode := None;
              ToolResult.timedOut := None;
              ToolResult.signal := None;
              ToolResult.pid := None;
              ToolResult.isRunningDetached := Some false;
              ToolResult.detectedPort := None;
              ToolResult.notes := Some (NoteExecutionFailed msg);
              ToolResult.error := Some (str "Command execution failed: " ++ msg) |},
         w1)
    end.

(** ** [executeCommand], detached (long-running) branch *)

Module Detached.

(** The variable [timer] and the timeout it names. *)
Inductive timer_state : Type :=
| TimerNull
| TimerArmed (ms : Z)
| TimerCleared
| TimerFired.

(** The variables that the callbacks of one invocation close over, and the
    state of what the invocation registered with the event loop:
    [repoPath] and [commandStr] are the captured parameter and constant,
    [childProcess] tells that the variable is not [null], [listening] that
    the 'data', 'exit' and 'error' listeners are attached, and [resolved]
    lists the arguments of the calls of [resolve], oldest first. In
    [exitCode] and [pid], [None] is [null] and [undefined]. *)
Record t : Type := {
  repoPath : jsstring;
  commandStr : jsstring;
  stdoutData : jsstring;
  stderrData : jsstring;
  processExited : bool;
  exitCode : option Z;
  pid : option N;
  notes : note;
  detectedPort : option jsstring;
  timer : timer_state;
  resultSent : bool;
  childProcess : bool;
  listening : bool;
  resolved : list ToolResult.t
}.

Definition set_stdoutData (v : jsstring) (d : t) : t :=
  {| repoPath := repoPath d;
     commandStr := commandStr d;
     stdoutData := v;
     stderrData := stderrData d;
     processExited := processExited d;
     exitCode := exitCode d;
     pid := pid d;
     notes := notes d;
     detectedPort := detectedPort d;
     timer := timer d;
     resultSent := resultSent d;
     childProcess := childProcess d;
     listening := listening d;
     resolved := resolved d |}.

Definition set_stderrData (v : jsstring) (d : t) : t :=
  {| repoPath := repoPath d;
     commandStr := commandStr d;
     stdoutData := stdoutData d;
     stderrData := v;
     processExited := processExited d;
     exitCode := exitCode d;
     pid := pid d;
     notes := notes d;
     detectedPort := detectedPort d;
     timer := timer d;
     resultSent := resultSent d;
     childProcess := childProcess d;
     listening := listening d;
     resolved := resolved d |}.

Definition set_processExited (v : bool) (d : t) : t :=
  {| repoPath := repoPath d;
     commandStr := commandStr d;
     stdoutData := stdoutData d;
     stderrData := stderrData d;
     processExited := v;
     exitCode := exitCode d;
     pid := pid d;
     notes := notes d;
     detectedPort := detectedPort d;
     timer := timer d;
     resultSent := resultSent d;
     childProcess := childProcess d;
     listening := listening d;
     resolved := resolved d |}.

Definition set_exitCode (v : option Z) (d : t) : t :=
  {| repoPath := repoPath d;
     commandStr := commandStr d;
     stdoutData := stdoutData d;
     stderrData := stderrData d;
     processExited := processExited d;
     exitCode := v;
     pid := pid d;
     notes := notes d;
     detectedPort := detectedPort d;
     timer := timer d;
     resultSent := resultSent d;
     childProcess := childProcess d;
     listening := listening d;
     resolved := resolved d |}.

Definition set_pid (v : option N) (d : t) : t :=
  {| repoPath := repoPath d;
     commandStr := commandStr d;
     stdoutData := stdoutData d;
     stderrData := stderrData d;
     processExited := processExited d;
     exitCode := exitCode d;
     pid := v;
     notes := notes d;
     detectedPort := detectedPort d;
     timer := timer d;
     resultSent := resultSent d;
     childProcess := childProcess d;
     listening := listening d;
     resolved := resolved d |}.

Definition set_notes (v : note) (d : t) : t :=
  {| repoPath := repoPath d;
     commandStr := commandStr d;
     stdoutData := stdoutData d;
     stderrData := stderrData d;
     processExited := processExited d;
     exitCode := exitCode d;
     pid := pid d;
     notes := v;
     detectedPort := detectedPort d;
     timer := timer d;
     resultSent := resultSent d;
     childProcess := childProcess d;
     listening := listening d;
     resolved := resolved d |}.

Definition set_detectedPort (v : option jsstring) (d : t) : t :=
  {| repoPath := repoPath d;
     commandStr := commandStr d;
     stdoutData := stdoutData d;
     stderrData := stderrData d;
     processExited := processExited d;
     exitCode := exitCode d;
     pid := pid d;
     notes := notes d;
     detectedPort := v;
     timer := timer d;
     resultSent := resultSent d;
     childProcess := childProcess d;
     listening := listening d;
     resolved := resolved d |}.

Definition set_timer (v : timer_state) (d : t) : t :=
  {| repoPath := repoPath d;
     commandStr := commandStr d;
     stdoutData := stdoutData d;
     stderrData := stderrData d;
     processExited := processExited d;
     exitCode := exitCode d;
     pid := pid d;
     notes := notes d;
     detectedPort := detectedPort d;
     timer := v;
     resultSent := resultSent d;
     childProcess := childProcess d;
     listening := listening d;
     resolved := resolved d |}.

Definition set_resultSent (v : bool) (d : t) : t :=
  {| repoPath := repoPath d;
     commandStr := commandStr d;
     stdoutData := stdoutData d;
     stderrData := stderrData d;
     processExited := processExited d;
     exitCode := exitCode d;
     pid := pid d;
     notes := notes d;
     detectedPort := detectedPort d;
     timer := timer d;
     resultSent := v;
     childProcess := childProcess d;
     listening := listening d;
     resolved := resolved d |}.

Definition set_childProcess (v : bool) (d : t) : t :=
  {| repoPath := repoPath d;
     commandStr := commandStr d;
     stdoutData := stdoutData d;
     stderrData := stderrData d;
     processExited := processExited d;
     exitCode := exitCode d;
     pid := pid d;
     notes := notes d;
     detectedPort := detectedPort d;
     timer := timer d;
     resultSent := resultSent d;
     childProcess := v;
     listening := listening d;
     resolved := resolved d |}.

Definition set_listening (v : bool) (d : t) : t :=
  {| repoPath := repoPath d;
     commandStr := commandStr d;
     stdoutData := stdoutData d;
     stderrData := stderrData d;
     processExited := processExited d;
     exitCode := exitCode d;
     pid := pid d;
     notes := notes d;
     detectedPort := detectedPort d;
     timer := timer d;
     resultSent := resultSent d;
     childProcess := childProcess d;
     listening := v;
     resolved := resolved d |}.

Definition set_resolved (v : list ToolResult.t) (d : t) : t :=
  {| repoPath := repoPath d;
     commandStr := commandStr d;
     stdoutData := stdoutData d;
     stderrData := stderrData d;
     processExited := processExited d;
     exitCode := exitCode d;
     pid := pid d;
     notes := notes d;
     detectedPort := detectedPort d;
     timer := timer d;
     resultSent := resultSent d;
     childProcess := childProcess d;
     listening := listening d;
     resolved := v |}.


(** The events that the event loop can deliver to one invocation. *)
Inductive event : Type :=
| EvStdout (data : jsstring)
| EvStderr (data : jsstring)
| EvExit (code : option Z) (signal : option jsstring)
| EvError (err : js_error)
| EvTimer.

Definition resolve (r : ToolResult.t) (d : t) : t :=
  set_resolved (resolved d ++ [r]) d.

(** [if (timer) clearTimeout(timer)] *)
Definition clear_timer (d : t) : t :=
  match timer d with
  | TimerArmed _ => set_timer TimerCleared d
  | _ => d
  end.

Definition cleanupListeners (d : t) : t :=
  if childProcess d then set_listening false d else d.

(** [runningProcesses.has(repoPath) && runningProcesses.get(repoPath)?.pid === pid] *)
Definition tracks (k : jsstring) (p : N) (w : world) : bool :=
  JsMap.has k (runningProcesses w) &&
  match JsMap.get k (runningProcesses w) with
  | Some info => N.eqb (ProcessInfo.pid info) p
  | None => false
  end.

Definition untrack_if_same (k : jsstring) (p : N) (w : world) : world :=
  if tracks k p w then with_registry (JsMap.delete k) w else w.

Definition nl : jsstring := [10%N].

(** The listener of 'exit'. [p] is the value of [pid], known to be defined
    where the listener is created. *)
Definition on_exit (p : N) (code : option Z) (signal : option jsstring)
  (st : t * world) : t * world :=
  let '(d, w) := st in
  let d := set_processExited true d in
  let d := set_exitCode code d in
  let '(d, w) :=
    if negb (resultSent d) then
      let d := set_notes (NotePrematureExit code signal) d in
      let d := resolve
        {| ToolResult.success := false;
           ToolResult.pid := Some p;
           ToolResult.exitCode := exitCode d;
           ToolResult.stdout := Some (tail_half (stdoutData d));
           ToolResult.stderr := Some (tail_half (stderrData d));
           ToolResult.notes := Some (notes d);
           ToolResult.isRunningDetached := Some true;
           ToolResult.timedOut := None;
           ToolResult.signal := None;
           ToolResult.detectedPort := None;
           ToolResult.error := None |} d in
      let d := set_resultSent true d in
      let d := clear_timer d in
      (cleanupListeners d, w)
    else
      (d, untrack_if_same (repoPath d) p w) in
  (d, untrack_if_same (repoPath d) p w).

(** The listener of 'error'. *)
Definition on_error (p : N) (err : js_error) (st : t * world) : t * world :=
  let '(d, w) := st in
  let d :=
    if negb (resultSent d) then
      let d := set_processExited true d in
      let d := set_notes (NoteRunError (message err)) d in
      let d := resolve
        {| ToolResult.success := false;
           ToolResult.pid := Some p;
           ToolResult.error := Some (message err);
           ToolResult.stdout := Some (tail_half (stdoutData d));
           ToolResult.stderr := Some (tail_half (stderrData d));
           ToolResult.notes := Some (notes d);
           ToolResult.isRunningDetached := Some true;
           ToolResult.exitCode := None;
           ToolResult.timedOut := None;
           ToolResult.signal := None;
           ToolResult.detectedPort := None |} d in
      let d := set_resultSent true d in
      let d := clear_timer d in
      cleanupListeners d
    else d in
  (d, if negb (N.eqb p 0) then untrack_if_same (repoPath d) p w else w).

(** The listeners of 'data' on the two streams. *)
Definition on_stdout (data : jsstring) (d : t) : t :=
  set_stdoutData (stdoutData d ++ data) d.

Definition on_stderr (data : jsstring) (d : t) : t :=
  set_stderrData (stderrData d ++ data) d.

Definition combinedOutput (d : t) : jsstring :=
  str "stdout:" ++ nl ++ stdoutData d ++ nl ++ nl ++ str "stderr:" ++ nl
    ++ stderrData d.

(** [portMatch ? (portMatch[1] || portMatch[2]) : null] *)
Definition port_of (portMatch : option match_result) : option jsstring :=
  match portMatch with
  | Some pm => or_else (capture 1 (groups pm)) (capture 2 (groups pm))
  | None => None
  end.

Definition is_match (mr : option match_result) : bool :=
  match mr with
  | Some _ => true
  | None => false
  end.

(** The callback of the timeout. *)
Definition on_timer (p : N) (st : t * world) : t * world :=
  let '(d, w) := st in
  if processExited d || resultSent d then (d, w)
  else
    let portMatch := js_match (combinedOutput d) portRegex in
    let successMatch := js_match (combinedOutput d) successRegex in
    let d := set_detectedPort (port_of portMatch) d in
    let '(successDetected, d, w) :=
      if is_match successMatch || truthy (detectedPort d) then
        let d := set_notes
          (NoteStarted p (option_map matched successMatch)
             (if truthy (detectedPort d) then detectedPort d else None)) d in
        (true, d,
         with_registry
           (JsMap.set (repoPath d)
              {| ProcessInfo.pid := p; ProcessInfo.command := commandStr d |})
           w)
      else
        (false, set_notes (NoteUnrecognized p) d, w) in
    let d := resolve
      {| ToolResult.success := successDetected;
         ToolResult.pid := Some p;
         ToolResult.stdout := Some (tail_half (stdoutData d));
         ToolResult.stderr := Some (tail_half (stderrData d));
         ToolResult.notes := Some (notes d);
         ToolResult.detectedPort := detectedPort d;
         ToolResult.isRunningDetached := Some true;
         ToolResult.exitCode := None;
         ToolResult.timedOut := None;
         ToolResult.signal := None;
         ToolResult.error := None |} d in
    let d := set_resultSent true d in
    (cleanupListeners d, w).

(** One turn of the event loop for this invocation: a listener runs only
    while it is attached, the timeout only while it is pending.

    A child without pid is one that could not be spawned. The executor has
    thrown before it attached any listener, and the [cleanupListeners()] of
    its [catch] has removed the listeners that [execa] had put on the child,
    the one for 'error' among them. Node emits 'error' on such a child, and
    an 'error' event that no listener takes is thrown as an uncaught
    exception, which ends the process: [EUncaught]. *)
Definition deliver (ev : event) (st : t * world) : t * world :=
  let '(d, w) := st in
  match pid d with
  | None =>
      match ev with
      | EvError e => if childProcess d then (d, emit (EUncaught e) w) else st
      | _ => st
      end
  | Some p =>
      match ev with
      | EvStdout data => if listening d then (on_stdout data d, w) else st
      | EvStderr data => if listening d then (on_stderr data d, w) else st
      | EvExit c sg => if listening d then on_exit p c sg st else st
      | EvError e => if listening d then on_error p e st else st
      | EvTimer =>
          match timer d with
          | TimerArmed _ => on_timer p (set_timer TimerFired d, w)
          | _ => st
          end
      end
  end.

Definition run (evs : list event) (st : t * world) : t * world :=
  fold_left (fun st ev => deliver ev st) evs st.

(** The variables as the promise executor declares them. *)
Definition init (repoPath commandStr : jsstring) : t :=
  {| repoPath := repoPath;
     commandStr := commandStr;
     stdoutData := [];
     stderrData := [];
     processExited := false;
     exitCode := None;
     pid := None;
     notes := NoteNone;
     detectedPort := None;
     timer := TimerNull;
     resultSent := false;
     childProcess := false;
     listening := false;
     resolved := [] |}.

(** The [catch] of the promise executor. *)
Definition setup_failed (msg : jsstring) (d : t) : t :=
  let d := resolve
    {| ToolResult.success := false;
       ToolResult.error := Some (str "Failed to start detached process: " ++ msg);
       ToolResult.isRunningDetached := Some true;
       ToolResult.pid := None;
       ToolResult.stdout := None;
       ToolResult.stderr := None;
       ToolResult.notes := None;
       ToolResult.detectedPort := None;
       ToolResult.exitCode := None;
       ToolResult.timedOut := None;
       ToolResult.signal := None |} d in
  let d := set_resultSent true d in
  let d := clear_timer d in
  cleanupListeners d.

End Detached.

(** What the [execa] call of the detached branch does: it throws, or it
    returns a child-process object whose [pid] may be [undefined]. *)
Inductive spawn_outcome : Type :=
| SpawnThrows (e : js_error)
| SpawnReturns (pid : option N).

(** The promise executor: spawn, attach the listeners, arm the timeout. *)
Definition spawn_detached (repoPath command : jsstring) (args : list jsstring)
  (answer : spawn_outcome) : M Detached.t :=
  fun w =>
    let commandStr := command ++ str " " ++ join (str " ") args in
    let d := Detached.init repoPath commandStr in
    let w1 := emit (EExeca command args repoPath true) w in
    match answer with
    | SpawnThrows e => (Normal (Detached.setup_failed (message e) d), w1)
    | SpawnReturns None =>
        let d := Detached.set_childProcess true d in
        (Normal (Detached.setup_failed
                   (str "Failed to get PID for detached process.") d), w1)
    | SpawnReturns (Some p) =>
        let d := Detached.set_childProcess true d in
        let d := Detached.set_pid (Some p) d in
        let d := Detached.set_listening true d in
        let d := Detached.set_timer (Detached.TimerArmed SERVER_START_TIMEOUT) d in
        (Normal d, w1)
    end.

Definition executeCommand_detached (os : kill_oracle)
  (repoPath command : jsstring) (args : list jsstring) (answer : spawn_outcome)
  : M Detached.t :=
  terminateTrackedProcess os repoPath ;;;
  spawn_detached repoPath command args answer.

(** What [executeCommand] hands back: the result of the normal branch, or
    the pending promise of the detached branch with its closure. *)
Inductive invocation : Type :=
| Finished (r : ToolResult.t)
| Pending (d : Detached.t).

(** The answer of [execa], for the branch that is taken. *)
Record execa_answer : Type := {
  to_detached : spawn_outcome;
  to_normal : execa_outcome
}.

Definition executeCommand (os : kill_oracle) (repoPath command : jsstring)
  (args : list jsstring) (isLongRunning : bool) (timeoutOverride : option Z)
  (answer : execa_answer) : M invocation :=
  if isLongRunning then
    d <- executeCommand_detached os repoPath command args (to_detached answer) ;;
    ret (Pending d)
  else
    r <- executeCommand_normal repoPath command args timeoutOverride
           (to_normal answer) ;;
    ret (Finished r).

(** ** Several invocations over one registry *)

Module System.

Record t : Type := {
  the_world : world;
  children : list Detached.t      (* the detached invocations, oldest first *)
}.

Inductive action : Type :=
| ActStart (repoPath command : jsstring) (args : list jsstring)
           (answer : spawn_outcome)
| ActDeliver (i : nat) (ev : Detached.event)
| ActRun (repoPath command : jsstring) (args : list jsstring)
         (timeoutOverride : option Z) (answer : execa_outcome)
| ActTerminate (repoPath : jsstring)
| ActCleanupAll.

Fixpoint replace (i : nat) (d : Detached.t) (ds : list Detached.t)
  : list Detached.t :=
  match ds, i with
  | [], _ => []
  | _ :: rest, O => d :: rest
  | x :: rest, S i' => x :: replace i' d rest
  end.

(** Whether an uncaught exception has ended the process. *)
Definition is_uncaught (e : effect) : bool :=
  match e with
  | EUncaught _ => true
  | _ => false
  end.

Definition ended (w : world) : bool := existsb is_uncaught (trace w).

(** Nothing runs once the process has ended. *)
Definition step (os : kill_oracle) (s : t) (a : action) : t :=
  if ended (the_world s) then s else
  match a with
  | ActStart repoPath command args answer =>
      match executeCommand_detached os repoPath command args answer (the_world s) with
      | (Normal d, w) => {| the_world := w; children := children s ++ [d] |}
      | (Throw _, w) => {| the_world := w; children := children s |}
      end
  | ActDeliver i ev =>
      match nth_error (children s) i with
      | Some d =>
          let '(d', w) := Detached.deliver ev (d, the_world s) in
          {| the_world := w; children := replace i d' (children s) |}
      | None => s
      end
  | ActRun repoPath command args timeoutOverride answer =>
      {| the_world :=
           snd (executeCommand_normal repoPath command args timeoutOverride
                  answer (the_world s));
         children := children s |}
  | ActTerminate repoPath =>
      {| the_world := snd (terminateTrackedProcess os repoPath (the_world s));
         children := children s |}
  | ActCleanupAll =>
      {| the_world := snd (cleanupAllTrackedProcesses os (the_world s));
         children := children s |}
  end.

Definition run (os : kill_oracle) (acts : list action) (s : t) : t :=
  fold_left (step os) acts s.

Definition initial : t :=
  {| the_world := {| runningProcesses := []; trace := [] |}; children := [] |}.

Definition registry (s : t) : JsMap.jsmap ProcessInfo.t :=
  runningProcesses (the_world s).

End System.

(** ** [utils/fsUtils.ts]: [cleanupRepo] *)

Module FsUtils.

(** What [cleanupRepo] asks of the file system and of the clock, oldest
    first. *)
Inductive fs_effect : Type :=
| FsRm (path : jsstring) (thrown : option js_error)  (* [fs.rm(path, {recursive, force})] *)
| FsDelay (ms : Z).                                  (* the awaited [setTimeout] *)

Record state : Type := {
  procs : world;
  fs_log : list fs_effect
}.

(** [fs.rm] removes the directory or throws; which, the file system decides,
    here from the number of earlier requests and the path. *)
Definition rm_oracle := nat -> jsstring -> option js_error.

Definition maxAttempts : nat := 3.
Definition delay : Z := 1000.

(** The [while (attempts < maxAttempts)] loop, by the number [left] of
    attempts that remain ([maxAttempts - attempts]): it returns on the first
    [fs.rm] that does not throw, rethrows the error of the last attempt, and
    waits [delay] before each further attempt. *)
Fixpoint rm_loop (rm : rm_oracle) (repoPath : jsstring) (left : nat)
  (log : list fs_effect) : completion unit * list fs_effect :=
  match left with
  | O => (Normal tt, log)
  | S left' =>
      let thrown := rm (length log) repoPath in
      let log1 := log ++ [FsRm repoPath thrown] in
      match thrown with
      | None => (Normal tt, log1)
      | Some rmError =>
          match left' with
          | O => (Throw rmError, log1)
          | S _ => rm_loop rm repoPath left' (log1 ++ [FsDelay delay])
          end
      end
  end.

Definition cleanupRepo (os : kill_oracle) (rm : rm_oracle) (repoPath : jsstring)
  (st : state) : completion unit * state :=
  match repoPath with
  | [] => (Normal tt, st)                          (* [!repoPath] *)
  | _ :: _ =>
      match terminateTrackedProcess os repoPath (procs st) with
      | (Throw e, w) => (Throw e, {| procs := w; fs_log := fs_log st |})
      | (Normal _, w) =>
          let '(_, log) := rm_loop rm repoPath maxAttempts (fs_log st) in
          (* [catch (cleanupError)]: logged, not rethrown *)
          (Normal tt, {| procs := w; fs_log := log |})
      end
  end.

Definition is_rm (e : fs_effect) : bool :=
  match e with
  | FsRm _ _ => true
  | FsDelay _ => false
  end.

Definition rm_failed (e : fs_effect) : bool :=
  match e with
  | FsRm _ (Some _) => true
  | _ => false
  end.

(** *** [listDirectoryStructure] *)

Definition MAX_DIR_LISTING_DEPTH : nat := 3.
Definition MAX_DIR_ITEMS : nat := 100.

(** What the walk finds at a path: a dirent for which [isDirectory()] is
    false, a directory with the dirents that [fs.readdir] returns for it, in
    that order, or a directory for which [fs.readdir] throws. The name is
    [dirent.name]; for the path the walk starts from it is
    [path.basename(dirPath)]. *)
#[local] Unset Elimination Schemes.
Inductive node : Type :=
| File (name : jsstring)
| Dir (name : jsstring) (dirents : list node)
| Locked (name : jsstring).
#[local] Set Elimination Schemes.

Definition name_of (n : node) : jsstring :=
  match n with
  | File name | Dir name _ | Locked name => name
  end.

Definition isDirectory (n : node) : bool :=
  match n with
  | File _ => false
  | Dir _ _ | Locked _ => true
  end.

Definition ignored_names : list jsstring :=
  [str ".git"; str "node_modules"; str ".DS_Store"; str ".next"; str ".vercel"].

(** [ignored_names.includes(name)] *)
Definition ignored (name : jsstring) : bool :=
  existsb (JsString.eqb name) ignored_names.

(** [s.repeat(n)] *)
Fixpoint repeat_str (s : jsstring) (n : nat) : jsstring :=
  match n with
  | O => []
  | S n' => s ++ repeat_str s n'
  end.

Definition folder_icon : jsstring := [55357; 56513]%N.   (* U+1F4C1 *)
Definition page_icon : jsstring := [55357; 56516]%N.     (* U+1F4C4 *)
Definition warning_icon : jsstring := [9888; 65039]%N.   (* U+26A0 U+FE0F *)

Definition dir_line (depth : nat) (name : jsstring) : jsstring :=
  repeat_str (str "  ") depth ++ folder_icon ++ str " " ++ name ++ str "/".

Definition file_line (depth : nat) (name : jsstring) : jsstring :=
  repeat_str (str "  ") depth ++ page_icon ++ str " " ++ name.

Definition error_line (depth : nat) (name : jsstring) : jsstring :=
  repeat_str (str "  ") depth ++ warning_icon
    ++ str " Error reading directory: " ++ name.

(** The [for (const dirent of dirents)] loop. [recurse] is the recursive
    call on a subdirectory; the shared [itemCount] object is threaded
    through as a number. *)
Definition dirent_loop (recurse : node -> nat -> list jsstring * nat)
  (maxItems currentDepth : nat) : list node -> nat -> list jsstring * nat :=
  fix loop (dirents : list node) (itemCount : nat) {struct dirents} :=
    match dirents with
    | [] => ([], itemCount)
    | dirent :: rest =>
        if (maxItems <=? itemCount)%nat then ([], itemCount)        (* [break] *)
        else if ignored (name_of dirent) then loop rest itemCount   (* [continue] *)
        else if isDirectory dirent then
          let '(subStructure, itemCount1) := recurse dirent (S itemCount) in
          let '(more, itemCount2) := loop rest itemCount1 in
          (dir_line currentDepth (name_of dirent) :: subStructure ++ more,
           itemCount2)
        else
          let '(more, itemCount2) := loop rest (S itemCount) in
          (file_line currentDepth (name_of dirent) :: more, itemCount2)
    end.

(** The returned lines and the final value of [itemCount.count]. *)
Fixpoint listDirectoryStructure (maxDepth maxItems : nat) (dirPath : node)
  (currentDepth itemCount : nat) {struct dirPath} : list jsstring * nat :=
  if ((maxDepth <? currentDepth) || (maxItems <=? itemCount))%nat
  then ([], itemCount)
  else
    match dirPath with
    | Dir _ dirents =>
        dirent_loop
          (fun dirent count =>
             listDirectoryStructure maxDepth maxItems dirent (S currentDepth) count)
          maxItems currentDepth dirents itemCount
    | File name | Locked name =>
        (* [fs.readdir] throws: [catch (error)] *)
        ([error_line currentDepth name], itemCount)
    end.

End FsUtils.

(** ** [utils/pathUtils.ts]: [resolveSecurePath] *)

Module PathUtils.

(** [s.startsWith(p)], [s.includes(p)], [s.endsWith(p)], [s.split(sep)] *)
Fixpoint startsWith (s p : jsstring) {struct p} : bool :=
  match p, s with
  | [], _ => true
  | x :: p', y :: s' => N.eqb x y && startsWith s' p'
  | _ :: _, [] => false
  end.

Fixpoint includes (s p : jsstring) : bool :=
  startsWith s p ||
  match s with
  | [] => false
  | _ :: s' => includes s' p
  end.

Definition endsWith (s p : jsstring) : bool :=
  (length p <=? length s)%nat
  && JsString.eqb (skipn (length s - length p) s) p.

Fixpoint split (sep : N) (s : jsstring) : list jsstring :=
  match s with
  | [] => [[]]
  | c :: s' =>
      if N.eqb c sep then [] :: split sep s'
      else match split sep s' with
           | seg :: rest => (c :: seg) :: rest
           | [] => [[c]]
           end
  end.

Definition dotgit : jsstring := str ".git".

Definition error_of (msg : jsstring) : js_error :=
  {| code := None; message := msg |}.

Section WithPath.

(** The functions and the separator of Node's [path] module. *)
Variable normalize : jsstring -> jsstring.
Variable resolve : list jsstring -> jsstring.
Variable isAbsolute : jsstring -> bool.
Variable sep : N.

(** The condition of the [.git] check. [path.join('.git', path.sep)] is
    ".git" followed by the separator. *)
Definition touches_git (normalizedRelativePath : jsstring) : bool :=
  JsString.eqb normalizedRelativePath dotgit
  || startsWith normalizedRelativePath (dotgit ++ [sep])
  || includes normalizedRelativePath ([sep] ++ dotgit ++ [sep])
  || endsWith normalizedRelativePath ([sep] ++ dotgit).

Definition resolveSecurePath (repoPath relativePath : jsstring)
  : completion jsstring :=
  let normalizedRelativePath := normalize relativePath in
  if startsWith normalizedRelativePath (str "..")
     || isAbsolute normalizedRelativePath
  then Throw (error_of (str "Invalid path: " ++ relativePath
                          ++ str ". Must be relative within the repository."))
  else
    let absolutePath := resolve [repoPath; normalizedRelativePath] in
    if negb (startsWith absolutePath (resolve [repoPath] ++ [sep]))
       && negb (JsString.eqb absolutePath (resolve [repoPath]))
    then Throw (error_of (str "Path traversal detected: " ++ relativePath))
    else
      if touches_git normalizedRelativePath
      then Throw (error_of (str "Access to .git directory is forbidden: "
                              ++ relativePath))
      else Normal absolutePath.

End WithPath.
End PathUtils.

(** ** [llm/executor.ts]: [executeToolCall] *)

Module Executor.

Definition MAX_FILE_CONTENT_LENGTH : nat := 5000.

(** A JSON value, as far as a condition tells values apart: of a number
    only whether it is zero matters, and arrays and objects are all alike. *)
Inductive json : Type :=
| JNull
| JBool (b : bool)
| JNumber (nonzero : bool)
| JString (s : jsstring)
| JCompound.

(** The arguments of a tool call after [JSON.parse] gave an object, for
    arguments of the types that the tool schema declares: a field that is
    absent is [None]; [content] is [Some] exactly when
    [typeof args.content === 'string'], [args] exactly when
    [Array.isArray(args.args)]. [isLongRunning] is only ever used as a
    condition, which takes whatever JSON value the model sent. *)
Record tool_args : Type := {
  filePath : option jsstring;
  content : option jsstring;
  command : option jsstring;
  args : option (list jsstring);
  isLongRunning : option json;
  timeout : option Z;
  deploymentUrl : option jsstring;
  notes : option jsstring;
  reason : option jsstring
}.

(** What [JSON.parse] makes of the arguments: it throws, or gives [null],
    or gives an object. *)
Inductive parse_outcome : Type :=
| ParseThrows (message : jsstring)
| ParsedNull
| Parsed (a : tool_args).

(** The parameter [isLongRunning: boolean = false] as the conditions
    [if (isLongRunning)] read it: the default stands in for an absent
    argument only, and any other value counts by its truthiness. *)
Definition long_running (v : option json) : bool :=
  match v with
  | None => false
  | Some JNull => false
  | Some (JBool b) => b
  | Some (JNumber nonzero) => nonzero
  | Some (JString []) => false
  | Some (JString (_ :: _)) => true
  | Some JCompound => true
  end.

(** Node's [path] module, as [executeToolCall] and [resolveSecurePath] use
    it. *)
Record path_module : Type := {
  normalize : jsstring -> jsstring;
  resolve : list jsstring -> jsstring;
  isAbsolute : jsstring -> bool;
  sep : N;
  dirname : jsstring -> jsstring
}.

(** The requests to [fs.promises], oldest first, each with what it threw. *)
Inductive fs_request : Type :=
| FsReadFile (path : jsstring) (answer : completion jsstring)
| FsMkdir (path : jsstring) (thrown : option js_error)
| FsWriteFile (path data : jsstring) (thrown : option js_error).

(** What the file system answers, from the number of earlier requests. *)
Record fs_oracle : Type := {
  readFile : nat -> jsstring -> completion jsstring;
  mkdir : nat -> jsstring -> option js_error;
  writeFile : nat -> jsstring -> jsstring -> option js_error
}.

Record state : Type := {
  procs : world;
  fs_log : list fs_request
}.

Inductive outcome_status : Type := StatusSuccess | StatusFailure.

(** The [notes] of a final outcome: the text of [markUnrunnable], or the
    notes of [markRunning] with the pid it found tracked. *)
Inductive final_notes : Type :=
| NotesReason (reason : jsstring)
| NotesRunning (notes : jsstring) (tracked : option N).

Record FinalOutcome : Type := {
  status : outcome_status;
  url : option jsstring;
  outcome_notes : final_notes
}.

(** The result objects that [executeToolCall] builds itself. *)
Record reply : Type := {
  success : bool;
  error : option jsstring;
  file_content : option jsstring;
  reply_message : option jsstring;
  finalOutcome : option FinalOutcome
}.

(** What [executeToolCall] returns: an object of its own, or what
    [executeCommand] handed back. *)
Inductive outcome : Type :=
| Replied (r : reply)
| Ran (i : invocation).

Definition failure (msg : jsstring) : reply :=
  {| success := false; error := Some msg; file_content := None;
     reply_message := None; finalOutcome := None |}.

(** [!x] on a string or [undefined] *)
Definition missing (x : option jsstring) : bool :=
  match x with
  | Some (_ :: _) => false
  | _ => true
  end.

Definition throw_error {A} (msg : jsstring) (st : state) : completion A * state :=
  (Throw (PathUtils.error_of msg), st).

Definition log_fs (r : fs_request) (st : state) : state :=
  {| procs := procs st; fs_log := fs_log st ++ [r] |}.

Definition is_file_tool (functionName : jsstring) : bool :=
  JsString.eqb functionName (str "inspectFile")
  || JsString.eqb functionName (str "createFile")
  || JsString.eqb functionName (str "editFile").

Section WithEnvironment.

Variable os : kill_oracle.
Variable fs : fs_oracle.
Variable path : path_module.

Definition secure (repoPath relativePath : jsstring) : completion jsstring :=
  PathUtils.resolveSecurePath (normalize path) (resolve path) (isAbsolute path)
    (sep path) repoPath relativePath.

(** The branch of the three file tools, after the [filePath] check. *)
Definition file_tool (functionName repoPath filePath : jsstring) (a : tool_args)
  (st : state) : completion outcome * state :=
  match secure repoPath filePath with
  | Throw e => (Throw e, st)
  | Normal safeFilePath =>
      if JsString.eqb functionName (str "inspectFile") then
        let answer := readFile fs (length (fs_log st)) safeFilePath in
        let st := log_fs (FsReadFile safeFilePath answer) st in
        match answer with
        | Throw e => (Throw e, st)
        | Normal text =>
            (Normal (Replied
               {| success := true; error := None;
                  file_content := Some (firstn MAX_FILE_CONTENT_LENGTH text);
                  reply_message := None; finalOutcome := None |}), st)
        end
      else
        match content a with
        | None =>
            throw_error
              (str "content argument must be a string for file creation/editing.")
              st
        | Some data =>
            let created := JsString.eqb functionName (str "createFile") in
            let made :=
              if created then
                let thrown := mkdir fs (length (fs_log st))
                                (dirname path safeFilePath) in
                (thrown, log_fs (FsMkdir (dirname path safeFilePath) thrown) st)
              else (None, st) in
            match made with
            | (Some e, st) => (Throw e, st)
            | (None, st) =>
                let thrown := writeFile fs (length (fs_log st)) safeFilePath data in
                let st := log_fs (FsWriteFile safeFilePath data thrown) st in
                match thrown with
                | Some e => (Throw e, st)
                | None =>
                    (Normal (Replied
                       {| success := true; error := None; file_content := None;
                          reply_message :=
                            Some (str "File " ++ filePath ++ str " "
                                    ++ (if created then str "created"
                                        else str "edited") ++ str ".");
                          finalOutcome := None |}), st)
                end
            end
        end
  end.

(** The body of the second [try]. *)
Definition dispatch (functionName : jsstring) (a : tool_args)
  (repoPath : jsstring) (answer : execa_answer) (st : state)
  : completion outcome * state :=
  if is_file_tool functionName then
    match filePath a with
    | Some (c :: p) => file_tool functionName repoPath (c :: p) a st
    | _ => throw_error (str "filePath argument is missing.") st
    end
  else if JsString.eqb functionName (str "runCommand") then
    match command a, args a with
    | Some (c :: cmd), Some argv =>
        match executeCommand os repoPath (c :: cmd) argv
                (long_running (isLongRunning a)) (timeout a) answer (procs st) with
        | (Normal i, w) => (Normal (Ran i), {| procs := w; fs_log := fs_log st |})
        | (Throw e, w) => (Throw e, {| procs := w; fs_log := fs_log st |})
        end
    | _, _ =>
        throw_error
          (str "command (string) and args (array) are required for runCommand.")
          st
    end
  else if JsString.eqb functionName (str "markRunning") then
    match deploymentUrl a with
    | Some (c :: u) =>
        let runningProcInfo := JsMap.get repoPath (runningProcesses (procs st)) in
        (Normal (Replied
           {| success := true; error := None; file_content := None;
              reply_message := None;
              finalOutcome :=
                Some {| status := StatusSuccess;
                        url := Some (c :: u);
                        outcome_notes :=
                          NotesRunning
                            (if missing (notes a) then str "None"
                             else or_empty (notes a))
                            (option_map ProcessInfo.pid runningProcInfo) |} |}),
         st)
    | _ => throw_error (str "deploymentUrl argument is missing.") st
    end
  else if JsString.eqb functionName (str "markUnrunnable") then
    match reason a with
    | Some (c :: why) =>
        match terminateTrackedProcess os repoPath (procs st) with
        | (Throw e, w) => (Throw e, {| procs := w; fs_log := fs_log st |})
        | (Normal _, w) =>
            (Normal (Replied
               {| success := true; error := None; file_content := None;
                  reply_message := None;
                  finalOutcome :=
                    Some {| status := StatusFailure; url := None;
                            outcome_notes := NotesReason (c :: why) |} |}),
             {| procs := w; fs_log := fs_log st |})
        end
    | _ => throw_error (str "reason argument is missing.") st
    end
  else
    throw_error (str "Unknown tool: " ++ functionName) st.

(** The message of the [TypeError] that reading a property of [null]
    throws. *)
Definition null_read (field : jsstring) : jsstring :=
  str "Cannot read properties of null (reading '" ++ field ++ str "')".

(** The body of the second [try] when [args] is [null]: the first property
    that the branch of the tool reads throws. *)
Definition dispatch_null (functionName : jsstring) (st : state)
  : completion outcome * state :=
  if is_file_tool functionName then throw_error (null_read (str "filePath")) st
  else if JsString.eqb functionName (str "runCommand") then
    throw_error (null_read (str "command")) st
  else if JsString.eqb functionName (str "markRunning") then
    throw_error (null_read (str "deploymentUrl")) st
  else if JsString.eqb functionName (str "markUnrunnable") then
    throw_error (null_read (str "reason")) st
  else
    throw_error (str "Unknown tool: " ++ functionName) st.

(** The [catch] of the second [try]. *)
Definition caught (res : completion outcome * state) : completion outcome * state :=
  match res with
  | (Normal o, st') => (Normal o, st')
  | (Throw e, st') =>
      (Normal (Replied (failure (str "Tool execution failed: " ++ message e))),
       st')
  end.

Definition executeToolCall (functionName : jsstring) (arguments : parse_outcome)
  (repoPath : jsstring) (answer : execa_answer) (st : state)
  : completion outcome * state :=
  match arguments with
  | ParseThrows msg =>
      (Normal (Replied (failure (str "Failed to parse arguments: " ++ msg))), st)
  | ParsedNull => caught (dispatch_null functionName st)
  | Parsed a => caught (dispatch functionName a repoPath answer st)
  end.

End WithEnvironment.
End Executor.


(** ** [llm/openaiClient.ts] *)

Module OpenAIClient.

(** The module variable [openaiClient]: [None] is [null]; a client is known
    by the key it was constructed with. *)
Definition t := option jsstring.

Definition initializeOpenAI (apiKey : jsstring) (openaiClient : t)
  : completion jsstring * t :=
  match apiKey with
  | [] => (Throw (PathUtils.error_of (str "OpenAI API key is required.")),
           openaiClient)
  | _ :: _ =>
      match openaiClient with
      | None => (Normal apiKey, Some apiKey)     (* [new OpenAI({ apiKey })] *)
      | Some client => (Normal client, openaiClient)
      end
  end.

Definition getOpenAIClient (openaiClient : t) : completion jsstring :=
  match openaiClient with
  | None =>
      Throw (PathUtils.error_of
               (str "OpenAI client has not been initialized. Call initializeOpenAI first."))
  | Some client => Normal client
  end.

End OpenAIClient.

(** ** [git/client.ts]: [cloneAndCheckout] *)

Module GitClient.

(** The requests to [simple-git], oldest first, each with what it threw.
    The options of a clone are the entries of the options object, in
    property order; a [null] value is [None]. Building a handle with
    [simpleGit(...)] is taken not to throw. *)
Inductive git_request : Type :=
| GitClone (repoUrl targetPath : jsstring)
           (options : list (jsstring * option jsstring))
           (thrown : option js_error)
| GitCheckout (baseDir commitHash : jsstring) (thrown : option js_error).

(** What git answers, from the number of earlier requests. *)
Record git_oracle : Type := {
  clone : nat -> jsstring -> jsstring -> option js_error;
  checkout : nat -> jsstring -> jsstring -> option js_error
}.

(** [{ '--depth': '1', ...cloneOptions }] *)
Definition clone_options (accessToken : option jsstring)
  : list (jsstring * option jsstring) :=
  [(str "--depth", Some (str "1")); (str "--no-checkout", None)]
    ++ match accessToken with
       | Some (c :: token) =>
           [(str "--config",
             Some (str "http.extraheader=Authorization: Bearer " ++ c :: token))]
       | _ => []
       end.

Definition git_failure (e : js_error) : js_error :=
  PathUtils.error_of (str "Failed during git operations: " ++ message e).

Definition cloneAndCheckout (git : git_oracle)
  (repoUrl targetPath commitHash : jsstring) (accessToken : option jsstring)
  (log : list git_request) : completion unit * list git_request :=
  let thrown := clone git (length log) repoUrl targetPath in
  let log1 := log ++ [GitClone repoUrl targetPath (clone_options accessToken) thrown] in
  match thrown with
  | Some error => (Throw (git_failure error), log1)
  | None =>
      let thrown := checkout git (length log1) targetPath commitHash in
      let log2 := log1 ++ [GitCheckout targetPath commitHash thrown] in
      match thrown with
      | Some error => (Throw (git_failure error), log2)
      | None => (Normal tt, log2)
      end
  end.

End GitClient.

(** ** [core/orchestrator.ts]: [cloneAndRun] *)

Module Orchestrator.

Definition MAX_LLM_TURNS : nat := 15.

Record RunOptions : Type := {
  repoUrl : jsstring;
  commitHash : jsstring;
  openaiApiKey : jsstring;
  githubToken : option jsstring
}.

(** A tool call of a response: [arguments] is what [JSON.parse] makes of
    [function.arguments]. *)
Record tool_call : Type := {
  id : option jsstring;
  name : jsstring;
  arguments : Executor.parse_outcome
}.

(** [response.choices[0].message]: [tool_calls] is [Some] for an array. *)
Record response_message : Type := {
  content : option jsstring;
  tool_calls : option (list tool_call)
}.

(** [openai.chat.completions.create] throws, or returns a response with its
    [choices]; a choice whose [message] is missing is [None]. *)
Inductive llm_outcome : Type :=
| LlmThrows (e : js_error)
| LlmResponds (choices : list (option response_message)).

Inductive chat_message : Type :=
| SystemMessage (content : jsstring)
| UserMessage (content : jsstring)
| AssistantMessage (m : response_message)
| ToolMessage (tool_call_id content : jsstring).

(** What awaiting [executeToolCall] gives. *)
Inductive tool_result : Type :=
| OfExecutor (r : Executor.reply)
| OfCommand (r : ToolResult.t).

(** The [notes] of the outcome: which text of the source. *)
Inductive run_notes : Type :=
| NotesIncomplete                      (* "Analysis did not complete successfully." *)
| NotesEmptyResponse                   (* "LLM response was empty." *)
| NotesNoContent                       (* "LLM response had no content or tool calls." *)
| NotesMaxTurns                        (* "Max turns (15) reached without ..." *)
| NotesOfTool (n : Executor.final_notes)
| NotesUnhandled (message : jsstring). (* "Unhandled exception during analysis: ..." *)

Record FinalOutcome : Type := {
  status : Executor.outcome_status;
  url : option jsstring;
  notes : run_notes;
  repoPath : jsstring
}.

(** What the run is given from outside: the answers of the operating
    system, the file system, git and the model, and the library functions
    it calls. [execa] and [child_events] answer by the time of the request
    (the length of the trace); [child_events] lists what a detached child
    does before its startup timeout. *)
Record environment : Type := {
  os : kill_oracle;
  fs : Executor.fs_oracle;
  path : Executor.path_module;
  rm : FsUtils.rm_oracle;
  git : GitClient.git_oracle;
  mkdtemp : completion jsstring;
  readdir : FsUtils.node;
  llm : nat -> list chat_message -> llm_outcome;
  execa : nat -> execa_answer;
  child_events : nat -> list Detached.event;
  getSystemPrompt : jsstring -> jsstring;
  getInitialUserPrompt : jsstring -> jsstring -> jsstring;
  stringify : tool_result -> jsstring
}.

(** [error_queued]: an 'error' event that no listener will take waits in
    the queue of [process.nextTick]. It is thrown as an uncaught exception,
    which ends the process, as soon as the code that runs hands control
    back to the event loop. *)
Record state : Type := {
  openaiClient : OpenAIClient.t;
  exec : Executor.state;
  rm_log : list FsUtils.fs_effect;
  git_log : list GitClient.git_request;
  llm_log : list (list chat_message);  (* the [messages] of each request *)
  error_queued : bool
}.

Definition set_openaiClient (c : OpenAIClient.t) (st : state) : state :=
  {| openaiClient := c; exec := exec st; rm_log := rm_log st;
     git_log := git_log st; llm_log := llm_log st;
     error_queued := error_queued st |}.

Definition set_exec (x : Executor.state) (st : state) : state :=
  {| openaiClient := openaiClient st; exec := x; rm_log := rm_log st;
     git_log := git_log st; llm_log := llm_log st;
     error_queued := error_queued st |}.

Definition set_git_log (l : list GitClient.git_request) (st : state) : state :=
  {| openaiClient := openaiClient st; exec := exec st; rm_log := rm_log st;
     git_log := l; llm_log := llm_log st;
     error_queued := error_queued st |}.

Definition log_llm (request : list chat_message) (st : state) : state :=
  {| openaiClient := openaiClient st; exec := exec st; rm_log := rm_log st;
     git_log := git_log st; llm_log := llm_log st ++ [request];
     error_queued := error_queued st |}.

Definition set_error_queued (q : bool) (st : state) : state :=
  {| openaiClient := openaiClient st; exec := exec st; rm_log := rm_log st;
     git_log := git_log st; llm_log := llm_log st;
     error_queued := q |}.

(** The variables of [cloneAndRun] that the loop changes. *)
Record vars : Type := {
  messages : list chat_message;
  finalOutcome : FinalOutcome;
  loopCompleted : bool
}.

Definition push (ms : list chat_message) (v : vars) : vars :=
  {| messages := messages v ++ ms; finalOutcome := finalOutcome v;
     loopCompleted := loopCompleted v |}.

Definition set_notes (n : run_notes) (fo : FinalOutcome) : FinalOutcome :=
  {| status := status fo; url := url fo; notes := n; repoPath := repoPath fo |}.

(** [finalOutcome.notes = n; loopCompleted = true; break] *)
Definition stop (n : run_notes) (v : vars) : vars :=
  {| messages := messages v; finalOutcome := set_notes n (finalOutcome v);
     loopCompleted := true |}.

(** [finalOutcome = { ...toolResult.finalOutcome, repoPath }; loopCompleted = true] *)
Definition conclude (fo : Executor.FinalOutcome) (tempRepoPath : jsstring)
  (v : vars) : vars :=
  {| messages := messages v;
     finalOutcome :=
       {| status := Executor.status fo; url := Executor.url fo;
          notes := NotesOfTool (Executor.outcome_notes fo);
          repoPath := tempRepoPath |};
     loopCompleted := true |}.

(** The promise of a detached start is resolved by the first event that
    calls [resolve]; [None] when no event of the list does. *)
Fixpoint first_resolution (evs : list Detached.event) (st : Detached.t * world)
  : option (ToolResult.t * world) :=
  match Detached.resolved (fst st) with
  | r :: _ => Some (r, snd st)
  | [] =>
      match evs with
      | [] => None
      | ev :: rest => first_resolution rest (Detached.deliver ev st)
      end
  end.

(** Awaiting what [executeToolCall] returns. A pending start sees the
    events of its child and then, if still armed, its startup timeout. *)
Definition await_tool (env : environment) (now : nat) (o : Executor.outcome)
  (st : Executor.state) : option (tool_result * Executor.state) :=
  match o with
  | Executor.Replied r => Some (OfExecutor r, st)
  | Executor.Ran (Finished r) => Some (OfCommand r, st)
  | Executor.Ran (Pending d) =>
      match first_resolution (child_events env now ++ [Detached.EvTimer])
              (d, Executor.procs st) with
      | Some (r, w) =>
          Some (OfCommand r,
                {| Executor.procs := w; Executor.fs_log := Executor.fs_log st |})
      | None => None
      end
  end.

(** Whether the call left an 'error' event that no listener will take: it
    tried to start a child that could not be spawned. The executor of the
    promise threw before it attached a listener, and its [catch] removed the
    ones of [execa]. *)
Definition unspawned (o : Executor.outcome) : bool :=
  match o with
  | Executor.Ran (Pending d) =>
      Detached.childProcess d
      && match Detached.pid d with
         | None => true
         | Some _ => false
         end
  | _ => false
  end.

(** Whether awaiting the call hands control to the event loop: the call
    asked the file system for something, or it ran a command to its end, or
    it waits for a child that has started. Every other call is settled when
    it returns, and the [await]s on it only pass through the queue of
    microtasks. *)
Definition yields (o : Executor.outcome) (before after : Executor.state) : bool :=
  negb (length (Executor.fs_log after) =? length (Executor.fs_log before))%nat
  || match o with
     | Executor.Replied _ => false
     | Executor.Ran (Finished _) => true
     | Executor.Ran (Pending d) =>
         match Detached.resolved d with
         | [] => true
         | _ :: _ => false
         end
     end.

(** [toolResult.finalOutcome] *)
Definition finalOutcome_of (r : tool_result) : option Executor.FinalOutcome :=
  match r with
  | OfExecutor r => Executor.finalOutcome r
  | OfCommand _ => None
  end.

Definition truncation_mark : jsstring := str "... (truncated)".

Definition truncate_result (toolResultString : jsstring) : jsstring :=
  if (MAX_TOOL_RESULT_LENGTH <? Z.of_nat (length toolResultString))%Z
  then firstn (Z.to_nat MAX_TOOL_RESULT_LENGTH) toolResultString
         ++ truncation_mark
  else toolResultString.

(** How the [for (const toolCall of ...)] loop ends: [final] is the outcome
    that made it [break]. *)
Record tools_outcome : Type := {
  final : option Executor.FinalOutcome;
  toolResultsMessages : list chat_message
}.

(** The loop over the tool calls of a response. [queued] says whether an
    'error' event that no listener will take is waiting, before and after.
    [None]: the loop is never left, because an awaited promise is never
    resolved, or because the waiting 'error' event ends the process when a
    call hands control to the event loop. *)
Fixpoint tool_calls_loop (env : environment) (tempRepoPath : jsstring)
  (calls : list tool_call) (toolResultsMessages : list chat_message)
  (queued : bool) (st : Executor.state)
  : option (completion tools_outcome * Executor.state * bool) :=
  match calls with
  | [] =>
      Some (Normal {| final := None;
                      toolResultsMessages := toolResultsMessages |}, st, queued)
  | toolCall :: rest =>
      match id toolCall with
      | Some (c :: i) =>
          let now := length (trace (Executor.procs st)) in
          match Executor.executeToolCall (os env) (fs env) (path env)
                  (name toolCall) (arguments toolCall) tempRepoPath
                  (execa env now) st with
          | (Throw e, st1) => Some (Throw e, st1, queued)
          | (Normal o, st1) =>
              if queued && yields o st st1 then None
              else
                match await_tool env now o st1 with
                | None => None
                | Some (toolResult, st2) =>
                    let queued := queued || unspawned o in
                    match finalOutcome_of toolResult with
                    | Some fo =>
                        Some (Normal {| final := Some fo;
                                        toolResultsMessages := toolResultsMessages |},
                              st2, queued)
                    | None =>
                        tool_calls_loop env tempRepoPath rest
                          (toolResultsMessages
                             ++ [ToolMessage (c :: i)
                                   (truncate_result (stringify env toolResult))])
                          queued st2
                    end
                end
          end
      | _ => tool_calls_loop env tempRepoPath rest toolResultsMessages queued st
      end
  end.

Definition no_choice : js_error :=
  {| code := None;
     message := str "Cannot read properties of undefined (reading 'message')" |}.

(** How one iteration of the [for (let i = 0; i < MAX_LLM_TURNS; i++)]
    loop ends, with the variables and the state at that point: by [break],
    by reaching the end of the body, by an exception, or never, when an
    awaited promise is never resolved or the process is ended. *)
Inductive iteration : Type :=
| Break (v : vars) (st : state)
| Next (v : vars) (st : state)
| Thrown (e : js_error) (v : vars) (st : state)
| Never.

(** The body of the loop. The request to the model hands control to the
    event loop, so a waiting 'error' event ends the process there. *)
Definition turn (env : environment) (tempRepoPath : jsstring) (v : vars)
  (st : state) : iteration :=
  if error_queued st then Never else
  let st1 := log_llm (messages v) st in
  match llm env (length (llm_log st)) (messages v) with
  | LlmThrows e => Thrown e v st1
  | LlmResponds [] => Thrown no_choice v st1
  | LlmResponds (None :: _) => Break (stop NotesEmptyResponse v) st1
  | LlmResponds (Some responseMessage :: _) =>
      let v1 := push [AssistantMessage responseMessage] v in
      match tool_calls responseMessage with
      | Some calls =>
          match tool_calls_loop env tempRepoPath calls [] (error_queued st1)
                  (exec st1) with
          | None => Never
          | Some (Throw e, x, q) =>
              Thrown e v1 (set_error_queued q (set_exec x st1))
          | Some (Normal out, x, q) =>
              match final out with
              | Some fo =>
                  Break (push (toolResultsMessages out)
                           (conclude fo tempRepoPath v1))
                    (set_error_queued q (set_exec x st1))
              | None =>
                  Next (push (toolResultsMessages out) v1)
                    (set_error_queued q (set_exec x st1))
              end
          end
      | None =>
          if Executor.missing (content responseMessage)
          then Break (stop NotesNoContent v1) st1
          else Next v1 st1
      end
  end.

(** The loop, by the number [left] of turns that remain
    ([MAX_LLM_TURNS - i]). It returns how the loop was left, and [None] when
    it never is. *)
Fixpoint turns (env : environment) (tempRepoPath : jsstring) (left : nat)
  (v : vars) (st : state) : option (completion unit * vars * state) :=
  match left with
  | O => Some (Normal tt, v, st)
  | S left' =>
      match turn env tempRepoPath v st with
      | Break v' st' => Some (Normal tt, v', st')
      | Next v' st' => turns env tempRepoPath left' v' st'
      | Thrown e v' st' => Some (Throw e, v', st')
      | Never => None
      end
  end.

(** The cleanup function of the orchestrator (it shares its name with the
    one of the process manager). *)
Definition terminateTrackedProcess (env : environment) (repoPath : jsstring)
  (st : state) : completion unit * state :=
  match repoPath with
  | [] => (Normal tt, st)
  | _ :: _ =>
      let '(c, s) :=
        FsUtils.cleanupRepo (os env) (rm env) repoPath
          {| FsUtils.procs := Executor.procs (exec st);
             FsUtils.fs_log := rm_log st |} in
      (c, {| openaiClient := openaiClient st;
             exec := {| Executor.procs := FsUtils.procs s;
                        Executor.fs_log := Executor.fs_log (exec st) |};
             rm_log := FsUtils.fs_log s;
             git_log := git_log st;
             llm_log := llm_log st;
             error_queued := error_queued st |})
  end.

(** The [catch] of [cloneAndRun], with the values of [tempRepoPath] and
    [finalOutcome] at the point of the throw. *)
Definition on_unhandled (env : environment) (error : js_error)
  (tempRepoPath : option jsstring) (finalOutcome : option FinalOutcome)
  (st : state) : completion FinalOutcome * state :=
  let notes := NotesUnhandled (message error) in
  let finalOutcome :=
    match finalOutcome with
    | Some fo =>
        {| status := Executor.StatusFailure; url := url fo; notes := notes;
           repoPath := repoPath fo |}
    | None =>
        {| status := Executor.StatusFailure; url := None; notes := notes;
           repoPath := match tempRepoPath with
                       | Some (c :: p) => c :: p
                       | _ => str "unknown"
                       end |}
    end in
  match terminateTrackedProcess env (or_empty tempRepoPath) st with
  | (Throw e, st') => (Throw e, st')
  | (Normal _, st') => (Normal finalOutcome, st')
  end.

(** The [catch] as the run goes through it. With a directory to remove it
    asks the file system, which hands control to the event loop: a waiting
    'error' event ends the process there ([None]). *)
Definition catch_block (env : environment) (error : js_error)
  (tempRepoPath : option jsstring) (finalOutcome : option FinalOutcome)
  (st : state) : option (completion FinalOutcome * state) :=
  match or_empty tempRepoPath with
  | [] => Some (on_unhandled env error tempRepoPath finalOutcome st)
  | _ :: _ =>
      if error_queued st then None
      else Some (on_unhandled env error tempRepoPath finalOutcome st)
  end.

Definition incomplete (tempRepoPath : jsstring) : FinalOutcome :=
  {| status := Executor.StatusFailure; url := None; notes := NotesIncomplete;
     repoPath := tempRepoPath |}.

(** [dirStructureArray.join('\n') || "[Empty Directory or Listing Failed]"] *)
Definition initial_structure (dirStructureArray : list jsstring) : jsstring :=
  match join [10%N] dirStructureArray with
  | [] => str "[Empty Directory or Listing Failed]"
  | text => text
  end.

(** The [try] statement of [cloneAndRun] with its [catch]. Its first
    statement, [fs.mkdtemp], hands control to the event loop. *)
Definition try_block (env : environment) (options : RunOptions) (st : state)
  : option (completion FinalOutcome * state) :=
  if error_queued st then None else
  match mkdtemp env with
  | Throw error => catch_block env error None None st
  | Normal tempRepoPath =>
      match GitClient.cloneAndCheckout (git env) (repoUrl options)
              tempRepoPath (commitHash options) (githubToken options)
              (git_log st) with
      | (Throw error, log) =>
          catch_block env error (Some tempRepoPath)
            (Some (incomplete tempRepoPath)) (set_git_log log st)
      | (Normal _, log) =>
          let st := set_git_log log st in
          let dirStructureArray :=
            fst (FsUtils.listDirectoryStructure
                   FsUtils.MAX_DIR_LISTING_DEPTH FsUtils.MAX_DIR_ITEMS
                   (readdir env) 0 0) in
          let initialStructure := initial_structure dirStructureArray in
          let messages :=
            [SystemMessage (getSystemPrompt env tempRepoPath);
             UserMessage (getInitialUserPrompt env tempRepoPath
                            initialStructure)] in
          match turns env tempRepoPath MAX_LLM_TURNS
                  {| messages := messages;
                     finalOutcome := incomplete tempRepoPath;
                     loopCompleted := false |} st with
          | None => None
          | Some (Throw error, v, st) =>
              catch_block env error (Some tempRepoPath) (Some (finalOutcome v)) st
          | Some (Normal _, v, st) =>
              Some (Normal (if loopCompleted v then finalOutcome v
                            else set_notes NotesMaxTurns (finalOutcome v)),
                    st)
          end
      end
  end.

Definition cloneAndRun (env : environment) (options : RunOptions) (st : state)
  : option (completion FinalOutcome * state) :=
  match OpenAIClient.initializeOpenAI (openaiApiKey options) (openaiClient st) with
  | (Throw e, c) => Some (Throw e, set_openaiClient c st)
  | (Normal _, c) =>
      let st := set_openaiClient c st in
      match OpenAIClient.getOpenAIClient c with
      | Throw e => Some (Throw e, st)
      | Normal _ => try_block env options st
      end
  end.

End Orchestrator.

(** * Vocabulary of the statements *)

Import Detached.
Import System.

(** The [SIGTERM] requests that one sweep over the entries [ents] makes,
    the first of them at time [n]. *)
Fixpoint sweep_kills (os : kill_oracle) (n : nat)
  (ents : JsMap.jsmap ProcessInfo.t) : list effect :=
  match ents with
  | [] => []
  | (_, info) :: rest =>
      EKill (ProcessInfo.pid info) SIGTERM (os n (ProcessInfo.pid info))
        :: sweep_kills os (S n) rest
  end.

(** Before its promise is resolved an invocation that obtained a pid is
    [pending]; once [resolve] has been called it is [settled]. *)
Definition pending (d : Detached.t) : Prop :=
  resolved d = [] /\ resultSent d = false /\ processExited d = false /\
  listening d = true /\ timer d = TimerArmed SERVER_START_TIMEOUT /\
  childProcess d = true /\ exists p, pid d = Some p.

Definition settled (d : Detached.t) : Prop :=
  length (resolved d) = 1 /\ resultSent d = true /\ listening d = false /\
  forall ms, timer d <> TimerArmed ms.

Definition is_data (ev : event) : bool :=
  match ev with
  | EvStdout _ | EvStderr _ => true
  | _ => false
  end.

(** The events that can settle the promise. *)
Definition is_resolving (ev : event) : bool := negb (is_data ev).

Fixpoint stdout_of (evs : list event) : jsstring :=
  match evs with
  | [] => []
  | EvStdout data :: rest => data ++ stdout_of rest
  | _ :: rest => stdout_of rest
  end.

Fixpoint stderr_of (evs : list event) : jsstring :=
  match evs with
  | [] => []
  | EvStderr data :: rest => data ++ stderr_of rest
  | _ :: rest => stderr_of rest
  end.

(** The closure right after a spawn that returned the pid [p]. *)
Definition spawned (repoPath commandStr : jsstring) (p : N) : Detached.t :=
  set_timer (TimerArmed SERVER_START_TIMEOUT)
    (set_listening true
       (set_pid (Some p)
          (set_childProcess true (Detached.init repoPath commandStr)))).

Definition command_line (command : jsstring) (args : list jsstring) : jsstring :=
  command ++ str " " ++ join (str " ") args.

(** The results that the three racing callbacks pass to [resolve]. *)
Definition early_exit_result (p : N) (c : option Z) (sg : option jsstring)
  (d : Detached.t) : ToolResult.t :=
  {| ToolResult.success := false;
     ToolResult.pid := Some p;
     ToolResult.exitCode := c;
     ToolResult.stdout := Some (tail_half (stdoutData d));
     ToolResult.stderr := Some (tail_half (stderrData d));
     ToolResult.notes := Some (NotePrematureExit c sg);
     ToolResult.isRunningDetached := Some true;
     ToolResult.timedOut := None;
     ToolResult.signal := None;
     ToolResult.detectedPort := None;
     ToolResult.error := None |}.

Definition error_result (p : N) (e : js_error) (d : Detached.t) : ToolResult.t :=
  {| ToolResult.success := false;
     ToolResult.pid := Some p;
     ToolResult.error := Some (message e);
     ToolResult.stdout := Some (tail_half (stdoutData d));
     ToolResult.stderr := Some (tail_half (stderrData d));
     ToolResult.notes := Some (NoteRunError (message e));
     ToolResult.isRunningDetached := Some true;
     ToolResult.exitCode := None;
     ToolResult.timedOut := None;
     ToolResult.signal := None;
     ToolResult.detectedPort := None |}.

(** What the timeout callback reads off the captured output. *)
Definition port_in (d : Detached.t) : option jsstring :=
  port_of (js_match (combinedOutput d) portRegex).

Definition startup_detected (d : Detached.t) : bool :=
  is_match (js_match (combinedOutput d) successRegex) || truthy (port_in d).

Definition timer_result (p : N) (d : Detached.t) : ToolResult.t :=
  {| ToolResult.success := startup_detected d;
     ToolResult.pid := Some p;
     ToolResult.stdout := Some (tail_half (stdoutData d));
     ToolResult.stderr := Some (tail_half (stderrData d));
     ToolResult.notes :=
       Some (if startup_detected d
             then NoteStarted p
                    (option_map matched (js_match (combinedOutput d) successRegex))
                    (if truthy (port_in d) then port_in d else None)
             else NoteUnrecognized p);
     ToolResult.detectedPort := port_in d;
     ToolResult.isRunningDetached := Some true;
     ToolResult.exitCode := None;
     ToolResult.timedOut := None;
     ToolResult.signal := None;
     ToolResult.error := None |}.

Definition consistent (d : Detached.t) : Prop := pending d \/ settled d.

(** [part] is the most recent part of [whole] that a result reports: all of
    it when it has at most 2000 units, its last 2000 units otherwise. *)
Definition recent_part (whole part : jsstring) : Prop :=
  (exists dropped, whole = dropped ++ part) /\
  length part = Nat.min (length whole) 2000.

(** The result that the first resolving event [ev] produces, from the
    closure [d] as the data events before it have left it. *)
Definition resolution_of (p : N) (ev : event) (d : Detached.t) : ToolResult.t :=
  match ev with
  | EvExit c sg => early_exit_result p c sg d
  | EvError e => error_result p e d
  | _ => timer_result p d
  end.

(** The accumulated output after the data events [pre]. *)
Definition after_data (pre : list event) (d : Detached.t) : Detached.t :=
  set_stderrData (stderrData d ++ stderr_of pre)
    (set_stdoutData (stdoutData d ++ stdout_of pre) d).




(** Equality of two strings under the [i] flag. *)
Fixpoint ci_eq (a b : jsstring) : bool :=
  match a, b with
  | [], [] => true
  | x :: a', y :: b' => char_eq_ci x y && ci_eq a' b'
  | _, _ => false
  end.

(** What stands before the digits in a match of [portRegex]. *)
Definition port_prefixes : list jsstring :=
  [str "localhost:"; str "127.0.0.1:"; str "0.0.0.0:"; str "on port "].



(** A match of [portRegex] at the head of [s] that leaves [rest]: one
    capture, of four or five digits, right after one of the prefixes. *)
Definition port_capture (s rest : jsstring) (caps : captures) : Prop :=
  exists i ds pfx pfx',
    (i = 1 \/ i = 2) /\ caps = [(i, ds)] /\
    4 <= length ds <= 5 /\ forallb is_digit ds = true /\
    In pfx port_prefixes /\ ci_eq pfx pfx' = true /\
    s = pfx' ++ ds ++ rest.

(** The output of a child that printed "listening on port " and a port of
    one to three digits, and nothing else. *)
Definition announces_small_port (ds : jsstring) : jsstring :=
  str "stdout:" ++ nl ++ (str "listening on port " ++ ds) ++ nl ++ nl
    ++ str "stderr:" ++ nl.

(** A child that writes one chunk of [n] units to standard output. *)
Definition one_chunk (n : nat) : list event := [EvStdout (repeat 0%N n)].

Definition idle_world : world := {| runningProcesses := []; trace := [] |}.

(** The state of the system while the request that spawned [p2] for the key
    [k] is the youngest: the older invocations are [olds], unchanged; the
    youngest is either pending, with no entry under [k] yet, or settled,
    and then the entry under [k] is its record if it succeeded and there is
    none if it failed. *)
Definition youngest_inv (olds : list Detached.t) (k cs : jsstring) (p2 : N)
  (s : System.t) : Prop :=
  exists d2,
    children s = olds ++ [d2] /\ pid d2 = Some p2 /\
    ((pending d2 /\ repoPath d2 = k /\ commandStr d2 = cs /\
      JsMap.get k (registry s) = None)
     \/
     (settled d2 /\
      exists r, resolved d2 = [r] /\
                JsMap.get k (registry s)
                = if ToolResult.success r
                  then Some {| ProcessInfo.pid := p2; ProcessInfo.command := cs |}
                  else None)).

(** The events of [l] that go to the invocation of index [i], in order. *)
Definition to_child (i : nat) (l : list (nat * event)) : list event :=
  map snd (filter (fun ie => Nat.eqb (fst ie) i) l).

Definition deliveries (l : list (nat * event)) : list action :=
  map (fun ie => ActDeliver (fst ie) (snd ie)) l.

Definition os_delivers : kill_oracle := fun _ _ => None.

(** An operating system that refuses the signal for pid 100 ([EPERM]) and
    finds no other process ([ESRCH]). *)
Definition os_refuses : kill_oracle :=
  fun _ p =>
    if N.eqb p 100
    then Some {| code := Some (str "EPERM"); message := str "kill EPERM" |}
    else Some {| code := Some ESRCH; message := str "kill ESRCH" |}.

Definition repo : jsstring := str "/tmp/repoRunner-x".
Definition other_repo : jsstring := str "/tmp/repoRunner-y".
Definition npm : jsstring := str "npm".
Definition npm_start : list jsstring := [str "start"].

Definition two_tracked : world :=
  {| runningProcesses :=
       [(repo, {| ProcessInfo.pid := 100; ProcessInfo.command := str "npm start" |});
        (other_repo, {| ProcessInfo.pid := 101; ProcessInfo.command := str "yarn dev" |})];
     trace := [] |}.

(** The phrase arrives in two chunks, with a warning on standard error. *)
Definition chatty_start : list event :=
  [EvStdout (str "Server listening "); EvStderr (str "(node) warning");
   EvStdout (str "on port 4321")].




(** The first request for [repo] is confirmed with pid 100; the second one
    spawns pid 200, and the late exit of pid 100 arrives in between. *)
Definition first_request : list action :=
  [ActStart repo npm npm_start (SpawnReturns (Some 100%N));
   ActDeliver 0 (EvStdout (str "Server listening on port 4321"));
   ActDeliver 0 EvTimer].

Definition second_request_events : list (nat * event) :=
  [(1, EvStdout (str "ready on http://localhost:3000"));
   (0, EvExit None (Some SIGTERM));
   (1, EvTimer)].

(** The child prints the readiness line and the timer fires. *)
Definition confirmed_start : list event :=
  [EvStdout (str "Server listening on port 4321"); EvTimer].

(** The text that the timeout callback scans, from the two streams. *)
Definition combined_text (out err : jsstring) : jsstring :=
  str "stdout:" ++ nl ++ out ++ nl ++ nl ++ str "stderr:" ++ nl ++ err.

(** The message of the error that the [catch] of the promise executor
    receives when no pid was obtained. *)
Definition setup_error_message (ans : spawn_outcome) : jsstring :=
  match ans with
  | SpawnThrows e => message e
  | SpawnReturns _ => str "Failed to get PID for detached process."
  end.

(** The alternatives of [successRegex]. *)
Definition success_phrases : list jsstring :=
  [str "compiled successfully"; str "ready on"; str "listening on";
   str "server started"; str "development server is running at";
   str "started successfully"].

(** Output of a child that says nothing the startup check knows. *)
Definition quiet_start : list event :=
  [EvStdout (str "Loading configuration..."); EvStderr (str "warn: slow disk")].

(** A build tool that announces itself in capitals on standard error. *)
Definition shouting_start : list event :=
  [EvStdout (str "> dev"); EvStderr (str "webpack: COMPILED Successfully in 3s")].

(** A dev server that prints its address in mixed case. *)
Definition address_start : list event :=
  [EvStdout (str "  Local:   http://LocalHost:30001/")].

(** The requests of a run of [rm_loop] in which the attempts [errs] failed
    before the attempt that ended the loop with [last]: each failure but the
    last attempt is followed by the wait. *)
Definition rm_requests (repoPath : jsstring) (errs : list js_error)
  (last : option js_error) : list FsUtils.fs_effect :=
  flat_map (fun e => [FsUtils.FsRm repoPath (Some e); FsUtils.FsDelay FsUtils.delay])
    errs
  ++ [FsUtils.FsRm repoPath last].

(** The file-system request [r] is one that a file tool may make once
    [resolveSecurePath] has returned [p]: a read or a write of [p] itself,
    or the creation of its parent directory. *)
Definition targets (path : Executor.path_module) (p : jsstring)
  (r : Executor.fs_request) : Prop :=
  match r with
  | Executor.FsReadFile q _ => q = p
  | Executor.FsMkdir q _ => q = Executor.dirname path p
  | Executor.FsWriteFile q _ _ => q = p
  end.

(** A call that [executeToolCall] rejects before it does anything: the
    arguments did not parse or are [null], the tool is unknown, or the
    argument that the tool requires first is missing. *)
Definition rejected_early (functionName : jsstring)
  (arguments : Executor.parse_outcome) : bool :=
  match arguments with
  | Executor.ParseThrows _ => true
  | Executor.ParsedNull => true
  | Executor.Parsed a =>
      if Executor.is_file_tool functionName
      then Executor.missing (Executor.filePath a)
      else if JsString.eqb functionName (str "runCommand")
      then Executor.missing (Executor.command a)
           || match Executor.args a with Some _ => false | None => true end
      else if JsString.eqb functionName (str "markRunning")
      then Executor.missing (Executor.deploymentUrl a)
      else if JsString.eqb functionName (str "markUnrunnable")
      then Executor.missing (Executor.reason a)
      else true
  end.

(** Stand-ins for Node's [path] functions, good for POSIX paths that are
    already normal: [resolve] joins with "/", [dirname] drops the last
    segment. *)
Fixpoint drop_last_segment (p : jsstring) : jsstring :=
  match p with
  | [] => []
  | c :: rest =>
      if PathUtils.includes rest (str "/") then c :: drop_last_segment rest
      else []
  end.

Definition plain_paths : Executor.path_module :=
  {| Executor.normalize := fun p => p;
     Executor.resolve := join (str "/");
     Executor.isAbsolute := fun p => PathUtils.startsWith p (str "/");
     Executor.sep := 47;
     Executor.dirname := drop_last_segment |}.

(** A disk on which every read fails and every write succeeds. *)
Definition blank_disk : Executor.fs_oracle :=
  {| Executor.readFile :=
       fun _ _ => Throw {| code := Some (str "ENOENT");
                           message := str "ENOENT: no such file or directory" |};
     Executor.mkdir := fun _ _ => None;
     Executor.writeFile := fun _ _ _ => None |}.

Definition no_args : Executor.tool_args :=
  {| Executor.filePath := None; Executor.content := None;
     Executor.command := None; Executor.args := None;
     Executor.isLongRunning := None; Executor.timeout := None;
     Executor.deploymentUrl := None; Executor.notes := None;
     Executor.reason := None |}.

Definition write_args (file text : jsstring) : Executor.tool_args :=
  {| Executor.filePath := Some file; Executor.content := Some text;
     Executor.command := None; Executor.args := None;
     Executor.isLongRunning := None; Executor.timeout := None;
     Executor.deploymentUrl := None; Executor.notes := None;
     Executor.reason := None |}.

Definition give_up_args : Executor.tool_args :=
  {| Executor.filePath := None; Executor.content := None;
     Executor.command := None; Executor.args := None;
     Executor.isLongRunning := None; Executor.timeout := None;
     Executor.deploymentUrl := None; Executor.notes := None;
     Executor.reason := Some (str "no start script") |}.

(** The model sends the flag as a string. *)
Definition quoted_flag_args : Executor.tool_args :=
  {| Executor.filePath := None; Executor.content := None;
     Executor.command := Some npm; Executor.args := Some npm_start;
     Executor.isLongRunning := Some (Executor.JString (str "false"));
     Executor.timeout := None;
     Executor.deploymentUrl := None; Executor.notes := None;
     Executor.reason := None |}.

Definition no_answer : execa_answer :=
  {| to_detached := SpawnReturns None;
     to_normal := ExecaThrows (str "spawn ENOENT") None None |}.

Definition tracked_state : Executor.state :=
  {| Executor.procs := two_tracked; Executor.fs_log := [] |}.

Definition gave_up : Executor.reply :=
  {| Executor.success := true; Executor.error := None;
     Executor.file_content := None; Executor.reply_message := None;
     Executor.finalOutcome :=
       Some {| Executor.status := Executor.StatusFailure;
               Executor.url := None;
               Executor.outcome_notes :=
                 Executor.NotesReason (str "no start script") |} |}.

(** *** Words for [listDirectoryStructure] *)

(** [n] lies [k] levels below [root], and no name on the way down to it,
    its own included, is an ignored one. *)
Fixpoint visible (root : FsUtils.node) (k : nat) (n : FsUtils.node) : Prop :=
  match k with
  | O => n = root
  | S k' =>
      match root with
      | FsUtils.Dir _ dirents =>
          exists d, In d dirents /\
                    FsUtils.ignored (FsUtils.name_of d) = false /\
                    visible d k' n
      | _ => False
      end
  end.

(** The line of a dirent at a depth. *)
Definition entry_line (depth : nat) (n : FsUtils.node) : jsstring :=
  if FsUtils.isDirectory n
  then FsUtils.dir_line depth (FsUtils.name_of n)
  else FsUtils.file_line depth (FsUtils.name_of n).

(** A line is an entry when a folder or page icon follows its indentation. *)
Fixpoint strip_indent (l : jsstring) : jsstring :=
  match l with
  | 32%N :: rest => strip_indent rest
  | _ => l
  end.

Definition is_entry_line (l : jsstring) : bool :=
  match strip_indent l with
  | 55357%N :: _ => true
  | _ => false
  end.

(** The walk without its limits: every dirent whose name is not ignored, in
    [fs.readdir]'s order, each directory followed by its own outline. *)
Fixpoint outline (depth : nat) (root : FsUtils.node) : list jsstring :=
  match root with
  | FsUtils.Dir _ dirents =>
      flat_map
        (fun d =>
           if FsUtils.ignored (FsUtils.name_of d) then []
           else entry_line depth d
                  :: (if FsUtils.isDirectory d then outline (S depth) d else []))
        dirents
  | FsUtils.File name | FsUtils.Locked name => [FsUtils.error_line depth name]
  end.

(** The number of dirents in the outline. *)
Fixpoint items (root : FsUtils.node) : nat :=
  match root with
  | FsUtils.Dir _ dirents =>
      list_sum
        (map (fun d => if FsUtils.ignored (FsUtils.name_of d) then 0
                       else S (items d))
           dirents)
  | _ => 0
  end.

(** The number of directory levels the outline descends below [root]. *)
Fixpoint levels (root : FsUtils.node) : nat :=
  match root with
  | FsUtils.Dir _ dirents =>
      list_max
        (map (fun d => if FsUtils.ignored (FsUtils.name_of d) then 0
                       else if FsUtils.isDirectory d then S (levels d) else 0)
           dirents)
  | _ => 0
  end.

(** What one call may add to the listing and to the counter: [spare] is
    the number of lines allowed beyond two per counted item. *)
Definition within_budget (maxItems spare c : nat) (r : list jsstring * nat) : Prop :=
  c <= snd r /\ snd r <= Nat.max c maxItems /\
  length (filter is_entry_line (fst r)) = snd r - c /\
  length (fst r) <= 2 * (snd r - c) + spare.

(** A line of the listing of [root], started at depth [cd]: the entry of a
    visible dirent, indented by its level, or the error line of a visible
    place that could not be read. *)
Definition listed_line (maxDepth : nat) (root : FsUtils.node) (cd : nat)
  (l : jsstring) : Prop :=
  exists k n,
    visible root k n /\
    ((l = FsUtils.error_line (cd + k) (FsUtils.name_of n) /\
      (forall name dirents, n <> FsUtils.Dir name dirents) /\
      cd + k <= maxDepth)
     \/
     (exists k', k = S k' /\ l = entry_line (cd + k') n /\ cd + k' <= maxDepth)).

(** [r] is [full] cut off at the end, and only because the counter reached
    the limit. *)
Definition truncated (maxItems : nat) (full : list jsstring)
  (r : list jsstring * nat) : Prop :=
  exists rest, full = fst r ++ rest /\ (rest = [] \/ maxItems <= snd r).

Definition sample_tree : FsUtils.node :=
  FsUtils.Dir (str "repo")
    [FsUtils.Dir (str ".git") [FsUtils.File (str "HEAD")];
     FsUtils.File (str "package.json");
     FsUtils.Dir (str "src")
       [FsUtils.File (str "index.js"); FsUtils.Dir (str "lib") []];
     FsUtils.Locked (str "private")].

(** *** Words for [cloneAndRun] *)

Definition key_required : js_error :=
  PathUtils.error_of (str "OpenAI API key is required.").

(** The content of a tool message fits the limit: at most
    [MAX_TOOL_RESULT_LENGTH] units and the truncation mark. *)
Definition fits_limit (m : Orchestrator.chat_message) : Prop :=
  match m with
  | Orchestrator.ToolMessage _ content =>
      length content
      <= Z.to_nat MAX_TOOL_RESULT_LENGTH + length Orchestrator.truncation_mark
  | _ => True
  end.

Definition is_tool_message (m : Orchestrator.chat_message) : Prop :=
  match m with
  | Orchestrator.ToolMessage _ _ => True
  | _ => False
  end.

(** [call] is one of the tool calls of a reply of the model. *)
Definition requested (env : Orchestrator.environment)
  (call : Orchestrator.tool_call) : Prop :=
  exists n request m rest calls,
    Orchestrator.llm env n request
    = Orchestrator.LlmResponds (Some m :: rest) /\
    Orchestrator.tool_calls m = Some calls /\
    In call calls.

(** The tool call [call], executed for the workspace [repo], returned an
    object that carries the final outcome [fo], and left the state [x]. *)
Definition marked (env : Orchestrator.environment) (repo : jsstring)
  (call : Orchestrator.tool_call) (fo : Executor.FinalOutcome)
  (x : Executor.state) : Prop :=
  requested env call /\
  exists ans st0 r,
    Executor.executeToolCall (Orchestrator.os env) (Orchestrator.fs env)
      (Orchestrator.path env) (Orchestrator.name call)
      (Orchestrator.arguments call) repo ans st0
    = (Normal (Executor.Replied r), x) /\
    Executor.finalOutcome r = Some fo.

(** The outcome of the run that [cloneAndRun] makes of a tool's. *)
Definition of_tool (fo : Executor.FinalOutcome) (repo : jsstring)
  : Orchestrator.FinalOutcome :=
  {| Orchestrator.status := Executor.status fo;
     Orchestrator.url := Executor.url fo;
     Orchestrator.notes := Orchestrator.NotesOfTool (Executor.outcome_notes fo);
     Orchestrator.repoPath := repo |}.

(** How a [break] leaves [finalOutcome], from its value [fo0] before; [x]
    is the state of the tools at that point. *)
Definition broken_with (env : Orchestrator.environment) (repo : jsstring)
  (fo0 fo' : Orchestrator.FinalOutcome) (x : Executor.state) : Prop :=
  fo' = Orchestrator.set_notes Orchestrator.NotesEmptyResponse fo0 \/
  fo' = Orchestrator.set_notes Orchestrator.NotesNoContent fo0 \/
  exists call fo, marked env repo call fo x /\ fo' = of_tool fo repo.

(** A tool message that answers one of the tool calls of the reply [m]. *)
Definition answers (m : Orchestrator.response_message)
  (msg : Orchestrator.chat_message) : Prop :=
  match msg with
  | Orchestrator.ToolMessage i _ =>
      exists calls call,
        Orchestrator.tool_calls m = Some calls /\ In call calls /\
        Orchestrator.id call = Some i
  | _ => False
  end.

(** Each request after the first repeats the one before it and adds the
    reply of the model to that one, followed by tool messages that answer
    tool calls of that reply. The first request of the list is the request
    number [n]. *)
Fixpoint grows (env : Orchestrator.environment) (n : nat)
  (requests : list (list Orchestrator.chat_message)) : Prop :=
  match requests with
  | r1 :: ((r2 :: _) as rest) =>
      (exists m choices results,
         Orchestrator.llm env n r1
         = Orchestrator.LlmResponds (Some m :: choices) /\
         r2 = r1 ++ Orchestrator.AssistantMessage m :: results /\
         Forall (answers m) results) /\
      grows env (S n) rest
  | _ => True
  end.


(** The two messages that open the conversation about the clone at
    [tempRepoPath]. *)
Definition opening (env : Orchestrator.environment) (tempRepoPath : jsstring)
  : list Orchestrator.chat_message :=
  [Orchestrator.SystemMessage (Orchestrator.getSystemPrompt env tempRepoPath);
   Orchestrator.UserMessage
     (Orchestrator.getInitialUserPrompt env tempRepoPath
        (Orchestrator.initial_structure
           (fst (FsUtils.listDirectoryStructure FsUtils.MAX_DIR_LISTING_DEPTH
                   FsUtils.MAX_DIR_ITEMS (Orchestrator.readdir env) 0 0))))].

(** *** A run to look at *)

Definition start_call : Orchestrator.tool_call :=
  {| Orchestrator.id := Some (str "call_1");
     Orchestrator.name := str "runCommand";
     Orchestrator.arguments :=
       Executor.Parsed
         {| Executor.filePath := None; Executor.content := None;
            Executor.command := Some npm; Executor.args := Some npm_start;
            Executor.isLongRunning := Some (Executor.JBool true);
            Executor.timeout := None;
            Executor.deploymentUrl := None; Executor.notes := None;
            Executor.reason := None |} |}.

Definition running_call : Orchestrator.tool_call :=
  {| Orchestrator.id := Some (str "call_2");
     Orchestrator.name := str "markRunning";
     Orchestrator.arguments :=
       Executor.Parsed
         {| Executor.filePath := None; Executor.content := None;
            Executor.command := None; Executor.args := None;
            Executor.isLongRunning := None; Executor.timeout := None;
            Executor.deploymentUrl := Some (str "http://localhost:4321");
            Executor.notes := None; Executor.reason := None |} |}.

Definition reply_with (calls : list Orchestrator.tool_call)
  : Orchestrator.llm_outcome :=
  Orchestrator.LlmResponds
    [Some {| Orchestrator.content := None;
             Orchestrator.tool_calls := Some calls |}].

Definition rate_limited : js_error :=
  {| code := None; message := str "429 Too Many Requests" |}.

(** A model that starts the server, then declares it running. *)
Definition helpful_model (n : nat) (request : list Orchestrator.chat_message)
  : Orchestrator.llm_outcome :=
  match n with
  | 0 => reply_with [start_call]
  | 1 => reply_with [running_call]
  | _ => Orchestrator.LlmThrows rate_limited
  end.

Definition quiet_git : GitClient.git_oracle :=
  {| GitClient.clone := fun _ _ _ => None;
     GitClient.checkout := fun _ _ _ => None |}.

(** Everything works: the child is spawned with pid 100 and prints the
    readiness phrase before its startup timeout. *)
Definition demo_env : Orchestrator.environment :=
  {| Orchestrator.os := os_delivers;
     Orchestrator.fs := blank_disk;
     Orchestrator.path := plain_paths;
     Orchestrator.rm := fun _ _ => None;
     Orchestrator.git := quiet_git;
     Orchestrator.mkdtemp := Normal repo;
     Orchestrator.readdir := sample_tree;
     Orchestrator.llm := helpful_model;
     Orchestrator.execa :=
       fun _ => {| to_detached := SpawnReturns (Some 100%N);
                   to_normal := ExecaThrows (str "spawn ENOENT") None None |};
     Orchestrator.child_events := fun _ => chatty_start;
     Orchestrator.getSystemPrompt := fun p => str "You work in " ++ p;
     Orchestrator.getInitialUserPrompt := fun _ structure => structure;
     Orchestrator.stringify := fun _ => str "{}" |}.




(** The same, but the model refuses every request. *)
Definition refused_env : Orchestrator.environment :=
  {| Orchestrator.os := os_delivers;
     Orchestrator.fs := blank_disk;
     Orchestrator.path := plain_paths;
     Orchestrator.rm := fun _ _ => None;
     Orchestrator.git := quiet_git;
     Orchestrator.mkdtemp := Normal repo;
     Orchestrator.readdir := sample_tree;
     Orchestrator.llm := fun _ _ => Orchestrator.LlmThrows rate_limited;
     Orchestrator.execa := Orchestrator.execa demo_env;
     Orchestrator.child_events := fun _ => [];
     Orchestrator.getSystemPrompt := Orchestrator.getSystemPrompt demo_env;
     Orchestrator.getInitialUserPrompt :=
       Orchestrator.getInitialUserPrompt demo_env;
     Orchestrator.stringify := Orchestrator.stringify demo_env |}.

Definition demo_options : Orchestrator.RunOptions :=
  {| Orchestrator.repoUrl := str "https://github.com/andrewagain/calculator.git";
     Orchestrator.commitHash := str "a19f37a";
     Orchestrator.openaiApiKey := str "sk-test";
     Orchestrator.githubToken := None |}.

Definition fresh : Orchestrator.state :=
  {| Orchestrator.openaiClient := None;
     Orchestrator.exec := {| Executor.procs := idle_world; Executor.fs_log := [] |};
     Orchestrator.rm_log := [];
     Orchestrator.git_log := [];
     Orchestrator.llm_log := [];
     Orchestrator.error_queued := false |}.

Definition demo_outcome : Orchestrator.FinalOutcome :=
  {| Orchestrator.status := Executor.StatusSuccess;
     Orchestrator.url := Some (str "http://localhost:4321");
     Orchestrator.notes :=
       Orchestrator.NotesOfTool (Executor.NotesRunning (str "None") (Some 100%N));
     Orchestrator.repoPath := repo |}.

Definition refused_outcome : Orchestrator.FinalOutcome :=
  {| Orchestrator.status := Executor.StatusFailure;
     Orchestrator.url := None;
     Orchestrator.notes := Orchestrator.NotesUnhandled (str "429 Too Many Requests");
     Orchestrator.repoPath := repo |}.

(** The state in which a run from [fresh] ends. *)
Definition final_state (env : Orchestrator.environment) : Orchestrator.state :=
  match Orchestrator.cloneAndRun env demo_options fresh with
  | Some (_, st') => st'
  | None => fresh
  end.

(** * Properties *)

(** ** Strings and maps *)

Lemma jsstring_eqb_spec (a b : jsstring) : reflect (a = b) (JsString.eqb a b).
Proof.
  revert b.
  induction a as [|x a IH]; intros [|y b]; simpl; try (constructor; congruence).
  destruct (N.eqb_spec x y) as [->|Hxy]; simpl.
  - destruct (IH b) as [->|Hab]; constructor; congruence.
  - constructor; congruence.
Qed.

Lemma jsstring_eqb_refl (a : jsstring) : JsString.eqb a a = true.
Proof. destruct (jsstring_eqb_spec a a); congruence. Qed.

Lemma jsstring_eqb_neq (a b : jsstring) : a <> b -> JsString.eqb a b = false.
Proof. destruct (jsstring_eqb_spec a b); congruence. Qed.

Section MapFacts.

Variable V : Type.
Implicit Types (mp : JsMap.jsmap V) (k : jsstring) (v : V).

Lemma get_in_keys mp k v : JsMap.get k mp = Some v -> In k (JsMap.keys mp).
Proof.
  induction mp as [|[k' v'] mp IH]; simpl; [discriminate|].
  destruct (jsstring_eqb_spec k k') as [->|Hne]; auto.
Qed.

Lemma get_none_not_in mp k : JsMap.get k mp = None <-> ~ In k (JsMap.keys mp).
Proof.
  induction mp as [|[k' v'] mp IH]; simpl.
  - tauto.
  - destruct (jsstring_eqb_spec k k') as [->|Hne].
    + split; [discriminate | intros H; exfalso; apply H; now left].
    + rewrite IH. split; intros H; [intros [E|I]; [congruence | tauto] | tauto].
Qed.

Lemma get_delete_same mp k : JsMap.get k (JsMap.delete k mp) = None.
Proof.
  induction mp as [|[k' v'] mp IH]; simpl; [reflexivity|].
  destruct (JsString.eqb k k') eqn:E; [exact IH|].
  simpl. now rewrite E.
Qed.

Lemma get_delete_other mp k k' :
  k' <> k -> JsMap.get k' (JsMap.delete k mp) = JsMap.get k' mp.
Proof.
  intros Hne.
  induction mp as [|[k0 v0] mp IH]; simpl; [reflexivity|].
  destruct (jsstring_eqb_spec k k0) as [->|Hk].
  - rewrite IH. now rewrite (jsstring_eqb_neq Hne).
  - simpl. now rewrite IH.
Qed.

Lemma delete_absent mp k : JsMap.get k mp = None -> JsMap.delete k mp = mp.
Proof.
  induction mp as [|[k' v'] mp IH]; simpl; [reflexivity|].
  destruct (JsString.eqb k k'); [discriminate|].
  intros H. now rewrite IH.
Qed.

Lemma get_set_same mp k v : JsMap.get k (JsMap.set k v mp) = Some v.
Proof.
  induction mp as [|[k' v'] mp IH]; simpl.
  - now rewrite jsstring_eqb_refl.
  - destruct (JsString.eqb k k') eqn:E; simpl; now rewrite E.
Qed.

Lemma get_set_other mp k k' v :
  k' <> k -> JsMap.get k' (JsMap.set k v mp) = JsMap.get k' mp.
Proof.
  intros Hne.
  induction mp as [|[k0 v0] mp IH]; simpl.
  - now rewrite (jsstring_eqb_neq Hne).
  - destruct (jsstring_eqb_spec k k0) as [->|Hk]; simpl.
    + now rewrite (jsstring_eqb_neq Hne).
    + now rewrite IH.
Qed.

Lemma keys_delete_incl mp k k' :
  In k' (JsMap.keys (JsMap.delete k mp)) -> In k' (JsMap.keys mp).
Proof.
  induction mp as [|[k0 v0] mp IH]; simpl; [tauto|].
  destruct (JsString.eqb k k0); simpl; tauto.
Qed.

Lemma keys_set_incl mp k v k' :
  In k' (JsMap.keys (JsMap.set k v mp)) -> k' = k \/ In k' (JsMap.keys mp).
Proof.
  induction mp as [|[k0 v0] mp IH]; simpl.
  - intros [E|[]]; auto.
  - destruct (JsString.eqb k k0); simpl; intuition.
Qed.

Lemma wf_delete mp k : JsMap.wf mp -> JsMap.wf (JsMap.delete k mp).
Proof.
  unfold JsMap.wf.
  induction mp as [|[k0 v0] mp IH]; simpl; intros H; [constructor|].
  inversion H as [|? ? Hni Hnd]; subst.
  destruct (JsString.eqb k k0); simpl; auto.
  constructor; auto.
  intros Hin. apply Hni. eapply keys_delete_incl; eauto.
Qed.

Lemma wf_set mp k v : JsMap.wf mp -> JsMap.wf (JsMap.set k v mp).
Proof.
  unfold JsMap.wf.
  induction mp as [|[k0 v0] mp IH]; simpl; intros H.
  - constructor; [simpl; tauto | constructor].
  - inversion H as [|? ? Hni Hnd]; subst.
    destruct (jsstring_eqb_spec k k0) as [->|Hk]; simpl.
    + constructor; auto.
    + constructor; auto.
      intros Hin. apply keys_set_incl in Hin. destruct Hin; [congruence | tauto].
Qed.

Lemma count_not_in mp k : ~ In k (JsMap.keys mp) -> JsMap.count k mp = 0.
Proof.
  induction mp as [|[k0 v0] mp IH]; simpl; [reflexivity|].
  intros H.
  destruct (jsstring_eqb_spec k k0) as [->|Hk]; [tauto|].
  simpl. apply IH. tauto.
Qed.

Lemma wf_count_le_1 mp k : JsMap.wf mp -> JsMap.count k mp <= 1.
Proof.
  unfold JsMap.wf.
  induction mp as [|[k0 v0] mp IH]; simpl; intros H; [lia|].
  inversion H as [|? ? Hni Hnd]; subst.
  destruct (jsstring_eqb_spec k k0) as [->|Hk].
  - rewrite (count_not_in _ _ Hni). lia.
  - simpl. auto.
Qed.

Lemma count_get mp k : JsMap.count k mp = 0 <-> JsMap.get k mp = None.
Proof.
  induction mp as [|[k0 v0] mp IH]; simpl; [tauto|].
  destruct (JsString.eqb k k0); simpl; [split; [lia | discriminate] | exact IH].
Qed.

End MapFacts.

(** ** Termination of a tracked process *)

Lemma terminate_unfold (os : kill_oracle) (k : jsstring) (w : world) :
  terminateTrackedProcess os k w =
    match JsMap.get k (runningProcesses w) with
    | Some info =>
        (Normal tt,
         with_registry (JsMap.delete k)
           (emit (EKill (ProcessInfo.pid info) SIGTERM
                    (os (length (trace w)) (ProcessInfo.pid info))) w))
    | None => (Normal tt, w)
    end.
Proof.
  cbv [terminateTrackedProcess bind registry_has registry_get JsMap.has
       try_catch_finally process_kill registry_delete ret].
  destruct (JsMap.get k (runningProcesses w)) as [info|] eqn:E; [|reflexivity].
  cbv beta iota. rewrite E.
  destruct (os (length (trace w)) (ProcessInfo.pid info)) as [e|]; [|reflexivity].
  destruct (is_ESRCH e); reflexivity.
Qed.

Lemma terminate_normal (os : kill_oracle) (k : jsstring) (w : world) :
  fst (terminateTrackedProcess os k w) = Normal tt.
Proof.
  rewrite terminate_unfold.
  destruct (JsMap.get k (runningProcesses w)); reflexivity.
Qed.

Lemma terminate_registry (os : kill_oracle) (k : jsstring) (w : world) :
  runningProcesses (snd (terminateTrackedProcess os k w))
  = JsMap.delete k (runningProcesses w).
Proof.
  rewrite terminate_unfold.
  destruct (JsMap.get k (runningProcesses w)) eqn:E; simpl; [reflexivity|].
  symmetry. now apply delete_absent.
Qed.

Lemma sweep_kills_length os n ents :
  length (sweep_kills os n ents) = JsMap.size ents.
Proof.
  revert n. induction ents as [|[k info] rest IH]; intros n; simpl; auto.
Qed.

Lemma terminate_each_sweeps (os : kill_oracle) (mp : JsMap.jsmap ProcessInfo.t) :
  JsMap.wf mp ->
  forall tr,
    terminate_each os (JsMap.keys mp) {| runningProcesses := mp; trace := tr |}
    = {| runningProcesses := []; trace := tr ++ sweep_kills os (length tr) mp |}.
Proof.
  induction mp as [|[k info] rest IH]; intros Hwf tr; simpl.
  - now rewrite app_nil_r.
  - inversion Hwf as [|? ? Hni Hnd]; subst.
    rewrite terminate_unfold. simpl.
    rewrite jsstring_eqb_refl. simpl.
    unfold with_registry, emit. simpl.
    rewrite jsstring_eqb_refl.
    rewrite delete_absent by (apply get_none_not_in; exact Hni).
    rewrite (IH Hnd). f_equal.
    rewrite <- app_assoc. simpl. rewrite length_app. simpl.
    now rewrite Nat.add_1_r.
Qed.

(** C4. For every key [k], every registry and every answer of the operating
    system, [terminateTrackedProcess] completes normally (it never throws)
    and leaves no entry for [k]. When [k] is absent the world is unchanged;
    when [k] is present, one [SIGTERM] is sent to the recorded pid and the
    entry is deleted whether the signal was delivered, failed with [ESRCH]
    or failed with any other error. *)
Theorem terminateTrackedProcess_always_clears
  (os : kill_oracle) (k : jsstring) (w : world) :
  fst (terminateTrackedProcess os k w) = Normal tt /\
  JsMap.get k (runningProcesses (snd (terminateTrackedProcess os k w))) = None /\
  (JsMap.get k (runningProcesses w) = None ->
   snd (terminateTrackedProcess os k w) = w) /\
  (forall info, JsMap.get k (runningProcesses w) = Some info ->
   snd (terminateTrackedProcess os k w) =
     {| runningProcesses := JsMap.delete k (runningProcesses w);
        trace := trace w ++
          [EKill (ProcessInfo.pid info) SIGTERM
             (os (length (trace w)) (ProcessInfo.pid info))] |}).
Proof.
  split; [apply terminate_normal|].
  split; [rewrite terminate_registry; apply get_delete_same|].
  rewrite terminate_unfold.
  split.
  - intros ->. reflexivity.
  - intros info ->. reflexivity.
Qed.

(** C9. On a registry of N keys, [cleanupAllTrackedProcesses] sends one
    [SIGTERM] per registered entry, in the order of the entries, then finds
    the registry empty and reports that nothing remains, whatever the
    operating system answered to the signals. The remaining count it
    reports is therefore never non-zero, so it is non-zero only when a
    delivery failure other than [ESRCH] occurred. *)
Theorem cleanupAllTrackedProcesses_sweeps_all (os : kill_oracle) (w : world) :
  JsMap.wf (runningProcesses w) ->
  cleanupAllTrackedProcesses os w =
    (Normal tt,
     {| runningProcesses := [];
        trace := (trace w ++ sweep_kills os (length (trace w)) (runningProcesses w))
                   ++ [EReportAllTerminated] |}) /\
  length (sweep_kills os (length (trace w)) (runningProcesses w))
    = JsMap.size (runningProcesses w).
Proof.
  intros Hwf. split; [|apply sweep_kills_length].
  destruct w as [mp tr]. simpl in *.
  unfold cleanupAllTrackedProcesses. simpl.
  rewrite (terminate_each_sweeps os Hwf). reflexivity.
Qed.

(** ** The normal branch *)

(** C3. A synchronous [executeCommand] always returns a result; its
    [success] is [true] exactly when [execa] returned with exit code 0 and
    without [timedOut]; and whenever [execa] reports [timedOut], the result
    has [success = false], [timedOut = true] and the timed-out note, whatever
    the exit code (0 included). *)
Theorem executeCommand_normal_success
  (repoPath command : jsstring) (args : list jsstring)
  (timeoutOverride : option Z) (answer : execa_outcome) (w : world) :
  exists r,
    fst (executeCommand_normal repoPath command args timeoutOverride answer w)
      = Normal r /\
    (ToolResult.success r = true <->
     exists x, answer = ExecaReturns x /\
               ExecaResult.exitCode x = Some 0%Z /\
               ExecaResult.timedOut x <> Some true) /\
    (forall x, answer = ExecaReturns x ->
               ExecaResult.timedOut x = Some true ->
               ToolResult.success r = false /\
               ToolResult.timedOut r = Some true /\
               ToolResult.notes r
                 = Some (NoteTimedOut (effective_timeout timeoutOverride))).
Proof.
  unfold executeCommand_normal.
  destruct answer as [x|msg out err].
  - destruct x as [ec to sg so se]. simpl.
    destruct ec as [c|]; [destruct (Z.eqb_spec c 0) as [->|Hc]|];
      destruct to as [[|]|]; simpl;
      (eexists; split; [reflexivity|]; simpl; split;
       [ split;
         [ intros H; try discriminate; eexists;
           (split; [reflexivity | split; [reflexivity | simpl; congruence]])
         | intros (y & Hy & Hec & Hto); inversion Hy; subst; simpl in *;
           congruence ]
       | intros y Hy Hto; inversion Hy; subst; simpl in *;
         try discriminate; auto ]).
  - eexists; split; [reflexivity|]. simpl. split.
    + split; [discriminate | intros (y & Hy & _); discriminate].
    + intros y Hy; discriminate.
Qed.

(** ** One detached invocation *)

Lemma executeCommand_detached_unfold os k c a ans w :
  executeCommand_detached os k c a ans w
  = spawn_detached k c a ans (snd (terminateTrackedProcess os k w)).
Proof.
  unfold executeCommand_detached, bind.
  rewrite terminate_unfold.
  destruct (JsMap.get k (runningProcesses w)); reflexivity.
Qed.

Lemma spawn_detached_pid k c a p w :
  spawn_detached k c a (SpawnReturns (Some p)) w
  = (Normal (spawned k (command_line c a) p), emit (EExeca c a k true) w).
Proof. reflexivity. Qed.

Lemma spawned_pending k cs p : pending (spawned k cs p).
Proof. unfold pending; simpl; repeat split; eauto. Qed.

Lemma settled_deliver ev d w :
  settled d -> pid d <> None -> deliver ev (d, w) = (d, w).
Proof.
  intros (_ & _ & Hl & Ht) Hp.
  unfold deliver. destruct (pid d); [|congruence].
  destruct ev; rewrite ?Hl; try reflexivity.
  destruct (timer d) eqn:E; try reflexivity.
  exfalso. eapply Ht; eauto.
Qed.

(** A settled closure is not changed by any event, with or without pid. *)
Lemma settled_deliver_fst ev d w : settled d -> fst (deliver ev (d, w)) = d.
Proof.
  intros H. destruct (pid d) as [p|] eqn:Ep.
  - rewrite settled_deliver; [reflexivity|exact H|congruence].
  - unfold deliver. rewrite Ep.
    destruct ev; try reflexivity. destruct (childProcess d); reflexivity.
Qed.

Lemma run_cons ev evs st : Detached.run (ev :: evs) st = Detached.run evs (deliver ev st).
Proof. reflexivity. Qed.

Lemma run_app evs1 evs2 st : Detached.run (evs1 ++ evs2) st = Detached.run evs2 (Detached.run evs1 st).
Proof. unfold Detached.run. apply fold_left_app. Qed.

Lemma settled_run evs d w :
  settled d -> pid d <> None -> Detached.run evs (d, w) = (d, w).
Proof.
  intros H Hp. induction evs as [|ev evs IH]; [reflexivity|].
  now rewrite run_cons, settled_deliver.
Qed.

Lemma settled_run_fst evs d w : settled d -> fst (Detached.run evs (d, w)) = d.
Proof.
  intros H. revert w. induction evs as [|ev evs IH]; intros w; [reflexivity|].
  rewrite run_cons. pose proof (settled_deliver_fst ev w H) as Hd.
  destruct (deliver ev (d, w)) as [d1 w1]. cbn [fst] in Hd. subst d1. apply IH.
Qed.

Lemma pending_deliver_data ev d w :
  pending d -> is_data ev = true ->
  pending (fst (deliver ev (d, w))) /\ snd (deliver ev (d, w)) = w /\
  stdoutData (fst (deliver ev (d, w))) = stdoutData d ++ stdout_of [ev] /\
  stderrData (fst (deliver ev (d, w))) = stderrData d ++ stderr_of [ev] /\
  repoPath (fst (deliver ev (d, w))) = repoPath d /\
  commandStr (fst (deliver ev (d, w))) = commandStr d /\
  pid (fst (deliver ev (d, w))) = pid d.
Proof.
  intros (Hr & Hs & He & Hl & Ht & Hc & p & Hp) Hd.
  unfold deliver. rewrite Hp, Hl.
  destruct ev; try discriminate; simpl;
    rewrite ?app_nil_r; unfold pending; simpl; repeat split; eauto.
Qed.

Ltac open_pending d H :=
  destruct d;
  destruct H as (?Hr & ?Hs & ?He & ?Hl & ?Ht & ?Hc & ?p & ?Hp);
  cbn [resolved resultSent processExited listening timer childProcess pid] in *;
  subst.

Lemma deliver_exit_pending p c sg d w :
  pending d -> pid d = Some p ->
  resolved (fst (deliver (EvExit c sg) (d, w))) = [early_exit_result p c sg d] /\
  settled (fst (deliver (EvExit c sg) (d, w))) /\
  snd (deliver (EvExit c sg) (d, w)) = untrack_if_same (repoPath d) p w.
Proof.
  intros H Hpid. open_pending d H. inversion Hpid; subst.
  unfold settled. cbn. repeat split; auto. discriminate.
Qed.

Lemma deliver_error_pending p e d w :
  pending d -> pid d = Some p ->
  resolved (fst (deliver (EvError e) (d, w))) = [error_result p e d] /\
  settled (fst (deliver (EvError e) (d, w))) /\
  snd (deliver (EvError e) (d, w))
    = if negb (N.eqb p 0) then untrack_if_same (repoPath d) p w else w.
Proof.
  intros H Hpid. open_pending d H. inversion Hpid; subst.
  unfold settled. cbn. repeat split; auto. discriminate.
Qed.

Lemma deliver_timer_pending p d w :
  pending d -> pid d = Some p ->
  resolved (fst (deliver EvTimer (d, w))) = [timer_result p d] /\
  settled (fst (deliver EvTimer (d, w))) /\
  snd (deliver EvTimer (d, w))
    = if startup_detected d
      then with_registry
             (JsMap.set (repoPath d)
                {| ProcessInfo.pid := p; ProcessInfo.command := commandStr d |}) w
      else w.
Proof.
  intros H Hpid. open_pending d H. inversion Hpid; subst.
  unfold settled, deliver, on_timer, timer_result, startup_detected, port_in.
  cbn -[js_match tail_half combinedOutput].
  change (combinedOutput _) with
    (str "stdout:" ++ nl ++ stdoutData0 ++ nl ++ nl ++ str "stderr:" ++ nl
       ++ stderrData0).
  destruct (is_match _ || truthy _);
    cbn -[js_match tail_half]; repeat split; auto; discriminate.
Qed.

Lemma pending_deliver_resolving ev d w :
  pending d -> is_resolving ev = true ->
  settled (fst (deliver ev (d, w))).
Proof.
  intros H Hev. pose proof H as (_ & _ & _ & _ & _ & _ & p & Hp).
  destruct ev as [x|x|c sg|e|]; try discriminate.
  - now apply (deliver_exit_pending c sg w H Hp).
  - now apply (deliver_error_pending e w H Hp).
  - now apply (deliver_timer_pending w H Hp).
Qed.

Lemma is_data_or_resolving ev : is_data ev = true \/ is_resolving ev = true.
Proof. destruct ev; simpl; auto. Qed.

Lemma deliver_consistent ev d w :
  consistent d -> consistent (fst (deliver ev (d, w))).
Proof.
  intros [H|H].
  - destruct (is_data_or_resolving ev) as [Hd|Hr].
    + left. now apply pending_deliver_data.
    + right. now apply pending_deliver_resolving.
  - right. now rewrite settled_deliver_fst.
Qed.

Lemma run_consistent evs d w :
  consistent d -> consistent (fst (Detached.run evs (d, w))).
Proof.
  revert d w. induction evs as [|ev evs IH]; intros d w H; [exact H|].
  rewrite run_cons.
  pose proof (deliver_consistent ev w H) as H1.
  destruct (deliver ev (d, w)) as [d1 w1]. now apply IH.
Qed.

Lemma deliver_pid ev d w : pid (fst (deliver ev (d, w))) = pid d.
Proof.
  unfold deliver. destruct (pid d) as [p|] eqn:Hp.
  2:{ destruct ev; try exact Hp. destruct (childProcess d); exact Hp. }
  destruct ev as [x|x|c sg|e|].
  - destruct (listening d); [destruct d|]; exact Hp.
  - destruct (listening d); [destruct d|]; exact Hp.
  - destruct (listening d); [|exact Hp]. unfold on_exit. destruct d.
    cbn in *. destruct resultSent0; cbn; [exact Hp|].
    unfold cleanupListeners, clear_timer. cbn.
    destruct timer0, childProcess0; exact Hp.
  - destruct (listening d); [|exact Hp]. unfold on_error. destruct d.
    cbn in *. destruct resultSent0; cbn; [exact Hp|].
    unfold cleanupListeners, clear_timer. cbn.
    destruct timer0, childProcess0; exact Hp.
  - destruct (timer d); try exact Hp. unfold on_timer. destruct d.
    cbn -[js_match] in *.
    destruct (processExited0 || resultSent0); [exact Hp|].
    match goal with
    | |- context [if ?b then _ else _] => destruct b
    end; unfold cleanupListeners; cbn; destruct childProcess0; exact Hp.
Qed.

Lemma consistent_resolved_le_1 d : consistent d -> length (resolved d) <= 1.
Proof.
  intros [(Hr & _)|(Hr & _)]; rewrite Hr; simpl; lia.
Qed.

Lemma spawn_detached_consistent k c a ans w :
  exists d0, fst (spawn_detached k c a ans w) = Normal d0 /\
             snd (spawn_detached k c a ans w) = emit (EExeca c a k true) w /\
             consistent d0 /\
             ((forall p, ans <> SpawnReturns (Some p)) -> settled d0).
Proof.
  destruct ans as [e|[p|]]; simpl; eexists; (split; [reflexivity|]);
    (split; [reflexivity|]).
  - split; [right|intros _]; unfold settled; cbn; repeat split; auto; discriminate.
  - split; [left; apply spawned_pending | intros H; now elim (H p)].
  - split; [right|intros _]; unfold settled; cbn; repeat split; auto; discriminate.
Qed.

Lemma deliver_resolving_pending p ev d w :
  pending d -> pid d = Some p -> is_resolving ev = true ->
  resolved (fst (deliver ev (d, w))) = [resolution_of p ev d] /\
  settled (fst (deliver ev (d, w))).
Proof.
  intros H Hp Hev. destruct ev as [x|x|c sg|e|]; try discriminate.
  - destruct (deliver_exit_pending c sg w H Hp) as (? & ? & _); auto.
  - destruct (deliver_error_pending e w H Hp) as (? & ? & _); auto.
  - destruct (deliver_timer_pending w H Hp) as (? & ? & _); auto.
Qed.

Lemma run_data p pre d w :
  pid d = Some p -> listening d = true -> forallb is_data pre = true ->
  Detached.run pre (d, w) = (after_data pre d, w).
Proof.
  revert d. induction pre as [|ev pre IH]; intros d Hp Hl Hpre.
  - destruct d. unfold after_data. cbn. now rewrite !app_nil_r.
  - simpl in Hpre. apply andb_true_iff in Hpre as [Hev Hpre].
    rewrite run_cons. unfold deliver at 1. rewrite Hp, Hl.
    destruct ev as [x|x|c sg|e|]; try discriminate.
    + rewrite IH; auto. f_equal. destruct d. unfold after_data. cbn.
      now rewrite <- app_assoc.
    + rewrite IH; auto. f_equal. destruct d. unfold after_data. cbn.
      now rewrite <- app_assoc.
Qed.

Lemma after_data_pending pre d : pending d -> pending (after_data pre d).
Proof.
  intros (Hr & Hs & He & Hl & Ht & Hc & p & Hp).
  unfold pending. destruct d. cbn in *. repeat split; eauto.
Qed.

Lemma untrack_absent k p w :
  JsMap.get k (runningProcesses w) = None -> untrack_if_same k p w = w.
Proof.
  intros H. unfold untrack_if_same, tracks, JsMap.has. now rewrite H.
Qed.

Lemma started_world os k c a ans w :
  snd (executeCommand_detached os k c a ans w)
  = emit (EExeca c a k true) (snd (terminateTrackedProcess os k w)).
Proof.
  rewrite executeCommand_detached_unfold.
  destruct (spawn_detached_consistent k c a ans (snd (terminateTrackedProcess os k w)))
    as (d0 & _ & Hw & _). exact Hw.
Qed.

Lemma started_registry os k c a ans w :
  runningProcesses (snd (executeCommand_detached os k c a ans w))
  = JsMap.delete k (runningProcesses w).
Proof. rewrite started_world. simpl. apply terminate_registry. Qed.

Lemma tail_half_unfold s : tail_half s = skipn (length s - 2000) s.
Proof.
  unfold tail_half, slice_from_quot, slice_from.
  change (Z.quot (- MAX_TOOL_RESULT_LENGTH) 2) with (-2000)%Z.
  change (-2000 <? 0)%Z with true. cbv iota. f_equal. lia.
Qed.

Lemma tail_half_length s : length (tail_half s) <= 2000.
Proof. rewrite tail_half_unfold, length_skipn. lia. Qed.

Lemma tail_half_suffix s : firstn (length s - 2000) s ++ tail_half s = s.
Proof. rewrite tail_half_unfold. apply firstn_skipn. Qed.

Lemma tail_half_recent s : recent_part s (tail_half s).
Proof.
  split.
  - eexists. symmetry. apply tail_half_suffix.
  - rewrite tail_half_unfold, length_skipn. lia.
Qed.

(** C6. A detached [executeCommand] always yields its closure (it does not
    throw), and over every sequence of events [resolve] is called at most
    once. When no pid was obtained, the one call is made during setup; no
    event changes the closure afterwards, and none changes the world
    either, but one: the 'error' event of a child that could not be spawned
    (a child without pid) finds no listener and ends the process. When a
    pid was obtained, nothing is resolved while only output arrives; the
    first of the timer, 'exit' and 'error' events produces the one
    resolution, computed from the output captured until then; and every
    later event leaves the closure and the world as they are. *)
Theorem detached_start_resolves_exactly_once
  (os : kill_oracle) (k c : jsstring) (a : list jsstring) (ans : spawn_outcome)
  (w : world) :
  exists d0 w0,
    executeCommand_detached os k c a ans w = (Normal d0, w0) /\
    (forall evs, length (resolved (fst (Detached.run evs (d0, w0)))) <= 1) /\
    ((forall p, ans <> SpawnReturns (Some p)) ->
     length (resolved d0) = 1 /\
     (forall evs w', fst (Detached.run evs (d0, w')) = d0) /\
     (forall ev w', (forall e, ev <> EvError e) -> deliver ev (d0, w') = (d0, w')) /\
     (forall e w',
        deliver (EvError e) (d0, w')
        = (d0, match ans with
               | SpawnReturns None => emit (EUncaught e) w'
               | _ => w'
               end))) /\
    (forall p pre ev post,
       ans = SpawnReturns (Some p) ->
       forallb is_data pre = true -> is_resolving ev = true ->
       resolved (fst (Detached.run pre (d0, w0))) = [] /\
       resolved (fst (Detached.run (pre ++ [ev]) (d0, w0)))
         = [resolution_of p ev (after_data pre d0)] /\
       Detached.run (pre ++ ev :: post) (d0, w0) = Detached.run (pre ++ [ev]) (d0, w0)).
Proof.
  rewrite executeCommand_detached_unfold.
  set (w1 := snd (terminateTrackedProcess os k w)).
  destruct (spawn_detached_consistent k c a ans w1) as (d0 & Hd & Hw & Hc & Hs).
  exists d0, (emit (EExeca c a k true) w1).
  split; [|split; [|split]].
  - destruct (spawn_detached k c a ans w1); simpl in *; congruence.
  - intros evs. apply consistent_resolved_le_1. now apply run_consistent.
  - intros Hno. specialize (Hs Hno). split; [apply Hs|].
    split; [intros evs w'; now apply settled_run_fst|].
    destruct ans as [e0|[p|]]; [|now elim (Hno p)|];
      cbn in Hd; inversion Hd; subst d0; split;
      try (intros [x|x|cd sg|e|] w' Hne; try reflexivity; now elim (Hne e));
      intros e w'; reflexivity.
  - intros p pre ev post -> Hpre Hev.
    rewrite spawn_detached_pid in Hd. simpl in Hd. inversion Hd; subst d0.
    set (d0 := spawned k (command_line c a) p) in *.
    set (w0 := emit (EExeca c a k true) w1).
    assert (Hrun : Detached.run pre (d0, w0) = (after_data pre d0, w0))
      by (apply (@run_data p); auto).
    assert (Hpend : pending (after_data pre d0))
      by (apply after_data_pending, spawned_pending).
    assert (Hpid : pid (after_data pre d0) = Some p) by reflexivity.
    destruct (deliver_resolving_pending ev w0 Hpend Hpid Hev) as (Hres & Hset).
    split; [|split].
    + rewrite Hrun. reflexivity.
    + rewrite run_app, Hrun. exact Hres.
    + change (ev :: post) with ([ev] ++ post).
      rewrite app_assoc, (run_app (pre ++ [ev]) post).
      rewrite run_app, Hrun. cbn [Detached.run fold_left].
      pose proof (deliver_pid ev (after_data pre d0) w0) as Hp1.
      destruct (deliver ev (after_data pre d0, w0)) as [d1 w2].
      cbn [fst] in Hp1, Hset. apply settled_run; [exact Hset|].
      rewrite Hp1, Hpid. discriminate.
Qed.

(** C2. When the child of a detached start exits before the timer fires
    (only output arrived before the 'exit' event), the one result is the
    early-exit failure: [success = false], the exit code, the premature-exit
    note, and of each stream the most recent part of what was captured (all
    of it up to 2000 units, the last 2000 otherwise). The timer is cleared,
    so nothing later changes that, and at no point of the run does the
    registry hold a record for the workspace key. *)
Theorem early_exit_fails_and_never_registers
  (os : kill_oracle) (k c : jsstring) (a : list jsstring) (p : N) (w : world)
  (pre post : list event) (code : option Z) (sg : option jsstring) :
  forallb is_data pre = true ->
  exists d0 w0 r out err,
    executeCommand_detached os k c a (SpawnReturns (Some p)) w = (Normal d0, w0) /\
    resolved (fst (Detached.run (pre ++ EvExit code sg :: post) (d0, w0))) = [r] /\
    ToolResult.success r = false /\
    ToolResult.exitCode r = code /\
    ToolResult.pid r = Some p /\
    ToolResult.stdout r = Some out /\
    ToolResult.stderr r = Some err /\
    recent_part (stdout_of pre) out /\
    recent_part (stderr_of pre) err /\
    ToolResult.notes r = Some (NotePrematureExit code sg) /\
    ToolResult.detectedPort r = None /\
    (forall n,
       JsMap.get k
         (runningProcesses
            (snd (Detached.run (firstn n (pre ++ EvExit code sg :: post)) (d0, w0))))
       = None).
Proof.
  intros Hpre.
  pose proof (started_registry os k c a (SpawnReturns (Some p)) w) as Hreg.
  rewrite executeCommand_detached_unfold in *.
  set (w1 := snd (terminateTrackedProcess os k w)) in *.
  rewrite spawn_detached_pid in *. cbn [snd] in Hreg.
  set (d0 := spawned k (command_line c a) p).
  set (w0 := emit (EExeca c a k true) w1) in *.
  assert (Hk : JsMap.get k (runningProcesses w0) = None)
    by (rewrite Hreg; apply get_delete_same).
  assert (Hdata : forall l, forallb is_data l = true ->
                            Detached.run l (d0, w0) = (after_data l d0, w0))
    by (intros l Hl; apply (@run_data p); auto).
  assert (Hexit : forall l post', forallb is_data l = true ->
            Detached.run (l ++ EvExit code sg :: post') (d0, w0)
            = (fst (deliver (EvExit code sg) (after_data l d0, w0)), w0)).
  { intros l post' Hl.
    assert (Hpend : pending (after_data l d0))
      by (apply after_data_pending, spawned_pending).
    assert (Hpid : pid (after_data l d0) = Some p) by reflexivity.
    destruct (deliver_exit_pending code sg w0 Hpend Hpid) as (_ & Hset & Hw).
    pose proof (deliver_pid (EvExit code sg) (after_data l d0) w0) as Hp1.
    rewrite run_app, (Hdata l Hl), run_cons.
    destruct (deliver (EvExit code sg) (after_data l d0, w0)) as [d1 w2].
    cbn [fst snd] in *.
    rewrite settled_run by (try exact Hset; rewrite Hp1, Hpid; discriminate).
    f_equal. rewrite Hw. now apply untrack_absent. }
  exists d0, w0, (early_exit_result p code sg (after_data pre d0)),
    (tail_half (stdout_of pre)), (tail_half (stderr_of pre)).
  split; [reflexivity|].
  split.
  { rewrite (Hexit pre post Hpre). cbn [fst].
    apply deliver_exit_pending;
      [apply after_data_pending, spawned_pending | reflexivity]. }
  do 5 (split; [reflexivity|]).
  split; [apply tail_half_recent|]. split; [apply tail_half_recent|].
  do 2 (split; [reflexivity|]).
  intros n. rewrite firstn_app.
  destruct (n - length pre) as [|m] eqn:En.
  - rewrite firstn_O, app_nil_r.
    rewrite Hdata; [exact Hk|].
    rewrite <- (firstn_skipn n pre) in Hpre.
    rewrite forallb_app in Hpre. now apply andb_true_iff in Hpre.
  - rewrite firstn_all2 by lia. rewrite firstn_cons.
    rewrite (Hexit pre (firstn m post) Hpre). exact Hk.
Qed.

(** ** The matcher *)





Lemma firstn_consumed (a b : jsstring) :
  firstn (length (a ++ b) - length b) (a ++ b) = a.
Proof.
  rewrite length_app. replace (length a + length b - length b) with (length a) by lia.
  rewrite firstn_app, Nat.sub_diag, firstn_all. simpl. apply app_nil_r.
Qed.




Lemma m_alt r1 r2 k s caps :
  m (Alt r1 r2) k s caps
  = match m r1 k s caps with
    | Some res => Some res
    | None => m r2 k s caps
    end.
Proof. reflexivity. Qed.

Lemma m_seq r1 r2 k s caps : m (Seq r1 r2) k s caps = m r1 (m r2 k) s caps.
Proof. reflexivity. Qed.

Lemma m_lit p k s caps : m (Lit p) k s caps = match_lit p k s caps.
Proof. reflexivity. Qed.


(** *** What a match of the port pattern captures *)

Lemma match_lit_inv p k s caps res :
  match_lit p k s caps = Some res ->
  exists p' s', s = p' ++ s' /\ ci_eq p p' = true /\ k s' caps = Some res.
Proof.
  revert s. induction p as [|c p IH]; intros s H; simpl in H.
  - exists [], s. auto.
  - destruct s as [|x s]; [discriminate|].
    destruct (char_eq_ci c x) eqn:E; [|discriminate].
    destruct (IH s H) as (p' & s' & -> & Hp & Hk).
    exists (x :: p'), s'. simpl. rewrite E, Hp. auto.
Qed.

Lemma ci_eq_app a a' b b' :
  ci_eq a a' = true -> ci_eq b b' = true -> ci_eq (a ++ b) (a' ++ b') = true.
Proof.
  revert a'. induction a as [|x a IH]; intros [|y a'] Ha Hb; simpl in *;
    try discriminate; auto.
  apply andb_true_iff in Ha as [-> Ha]. simpl. auto.
Qed.

Lemma rep_exact_inv cls n k s caps res :
  rep_exact cls n k s caps = Some res ->
  exists ds s', s = ds ++ s' /\ length ds = n /\ forallb cls ds = true /\
                k s' caps = Some res.
Proof.
  revert s. induction n as [|n IH]; intros s H; simpl in H.
  - exists [], s. auto.
  - destruct s as [|x s]; [discriminate|].
    destruct (cls x) eqn:Ex; [|discriminate].
    destruct (IH s H) as (ds & s' & -> & Hl & Hd & Hk).
    exists (x :: ds), s'. simpl. rewrite Ex, Hl. auto.
Qed.

Lemma rep_upto_inv cls n k s caps res :
  rep_upto cls n k s caps = Some res ->
  exists ds s', s = ds ++ s' /\ length ds <= n /\ forallb cls ds = true /\
                k s' caps = Some res.
Proof.
  revert s. induction n as [|n IH]; intros s H; simpl in H.
  - exists [], s. auto.
  - destruct s as [|x s]; [exists [], []; auto with arith|].
    destruct (cls x) eqn:Ex; [|exists [], (x :: s); simpl; auto with arith].
    destruct (rep_upto cls n k s caps) as [r|] eqn:E.
    + inversion H; subst r.
      destruct (IH s E) as (ds & s' & -> & Hl & Hd & Hk).
      exists (x :: ds), s'. simpl. rewrite Ex. repeat split; auto with arith.
    + exists [], (x :: s). simpl. auto with arith.
Qed.

Lemma group_digits_inv i k s caps res :
  m (Group i (ClassRep is_digit 4 5)) k s caps = Some res ->
  exists ds s', s = ds ++ s' /\ 4 <= length ds <= 5 /\
                forallb is_digit ds = true /\
                k s' ((i, ds) :: caps) = Some res.
Proof.
  cbn [m]. intros H.
  apply rep_exact_inv in H as (ds1 & s1 & Hs & Hl1 & Hd1 & H).
  apply rep_upto_inv in H as (ds2 & s2 & -> & Hl2 & Hd2 & H).
  exists (ds1 ++ ds2), s2.
  rewrite app_assoc in Hs. subst s. rewrite firstn_consumed in H.
  rewrite length_app, forallb_app, Hd1, Hd2. simpl in Hl2.
  repeat split; auto; lia.
Qed.

Lemma colon_digits_inv i s rest caps :
  m (Seq (Lit (str ":")) (Group i (ClassRep is_digit 4 5)))
    (fun rest caps => Some (rest, caps)) s [] = Some (rest, caps) ->
  exists c ds, ci_eq (str ":") c = true /\ s = c ++ ds ++ rest /\
               caps = [(i, ds)] /\ 4 <= length ds <= 5 /\
               forallb is_digit ds = true.
Proof.
  rewrite m_seq, m_lit. intros H.
  apply match_lit_inv in H as (c & s2 & -> & Hc & H).
  apply group_digits_inv in H as (ds & s3 & -> & Hl & Hd & Hk).
  inversion Hk; subst. exists c, ds. auto.
Qed.

Lemma match_here_port_inv s rest caps :
  match_here portRegex s = Some (rest, caps) -> port_capture s rest caps.
Proof.
  unfold match_here, portRegex. rewrite m_alt.
  match goal with |- context [match ?x with _ => _ end] =>
    destruct x as [res|] eqn:E end.
  - intros H. inversion H; subst res. clear H.
    rewrite m_seq, !m_alt, !m_lit in E.
    assert (Hk : exists h h' s',
               In h [str "localhost"; str "127.0.0.1"; str "0.0.0.0"] /\
               ci_eq h h' = true /\ s = h' ++ s' /\
               m (Seq (Lit (str ":")) (Group 1 (ClassRep is_digit 4 5)))
                 (fun rest caps => Some (rest, caps)) s' []
               = Some (rest, caps)).
    { repeat match type of E with
             | match ?x with _ => _ end = _ => destruct x eqn:?
             end;
        try discriminate;
        match goal with
        | H : match_lit ?h _ _ _ = Some ?r |- _ =>
            apply match_lit_inv in H; destruct H as (h' & s' & Hs & Hh & H);
            exists h, h', s'; repeat split; auto;
            try (cbn [In]; now auto 6); congruence
        end. }
    destruct Hk as (h & h' & s' & Hin & Hh & -> & Hk).
    apply colon_digits_inv in Hk as (c & ds & Hc & -> & Hcaps & Hl & Hd).
    exists 1, ds, (h ++ str ":"), (h' ++ c).
    repeat split; auto; try lia.
    + cbn [In] in Hin. destruct Hin as [<-|[<-|[<-|[]]]]; vm_compute; auto 6.
    + now apply ci_eq_app.
    + now rewrite <- app_assoc.
  - rewrite m_seq, m_lit. intros H.
    apply match_lit_inv in H as (pfx' & s2 & -> & Hp & H).
    apply group_digits_inv in H as (ds & s3 & -> & Hl & Hd & Hk).
    inversion Hk; subst.
    exists 2, ds, (str "on port "), pfx'.
    repeat split; auto; try lia. vm_compute. auto 6.
Qed.

Lemma exec_from_inv r i s mr :
  exec_from r i s = Some mr ->
  exists before s' rest,
    s = before ++ s' /\ match_here r s' = Some (rest, groups mr).
Proof.
  revert i. induction s as [|c s IH]; intros i H; simpl in H.
  - destruct (match_here r []) as [[rest caps]|] eqn:E; [|discriminate].
    inversion H; subst. simpl. exists [], [], rest. auto.
  - destruct (match_here r (c :: s)) as [[rest caps]|] eqn:E.
    + inversion H; subst. simpl. exists [], (c :: s), rest. auto.
    + destruct (IH _ H) as (before & s' & rest & -> & Hm).
      exists (c :: before), s', rest. auto.
Qed.

(** Whatever the output, a detected port is a run of four or five digits
    that stands in the output right after one of the four prefixes. *)
Lemma port_of_digits s q :
  port_of (js_match s portRegex) = Some q ->
  forallb is_digit q = true /\ (length q = 4 \/ length q = 5) /\
  exists before pfx pfx' rest,
    In pfx port_prefixes /\ ci_eq pfx pfx' = true /\
    s = before ++ pfx' ++ q ++ rest.
Proof.
  unfold js_match, port_of.
  destruct (exec_from portRegex 0 s) as [mr|] eqn:E; [|discriminate].
  apply exec_from_inv in E as (before & s' & rest & -> & E).
  apply match_here_port_inv in E
    as (i & ds & pfx & pfx' & Hi & Hc & Hl & Hd & Hin & Hp & ->).
  rewrite Hc.
  destruct ds as [|x ds]; [simpl in Hl; lia|].
  destruct Hi as [-> | ->]; simpl; intros H; inversion H; subst;
    (split; [exact Hd | split; [simpl in *; lia |]]);
    exists before, pfx, pfx', rest; auto.
Qed.

Lemma digit_cases x :
  is_digit x = true ->
  (x = 48 \/ x = 49 \/ x = 50 \/ x = 51 \/ x = 52 \/
   x = 53 \/ x = 54 \/ x = 55 \/ x = 56 \/ x = 57)%N.
Proof.
  unfold is_digit. intros H. apply andb_true_iff in H as [H1 H2].
  apply N.leb_le in H1. apply N.leb_le in H2. lia.
Qed.

Ltac split_digit H :=
  apply digit_cases in H;
  repeat (destruct H as [H|H]); subst.

Lemma small_port_undetected ds :
  forallb is_digit ds = true -> 1 <= length ds <= 3 ->
  js_match (announces_small_port ds) portRegex = None /\
  is_match (js_match (announces_small_port ds) successRegex) = true.
Proof.
  intros Hd Hl.
  destruct ds as [|x [|y [|z [|? ?]]]]; simpl in Hl; try lia;
    simpl in Hd; repeat (apply andb_true_iff in Hd as [?H Hd]).
  - split_digit H; vm_compute; auto.
  - split_digit H; split_digit H0; vm_compute; auto.
  - split_digit H; split_digit H0; split_digit H1; vm_compute; auto.
Qed.

Lemma resolved_shapes p evs d w :
  pending d -> pid d = Some p ->
  resolved (fst (Detached.run evs (d, w))) = [] \/
  exists d' ev, resolved (fst (Detached.run evs (d, w))) = [resolution_of p ev d'].
Proof.
  revert d w. induction evs as [|ev evs IH]; intros d w Hpend Hpid.
  - left. apply Hpend.
  - rewrite run_cons.
    destruct (is_data_or_resolving ev) as [Hd|Hr].
    + destruct (pending_deliver_data ev w Hpend Hd)
        as (Hp1 & _ & _ & _ & _ & _ & Hpid1).
      destruct (deliver ev (d, w)) as [d1 w1]. cbn [fst] in *.
      apply IH; congruence.
    + destruct (deliver_resolving_pending ev w Hpend Hpid Hr) as (Hres & Hset).
      destruct (deliver ev (d, w)) as [d1 w1]. cbn [fst] in *.
      rewrite settled_run_fst by exact Hset. right. eauto.
Qed.

Lemma resolution_port_digits p ev d q :
  ToolResult.detectedPort (resolution_of p ev d) = Some q ->
  forallb is_digit q = true /\ (length q = 4 \/ length q = 5).
Proof.
  destruct ev; simpl; try discriminate; intros H;
    apply port_of_digits in H as (H1 & H2 & _); auto.
Qed.

(** C10. The port heuristic of the timeout callback finds only a run of
    exactly four or five digits that stands in the combined output right
    after [localhost:], [127.0.0.1:], [0.0.0.0:] or [on port ] (in any
    letter case). For a detached start that obtained a pid: whatever events
    arrive, a [detectedPort] in the result is such a run of four or five
    digits; and when the child printed only "listening on port " followed by
    a port of one to three digits, the timer resolves with [detectedPort]
    null and still with [success = true] (the phrase "listening on"
    matched), and registers the process. *)
Theorem detected_port_has_four_or_five_digits
  (os : kill_oracle) (k c : jsstring) (a : list jsstring) (p : N) (w : world) :
  (forall d q,
     port_in d = Some q ->
     forallb is_digit q = true /\ (length q = 4 \/ length q = 5) /\
     exists before pfx pfx' rest,
       In pfx port_prefixes /\ ci_eq pfx pfx' = true /\
       combinedOutput d = before ++ pfx' ++ q ++ rest) /\
  exists d0 w0,
    executeCommand_detached os k c a (SpawnReturns (Some p)) w = (Normal d0, w0) /\
    (forall evs r q,
       In r (resolved (fst (Detached.run evs (d0, w0)))) ->
       ToolResult.detectedPort r = Some q ->
       forallb is_digit q = true /\ (length q = 4 \/ length q = 5)) /\
    (forall pre ds,
       forallb is_data pre = true ->
       stdout_of pre = str "listening on port " ++ ds ->
       stderr_of pre = [] ->
       forallb is_digit ds = true -> 1 <= length ds <= 3 ->
       exists r,
         resolved (fst (Detached.run (pre ++ [EvTimer]) (d0, w0))) = [r] /\
         ToolResult.success r = true /\
         ToolResult.detectedPort r = None /\
         JsMap.get k (runningProcesses (snd (Detached.run (pre ++ [EvTimer]) (d0, w0))))
         = Some {| ProcessInfo.pid := p;
                   ProcessInfo.command := command_line c a |}).
Proof.
  split; [intros d q; apply port_of_digits|].
  rewrite executeCommand_detached_unfold, spawn_detached_pid.
  set (w0 := emit _ _). set (d0 := spawned k (command_line c a) p).
  exists d0, w0. split; [reflexivity|]. split.
  - intros evs r q Hin Hq.
    destruct (resolved_shapes evs w0 (spawned_pending k (command_line c a) p)
                (eq_refl : pid d0 = Some p)) as [Hnil|(d' & ev & Hres)].
    + fold d0 in Hnil. rewrite Hnil in Hin. destruct Hin.
    + fold d0 in Hres. rewrite Hres in Hin. destruct Hin as [<-|[]].
      eapply resolution_port_digits; eauto.
  - intros pre ds Hpre Hout Herr Hd Hl.
    destruct (small_port_undetected ds Hd Hl) as (Hport & Hok).
    assert (Hcomb : combinedOutput (after_data pre d0) = announces_small_port ds).
    { unfold combinedOutput, announces_small_port, after_data. cbn.
      rewrite Hout, Herr. reflexivity. }
    assert (Hp : port_in (after_data pre d0) = None)
      by (unfold port_in; rewrite Hcomb, Hport; reflexivity).
    assert (Hs : startup_detected (after_data pre d0) = true)
      by (unfold startup_detected; rewrite Hcomb, Hok; reflexivity).
    assert (Hpend : pending (after_data pre d0))
      by (apply after_data_pending, spawned_pending).
    destruct (deliver_timer_pending w0 Hpend
                (eq_refl : pid (after_data pre d0) = Some p)) as (Hres & _ & Hw).
    exists (timer_result p (after_data pre d0)).
    rewrite run_app, (@run_data p) by auto. cbn [Detached.run fold_left].
    split; [exact Hres|]. split; [exact Hs|]. split; [exact Hp|].
    rewrite Hw, Hs. cbn [with_registry runningProcesses].
    apply get_set_same.
Qed.

(** ** What the two patterns are bound to find *)

Lemma match_lit_ci p v k s caps :
  ci_eq p v = true -> match_lit p k (v ++ s) caps = k s caps.
Proof.
  revert v. induction p as [|c p IH]; intros [|x v] H; simpl in *;
    try discriminate; auto.
  apply andb_true_iff in H as [-> H]. now apply IH.
Qed.

Lemma ci_eq_app_inv a b v :
  ci_eq (a ++ b) v = true ->
  exists va vb, v = va ++ vb /\ ci_eq a va = true /\ ci_eq b vb = true.
Proof.
  revert v. induction a as [|x a IH]; intros v H; simpl in *.
  - exists [], v. auto.
  - destruct v as [|y v]; [discriminate|].
    apply andb_true_iff in H as [Hxy H].
    destruct (IH v H) as (va & vb & -> & Ha & Hb).
    exists (y :: va), vb. simpl. rewrite Hxy, Ha. auto.
Qed.

Lemma alt_some_l r1 r2 k s caps :
  m r1 k s caps <> None -> m (Alt r1 r2) k s caps <> None.
Proof. rewrite m_alt. destruct (m r1 k s caps); congruence. Qed.

Lemma alt_some_r r1 r2 k s caps :
  m r2 k s caps <> None -> m (Alt r1 r2) k s caps <> None.
Proof. rewrite m_alt. destruct (m r1 k s caps); congruence. Qed.

Lemma rep_upto_total cls n k s caps :
  (forall s' c', k s' c' <> None) -> rep_upto cls n k s caps <> None.
Proof.
  intros Hk. revert s. induction n as [|n IH]; intros s; simpl; [apply Hk|].
  destruct s as [|x s]; [apply Hk|].
  destruct (cls x); [|apply Hk].
  destruct (rep_upto cls n k s caps) eqn:E; [discriminate | apply Hk].
Qed.

Lemma group_digits_some i k ds s caps :
  (forall s' c', k s' c' <> None) ->
  forallb is_digit ds = true -> 4 <= length ds ->
  m (Group i (ClassRep is_digit 4 5)) k (ds ++ s) caps <> None.
Proof.
  intros Hk Hd Hl.
  destruct ds as [|d1 [|d2 [|d3 [|d4 ds]]]]; simpl in Hl; try lia.
  cbn [forallb] in Hd.
  apply andb_true_iff in Hd as [H1 Hd]. apply andb_true_iff in Hd as [H2 Hd].
  apply andb_true_iff in Hd as [H3 Hd]. apply andb_true_iff in Hd as [H4 Hd].
  cbn [m app rep_exact]. rewrite H1, H2, H3, H4.
  apply rep_upto_total. intros s' c'. apply Hk.
Qed.

Lemma exec_from_finds r a s i :
  match_here r s <> None -> is_match (exec_from r i (a ++ s)) = true.
Proof.
  intros H. revert i. induction a as [|c a IH]; intros i.
  - simpl. destruct s as [|x s]; simpl;
      destruct (match_here r _) as [[rest caps]|]; try reflexivity; congruence.
  - simpl. destruct (match_here r (c :: a ++ s)) as [[rest caps]|];
      [reflexivity | apply IH].
Qed.

Lemma success_here ph v s :
  In ph success_phrases -> ci_eq ph v = true ->
  match_here successRegex (v ++ s) <> None.
Proof.
  intros Hin Hv. unfold match_here, successRegex.
  cbn [In success_phrases] in Hin.
  destruct Hin as [<-|[<-|[<-|[<-|[<-|[<-|[]]]]]]].
  - apply alt_some_l. rewrite m_lit, match_lit_ci by exact Hv. discriminate.
  - do 1 apply alt_some_r. apply alt_some_l.
    rewrite m_lit, match_lit_ci by exact Hv. discriminate.
  - do 2 apply alt_some_r. apply alt_some_l.
    rewrite m_lit, match_lit_ci by exact Hv. discriminate.
  - do 3 apply alt_some_r. apply alt_some_l.
    rewrite m_lit, match_lit_ci by exact Hv. discriminate.
  - do 4 apply alt_some_r. apply alt_some_l.
    rewrite m_lit, match_lit_ci by exact Hv. discriminate.
  - do 5 apply alt_some_r.
    rewrite m_lit, match_lit_ci by exact Hv. discriminate.
Qed.

Lemma port_here pfx v ds s :
  In pfx port_prefixes -> ci_eq pfx v = true ->
  forallb is_digit ds = true -> 4 <= length ds ->
  match_here portRegex (v ++ ds ++ s) <> None.
Proof.
  intros Hin Hv Hd Hl. unfold match_here, portRegex.
  assert (Hfinal : forall (s' : jsstring) (c' : captures),
             (fun rest caps => Some (rest, caps)) s' c'
             <> (@None (jsstring * captures))) by discriminate.
  assert (Hhost : forall h,
            ci_eq (h ++ str ":") v = true ->
            m (Lit h)
              (m (Seq (Lit (str ":")) (Group 1 (ClassRep is_digit 4 5)))
                 (fun rest caps => Some (rest, caps)))
              (v ++ ds ++ s) [] <> None).
  { intros h Hh. apply ci_eq_app_inv in Hh as (vh & vc & -> & Hvh & Hvc).
    rewrite <- app_assoc, m_lit, match_lit_ci by exact Hvh.
    rewrite m_seq, m_lit, match_lit_ci by exact Hvc.
    now apply group_digits_some. }
  cbn [In port_prefixes] in Hin.
  destruct Hin as [<-|[<-|[<-|[<-|[]]]]].
  - apply alt_some_l. rewrite m_seq. apply alt_some_l.
    apply (Hhost (str "localhost")). exact Hv.
  - apply alt_some_l. rewrite m_seq. apply alt_some_r, alt_some_l.
    apply (Hhost (str "127.0.0.1")). exact Hv.
  - apply alt_some_l. rewrite m_seq. apply alt_some_r, alt_some_r.
    apply (Hhost (str "0.0.0.0")). exact Hv.
  - apply alt_some_r. rewrite m_seq, m_lit, match_lit_ci by exact Hv.
    now apply group_digits_some.
Qed.

(** One of the two streams holds [x] somewhere. *)
Lemma combined_text_holds out err x :
  (exists a b, out = a ++ x ++ b) \/ (exists a b, err = a ++ x ++ b) ->
  exists a b, combined_text out err = a ++ x ++ b.
Proof.
  unfold combined_text. intros [(a & b & ->)|(a & b & ->)].
  - exists (str "stdout:" ++ nl ++ a), (b ++ nl ++ nl ++ str "stderr:" ++ nl ++ err).
    now rewrite <- !app_assoc.
  - exists (str "stdout:" ++ nl ++ out ++ nl ++ nl ++ str "stderr:" ++ nl ++ a), b.
    now rewrite <- !app_assoc.
Qed.

Lemma timer_run_result k cs p w0 pre :
  forallb is_data pre = true ->
  resolved (fst (Detached.run (pre ++ [EvTimer]) (spawned k cs p, w0)))
  = [timer_result p (after_data pre (spawned k cs p))] /\
  snd (Detached.run (pre ++ [EvTimer]) (spawned k cs p, w0))
  = if startup_detected (after_data pre (spawned k cs p))
    then with_registry
           (JsMap.set k {| ProcessInfo.pid := p; ProcessInfo.command := cs |}) w0
    else w0.
Proof.
  intros Hpre.
  assert (Hpend : pending (after_data pre (spawned k cs p)))
    by (apply after_data_pending, spawned_pending).
  destruct (deliver_timer_pending w0 Hpend
              (eq_refl : pid (after_data pre (spawned k cs p)) = Some p))
    as (Hres & _ & Hw).
  rewrite run_app, (@run_data p) by auto. cbn [Detached.run fold_left].
  split; [exact Hres | exact Hw].
Qed.

Lemma port_truthy_iff_match s :
  truthy (port_of (js_match s portRegex)) = is_match (js_match s portRegex).
Proof.
  unfold js_match, port_of.
  destruct (exec_from portRegex 0 s) as [mr|] eqn:E; [|reflexivity].
  apply exec_from_inv in E as (before & s' & rest & _ & E).
  apply match_here_port_inv in E
    as (i & ds & pfx & pfx' & Hi & Hc & Hl & _).
  rewrite Hc. destruct ds as [|x ds]; [simpl in Hl; lia|].
  destruct Hi as [-> | ->]; reflexivity.
Qed.

(** *** The port that the readiness phrase yields *)







(** ** The observation buffer *)

Lemma resolution_tails p ev d :
  ToolResult.stdout (resolution_of p ev d) = Some (tail_half (stdoutData d)) /\
  ToolResult.stderr (resolution_of p ev d) = Some (tail_half (stderrData d)).
Proof. destruct ev; simpl; auto. Qed.

(** C8, as stated, fails: no bound holds for the buffer during capture. For
    every candidate bound there is a single chunk of output after which the
    captured standard output is longer. *)
Lemma capture_buffer_exceeds_every_bound :
  ~ exists bound : nat,
      forall evs : list event,
        length (stdoutData (fst (Detached.run evs (spawned [] [] 1, idle_world))))
        <= bound.
Proof.
  intros (bound & H).
  specialize (H (one_chunk (S bound))).
  cbn in H. rewrite repeat_length in H. lia.
Qed.

Lemma first_resolving evs :
  forallb is_data evs = true \/
  exists pre ev post,
    evs = pre ++ ev :: post /\ forallb is_data pre = true /\ is_resolving ev = true.
Proof.
  induction evs as [|ev evs IH]; [now left|].
  destruct (is_data ev) eqn:E.
  - destruct IH as [IH|(pre & ev' & post & -> & Hpre & Hev)].
    + left. simpl. now rewrite E.
    + right. exists (ev :: pre), ev', post.
      split; [reflexivity|]. split; [simpl; now rewrite E | exact Hev].
  - right. exists [], ev, evs. split; [reflexivity|].
    split; [reflexivity|]. unfold is_resolving. now rewrite E.
Qed.

(** C8, amended. During the observation window the two buffers are the plain
    concatenation of every chunk received (nothing is trimmed while output
    is collected); only what a result reports is bounded. Every result that
    a run produces comes from the first event that is not output, and each
    stream it reports is the most recent part of the buffer as the chunks
    before that event have made it: all of the buffer when that has at most
    [MAX_TOOL_RESULT_LENGTH / 2 = 2000] units, its last 2000 otherwise. *)
Theorem capture_concatenates_and_report_is_tail
  (os : kill_oracle) (k c : jsstring) (a : list jsstring) (p : N) (w : world) :
  exists d0 w0,
    executeCommand_detached os k c a (SpawnReturns (Some p)) w = (Normal d0, w0) /\
    (forall pre,
       forallb is_data pre = true ->
       stdoutData (fst (Detached.run pre (d0, w0))) = stdout_of pre /\
       stderrData (fst (Detached.run pre (d0, w0))) = stderr_of pre) /\
    (forall evs r,
       In r (resolved (fst (Detached.run evs (d0, w0)))) ->
       exists pre ev post out err,
         evs = pre ++ ev :: post /\
         forallb is_data pre = true /\ is_resolving ev = true /\
         stdoutData (fst (Detached.run pre (d0, w0))) = stdout_of pre /\
         stderrData (fst (Detached.run pre (d0, w0))) = stderr_of pre /\
         ToolResult.stdout r = Some out /\
         ToolResult.stderr r = Some err /\
         recent_part (stdout_of pre) out /\
         recent_part (stderr_of pre) err).
Proof.
  rewrite executeCommand_detached_unfold, spawn_detached_pid.
  set (w0 := emit _ _). set (d0 := spawned k (command_line c a) p).
  exists d0, w0. split; [reflexivity|]. split.
  - intros pre Hpre. rewrite (@run_data p) by auto. split; reflexivity.
  - intros evs r Hin.
    destruct (first_resolving evs) as [Hall|(pre & ev & post & -> & Hpre & Hev)].
    + rewrite (@run_data p) in Hin by auto. destruct Hin.
    + assert (Hrun : Detached.run pre (d0, w0) = (after_data pre d0, w0))
        by (apply (@run_data p); auto).
      assert (Hpend : pending (after_data pre d0))
        by (apply after_data_pending, spawned_pending).
      assert (Hpid : pid (after_data pre d0) = Some p) by reflexivity.
      destruct (deliver_resolving_pending ev w0 Hpend Hpid Hev) as (Hres & Hset).
      change (ev :: post) with ([ev] ++ post) in Hin.
      rewrite app_assoc, (run_app (pre ++ [ev]) post) in Hin.
      rewrite run_app, Hrun, run_cons in Hin.
      change (Detached.run [] (deliver ev (after_data pre d0, w0)))
        with (deliver ev (after_data pre d0, w0)) in Hin.
      destruct (deliver ev (after_data pre d0, w0)) as [d1 w2].
      cbn [fst] in Hres, Hset.
      rewrite settled_run_fst in Hin by exact Hset.
      rewrite Hres in Hin. destruct Hin as [<-|[]].
      destruct (resolution_tails p ev (after_data pre d0)) as (Ho & He).
      exists pre, ev, post, (tail_half (stdout_of pre)), (tail_half (stderr_of pre)).
      split; [reflexivity|]. split; [exact Hpre|]. split; [exact Hev|].
      rewrite Hrun. split; [reflexivity|]. split; [reflexivity|].
      split; [exact Ho|]. split; [exact He|].
      split; apply tail_half_recent.
Qed.

(** ** An exit after the result was sent *)

Lemma untrack_spec k p w :
  untrack_if_same k p w =
    match JsMap.get k (runningProcesses w) with
    | Some info =>
        if N.eqb (ProcessInfo.pid info) p
        then with_registry (JsMap.delete k) w
        else w
    | None => w
    end.
Proof.
  unfold untrack_if_same, tracks, JsMap.has.
  destruct (JsMap.get k (runningProcesses w)); reflexivity.
Qed.

Lemma untrack_keeps_other_pid k p w k' info :
  JsMap.get k' (runningProcesses w) = Some info ->
  ProcessInfo.pid info <> p ->
  JsMap.get k' (runningProcesses (untrack_if_same k p w)) = Some info.
Proof.
  intros Hget Hne. rewrite untrack_spec.
  destruct (JsMap.get k (runningProcesses w)) as [i|] eqn:E; [|exact Hget].
  destruct (N.eqb_spec (ProcessInfo.pid i) p) as [Heq|Hneq]; [|exact Hget].
  simpl. rewrite get_delete_other; [exact Hget|].
  intros ->. congruence.
Qed.

(** C7. A confirmed child that exits keeps its record. The child of
    [npm start] under [repo], pid 100, prints the readiness line and the
    timer confirms the start, which registers pid 100; the timer callback
    also detaches every listener, so the 'exit' event that comes afterwards
    reaches none: closure and registry stay as they are and the registry
    still names pid 100. The 'exit' listener itself, had it still been
    attached, would have removed the record. What does hold of every
    delivered 'exit' event, in any state of the invocation, is that it
    removes no entry that records a different pid. *)
Theorem exit_after_confirmation_keeps_the_record :
  exists d0 w0 r,
    executeCommand_detached os_delivers repo npm npm_start
      (SpawnReturns (Some 100%N)) idle_world = (Normal d0, w0) /\
    resolved (fst (Detached.run confirmed_start (d0, w0))) = [r] /\
    ToolResult.success r = true /\
    ToolResult.pid r = Some 100%N /\
    JsMap.get repo (runningProcesses (snd (Detached.run confirmed_start (d0, w0))))
    = Some {| ProcessInfo.pid := 100; ProcessInfo.command := str "npm start" |} /\
    deliver (EvExit (Some 0%Z) None) (Detached.run confirmed_start (d0, w0))
    = Detached.run confirmed_start (d0, w0) /\
    JsMap.get repo
      (runningProcesses
         (snd (on_exit 100%N (Some 0%Z) None
                 (Detached.run confirmed_start (d0, w0)))))
    = None /\
    (forall p code sg d' w k' info,
       pid d' = Some p ->
       JsMap.get k' (runningProcesses w) = Some info ->
       ProcessInfo.pid info <> p ->
       JsMap.get k' (runningProcesses (snd (deliver (EvExit code sg) (d', w))))
       = Some info).
Proof.
  rewrite executeCommand_detached_unfold, spawn_detached_pid.
  eexists _, _, _. split; [reflexivity|].
  split; [vm_compute; reflexivity|].
  split; [reflexivity|]. split; [reflexivity|].
  split; [vm_compute; reflexivity|].
  split; [vm_compute; reflexivity|].
  split; [vm_compute; reflexivity|].
  intros p code sg d' w k' info Hp Hget Hne.
  unfold deliver. rewrite Hp.
  destruct (listening d'); [|exact Hget].
  unfold on_exit.
  destruct (negb (resultSent (set_exitCode code (set_processExited true d')))).
  - cbn [snd]. now apply untrack_keeps_other_pid.
  - cbn [snd]. apply untrack_keeps_other_pid; [|exact Hne].
    now apply untrack_keeps_other_pid.
Qed.

(** Once the result is sent the listeners are detached, so in a running
    invocation a later 'exit' event reaches no listener at all. *)
Remark exit_after_resolution_reaches_no_listener
  (code : option Z) (sg : option jsstring) (d : Detached.t) (w : world) :
  settled d -> deliver (EvExit code sg) (d, w) = (d, w).
Proof.
  intros Hs. destruct (pid d) eqn:E.
  - apply settled_deliver; [exact Hs | congruence].
  - unfold deliver. rewrite E. reflexivity.
Qed.

(** ** The registry under several invocations *)

Lemma untrack_wf k p w :
  JsMap.wf (runningProcesses w) ->
  JsMap.wf (runningProcesses (untrack_if_same k p w)).
Proof.
  intros H. unfold untrack_if_same. destruct (tracks k p w); [|exact H].
  simpl. now apply wf_delete.
Qed.

Lemma deliver_wf ev d w :
  JsMap.wf (runningProcesses w) ->
  JsMap.wf (runningProcesses (snd (deliver ev (d, w)))).
Proof.
  intros H. unfold deliver.
  destruct (pid d) as [p|];
    [|destruct ev; try exact H; destruct (childProcess d); exact H].
  destruct ev as [x|x|c sg|e|].
  - destruct (listening d); exact H.
  - destruct (listening d); exact H.
  - destruct (listening d); [|exact H]. unfold on_exit.
    destruct (negb (resultSent (set_exitCode c (set_processExited true d))));
      cbn [snd]; auto using untrack_wf.
  - destruct (listening d); [|exact H]. unfold on_error. cbn [snd].
    destruct (negb (N.eqb p 0)); auto using untrack_wf.
  - destruct (timer d); try exact H. unfold on_timer.
    destruct (processExited (set_timer TimerFired d)
              || resultSent (set_timer TimerFired d)); [exact H|].
    match goal with
    | |- context [if ?b then _ else _] => destruct b
    end; cbn [snd]; [|exact H].
    simpl. now apply wf_set.
Qed.

Lemma terminate_each_wf os ks w :
  JsMap.wf (runningProcesses w) ->
  JsMap.wf (runningProcesses (terminate_each os ks w)).
Proof.
  revert w. induction ks as [|k ks IH]; intros w H; simpl; [exact H|].
  apply IH. rewrite terminate_registry. now apply wf_delete.
Qed.

Lemma executeCommand_normal_world k c a t ans w :
  snd (executeCommand_normal k c a t ans w) = emit (EExeca c a k false) w.
Proof.
  unfold executeCommand_normal. destruct ans as [x|msg out err]; [|reflexivity].
  destruct (_ && _); [reflexivity|].
  destruct (or_false _); reflexivity.
Qed.

Lemma step_wf os s act :
  JsMap.wf (registry s) -> JsMap.wf (registry (step os s act)).
Proof.
  unfold registry. intros H. unfold step.
  destruct (ended (the_world s)); [exact H|].
  destruct act as [k c a ans|i ev|k c a t ans|k|].
  - pose proof (started_registry os k c a ans (the_world s)) as Hr.
    destruct (executeCommand_detached os k c a ans (the_world s)) as [[d|e] w1];
      cbn [snd the_world] in *; rewrite Hr; now apply wf_delete.
  - destruct (nth_error (children s) i) as [d|]; [|exact H].
    pose proof (deliver_wf ev d (the_world s) H) as Hw.
    destruct (deliver ev (d, the_world s)) as [d1 w1]. exact Hw.
  - cbn [the_world]. rewrite executeCommand_normal_world. exact H.
  - cbn [the_world]. rewrite terminate_registry. now apply wf_delete.
  - cbn [the_world]. unfold cleanupAllTrackedProcesses.
    match goal with
    | |- context [if ?b then _ else _] => destruct b
    end; cbn [snd emit runningProcesses]; now apply terminate_each_wf.
Qed.

Lemma run_wf os acts s :
  JsMap.wf (registry s) -> JsMap.wf (registry (System.run os acts s)).
Proof.
  revert s. induction acts as [|act acts IH]; intros s H; [exact H|].
  simpl. apply IH. now apply step_wf.
Qed.

Lemma replace_same i d ds : nth_error ds i = Some d -> replace i d ds = ds.
Proof.
  revert i. induction ds as [|x ds IH]; intros [|i] H; simpl in *;
    try discriminate; try congruence.
  now rewrite IH.
Qed.

Lemma replace_last d d' ds : replace (length ds) d' (ds ++ [d]) = ds ++ [d'].
Proof. induction ds as [|x ds IH]; simpl; congruence. Qed.

Lemma replace_consistent i d ds :
  consistent d -> Forall consistent ds -> Forall consistent (replace i d ds).
Proof.
  intros Hd H. revert i. induction H as [|x ds Hx H IH]; intros [|i]; simpl;
    constructor; auto.
Qed.

Lemma step_children_consistent os s act :
  Forall consistent (children s) -> Forall consistent (children (step os s act)).
Proof.
  intros H. unfold step. destruct (ended (the_world s)); [exact H|].
  destruct act as [k c a ans|i ev|k c a t ans|k|]; try exact H.
  - rewrite executeCommand_detached_unfold.
    destruct (spawn_detached_consistent k c a ans
                (snd (terminateTrackedProcess os k (the_world s))))
      as (d0 & Hd & _ & Hc & _).
    destruct (spawn_detached k c a ans _) as [[d|e] w1]; simpl in *;
      [|discriminate].
    inversion Hd; subst. apply Forall_app. auto.
  - destruct (nth_error (children s) i) as [d|] eqn:E; [|exact H].
    assert (Hd : consistent d).
    { rewrite Forall_forall in H. apply H. eapply nth_error_In; eauto. }
    pose proof (deliver_consistent ev (the_world s) Hd) as Hc.
    destruct (deliver ev (d, the_world s)) as [d1 w1]. cbn [fst children] in *.
    now apply replace_consistent.
Qed.

Lemma run_children_consistent os acts s :
  Forall consistent (children s) ->
  Forall consistent (children (System.run os acts s)).
Proof.
  revert s. induction acts as [|act acts IH]; intros s H; [exact H|].
  simpl. apply IH. now apply step_children_consistent.
Qed.

Lemma consistent_resolved_settled d :
  consistent d -> resolved d <> [] -> settled d.
Proof. intros [(Hr & _)|H] Hne; [congruence | exact H]. Qed.

Lemma step_ended os s act : ended (the_world s) = true -> step os s act = s.
Proof. intros H. unfold step. now rewrite H. Qed.

Lemma run_ended os acts s :
  ended (the_world s) = true -> System.run os acts s = s.
Proof.
  intros H. induction acts as [|act acts IH]; [reflexivity|].
  change (System.run os (act :: acts) s)
    with (System.run os acts (step os s act)).
  now rewrite step_ended.
Qed.

Lemma step_deliver os s i ev d :
  ended (the_world s) = false ->
  nth_error (children s) i = Some d ->
  step os s (ActDeliver i ev)
  = {| the_world := snd (deliver ev (d, the_world s));
       children := replace i (fst (deliver ev (d, the_world s))) (children s) |}.
Proof.
  intros He H. unfold step. rewrite He, H.
  destruct (deliver ev (d, the_world s)); reflexivity.
Qed.

Lemma step_deliver_none os s i ev :
  nth_error (children s) i = None -> step os s (ActDeliver i ev) = s.
Proof.
  intros H. unfold step. rewrite H.
  now destruct (ended (the_world s)).
Qed.

Lemma settled_deliver_registry ev d w :
  settled d -> runningProcesses (snd (deliver ev (d, w))) = runningProcesses w.
Proof.
  intros H. destruct (pid d) as [p|] eqn:Ep.
  - rewrite settled_deliver; [reflexivity|exact H|congruence].
  - unfold deliver. rewrite Ep.
    destruct ev; try reflexivity. destruct (childProcess d); reflexivity.
Qed.

Lemma youngest_inv_deliver os olds k cs p2 s i ev :
  Forall settled olds ->
  youngest_inv olds k cs p2 s ->
  youngest_inv olds k cs p2 (step os s (ActDeliver i ev)).
Proof.
  intros Hold Hinv.
  destruct (ended (the_world s)) eqn:He; [now rewrite step_ended|].
  destruct Hinv as (d2 & Hch & Hpid & Hcase).
  destruct (lt_eq_lt_dec i (length olds)) as [[Hlt|Heq]|Hgt].
  - (* an older invocation: it is settled, the registry stays *)
    assert (Hnth : exists d, nth_error (children s) i = Some d /\ settled d).
    { rewrite Hch, nth_error_app1 by exact Hlt.
      destruct (nth_error olds i) as [d|] eqn:E.
      - exists d. split; [reflexivity|]. rewrite Forall_forall in Hold.
        apply Hold. eapply nth_error_In; eauto.
      - apply nth_error_None in E. lia. }
    destruct Hnth as (d & Hnth & Hset).
    rewrite (step_deliver os s i ev He Hnth).
    rewrite (settled_deliver_fst ev (the_world s) Hset).
    rewrite replace_same by exact Hnth.
    exists d2. split; [exact Hch|]. split; [exact Hpid|].
    unfold registry in *. cbn [the_world].
    rewrite (settled_deliver_registry ev (the_world s) Hset). exact Hcase.
  - (* the youngest invocation *)
    subst i.
    assert (Hnth : nth_error (children s) (length olds) = Some d2)
      by (rewrite Hch, nth_error_app2, Nat.sub_diag by lia; reflexivity).
    rewrite (step_deliver os s (length olds) ev He Hnth), Hch, replace_last.
    eexists. split; [reflexivity|].
    split; [rewrite deliver_pid; exact Hpid|].
    unfold registry in *. cbn [the_world].
    destruct Hcase as [(Hpend & Hk & Hcs & Hget)|(Hset & Hres)].
    + destruct (is_data_or_resolving ev) as [Hd|Hr].
      * destruct (pending_deliver_data ev (the_world s) Hpend Hd)
          as (Hp1 & Hw1 & _ & _ & Hk1 & Hc1 & Hpid1).
        left. rewrite Hw1. split; [exact Hp1|].
        repeat split; try congruence; auto.
      * right. destruct ev as [x|x|c sg|e|]; try discriminate.
        -- destruct (deliver_exit_pending c sg (the_world s) Hpend Hpid)
             as (Hres & Hset & Hw).
           split; [exact Hset|].
           eexists; split; [exact Hres|].
           rewrite Hw, Hk, untrack_absent by exact Hget. exact Hget.
        -- destruct (deliver_error_pending e (the_world s) Hpend Hpid)
             as (Hres & Hset & Hw).
           split; [exact Hset|].
           eexists; split; [exact Hres|].
           rewrite Hw, Hk. destruct (negb (N.eqb p2 0)); [|exact Hget].
           rewrite untrack_absent by exact Hget. exact Hget.
        -- destruct (deliver_timer_pending (the_world s) Hpend Hpid)
             as (Hres & Hset & Hw).
           split; [exact Hset|].
           eexists; split; [exact Hres|].
           cbn [timer_result ToolResult.success].
           rewrite Hw, Hk, Hcs. destruct (startup_detected d2); [|exact Hget].
           cbn [with_registry runningProcesses]. apply get_set_same.
    + rewrite settled_deliver by (try exact Hset; rewrite Hpid; discriminate).
      right. split; [exact Hset|]. exact Hres.
  - (* no such invocation *)
    assert (Hnth : nth_error (children s) i = None)
      by (apply nth_error_None; rewrite Hch, length_app; simpl; lia).
    rewrite (step_deliver_none os s i ev Hnth).
    exists d2. split; [exact Hch|]. split; [exact Hpid|]. exact Hcase.
Qed.

Lemma youngest_inv_run os olds k cs p2 l s :
  Forall settled olds ->
  youngest_inv olds k cs p2 s ->
  youngest_inv olds k cs p2 (System.run os (deliveries l) s).
Proof.
  intros Hold. revert s. induction l as [|[i ev] l IH]; intros s H; [exact H|].
  change (System.run os (deliveries ((i, ev) :: l)) s)
    with (System.run os (deliveries l) (step os s (ActDeliver i ev))).
  apply IH. now apply youngest_inv_deliver.
Qed.

(** *** The youngest invocation among settled ones

    What an event does to the closure and to the registry depends on the
    registry only, not on the trace. *)

Lemma untrack_congr k p w w' :
  runningProcesses w = runningProcesses w' ->
  runningProcesses (untrack_if_same k p w)
  = runningProcesses (untrack_if_same k p w').
Proof.
  intros H. unfold untrack_if_same, tracks. rewrite H.
  destruct (_ && _); cbn [with_registry runningProcesses]; now rewrite H.
Qed.

Lemma deliver_congr ev d w w' :
  runningProcesses w = runningProcesses w' ->
  fst (deliver ev (d, w)) = fst (deliver ev (d, w')) /\
  runningProcesses (snd (deliver ev (d, w)))
  = runningProcesses (snd (deliver ev (d, w'))).
Proof.
  intros H. unfold deliver.
  destruct (pid d) as [p|].
  2:{ destruct ev; try (split; [reflexivity|exact H]).
      destruct (childProcess d); split; try reflexivity; exact H. }
  destruct ev as [x|x|c sg|e|].
  - destruct (listening d); split; try reflexivity; exact H.
  - destruct (listening d); split; try reflexivity; exact H.
  - destruct (listening d); [|split; [reflexivity|exact H]].
    unfold on_exit.
    destruct (negb (resultSent (set_exitCode c (set_processExited true d))));
      cbn [fst snd]; (split; [reflexivity|]); auto using untrack_congr.
  - destruct (listening d); [|split; [reflexivity|exact H]].
    unfold on_error. cbn [fst snd]. split; [reflexivity|].
    destruct (negb (N.eqb p 0)); auto using untrack_congr.
  - destruct (timer d); try (split; [reflexivity|exact H]).
    unfold on_timer.
    destruct (processExited (set_timer TimerFired d)
              || resultSent (set_timer TimerFired d));
      [split; [reflexivity|exact H]|].
    match goal with
    | |- context [if ?b then _ else _] => destruct b
    end; cbn [fst snd with_registry runningProcesses];
      (split; [reflexivity|]); now rewrite ?H.
Qed.

Lemma run_congr evs d w w' :
  runningProcesses w = runningProcesses w' ->
  fst (Detached.run evs (d, w)) = fst (Detached.run evs (d, w')) /\
  runningProcesses (snd (Detached.run evs (d, w)))
  = runningProcesses (snd (Detached.run evs (d, w'))).
Proof.
  revert d w w'. induction evs as [|ev evs IH]; intros d w w' H.
  - split; [reflexivity|exact H].
  - rewrite !run_cons. destruct (@deliver_congr ev d w w' H) as (Hd & Hw).
    destruct (deliver ev (d, w)) as [d1 w1].
    destruct (deliver ev (d, w')) as [d1' w1']. cbn [fst snd] in *.
    subst d1'. now apply IH.
Qed.

Lemma to_child_cons_same i ev l : to_child i ((i, ev) :: l) = ev :: to_child i l.
Proof. unfold to_child. cbn [filter fst]. now rewrite Nat.eqb_refl. Qed.

Lemma to_child_cons_other i j ev l :
  j <> i -> to_child i ((j, ev) :: l) = to_child i l.
Proof.
  intros H. unfold to_child. cbn [filter fst].
  now rewrite (proj2 (Nat.eqb_neq j i) H).
Qed.

(** While the process lives, the youngest invocation and the registry are
    what the youngest invocation's own events make of them: the events of
    the settled older ones change neither. *)
Lemma youngest_alone os olds d2 l s :
  Forall settled olds ->
  children s = olds ++ [d2] ->
  ended (the_world (System.run os (deliveries l) s)) = false ->
  children (System.run os (deliveries l) s)
  = olds ++ [fst (Detached.run (to_child (length olds) l) (d2, the_world s))] /\
  registry (System.run os (deliveries l) s)
  = runningProcesses
      (snd (Detached.run (to_child (length olds) l) (d2, the_world s))).
Proof.
  intros Hold. revert s d2. induction l as [|[i ev] l IH]; intros s d2 Hch Hlive.
  - split; [exact Hch|reflexivity].
  - change (System.run os (deliveries ((i, ev) :: l)) s)
      with (System.run os (deliveries l) (step os s (ActDeliver i ev))) in *.
    destruct (ended (the_world s)) eqn:He.
    { rewrite step_ended, run_ended in Hlive by exact He. congruence. }
    destruct (lt_eq_lt_dec i (length olds)) as [[Hlt|Heq]|Hgt].
    + assert (Hnth : exists d, nth_error (children s) i = Some d /\ settled d).
      { rewrite Hch, nth_error_app1 by exact Hlt.
        destruct (nth_error olds i) as [d|] eqn:E.
        - exists d. split; [reflexivity|]. rewrite Forall_forall in Hold.
          apply Hold. eapply nth_error_In; eauto.
        - apply nth_error_None in E. lia. }
      destruct Hnth as (d & Hnth & Hset).
      rewrite (step_deliver os s i ev He Hnth) in *.
      rewrite (settled_deliver_fst ev (the_world s) Hset) in *.
      rewrite replace_same in * by exact Hnth.
      rewrite to_child_cons_other by lia.
      destruct (IH {| the_world := snd (deliver ev (d, the_world s));
                      children := children s |} d2 Hch Hlive) as (H1 & H2).
      cbn [the_world] in H1, H2.
      destruct (@run_congr (to_child (length olds) l) d2
                  (snd (deliver ev (d, the_world s))) (the_world s)
                  (settled_deliver_registry ev (the_world s) Hset)) as (E1 & E2).
      rewrite H1, H2, E1, E2. split; reflexivity.
    + subst i.
      assert (Hnth : nth_error (children s) (length olds) = Some d2)
        by (rewrite Hch, nth_error_app2, Nat.sub_diag by lia; reflexivity).
      rewrite (step_deliver os s (length olds) ev He Hnth) in *.
      rewrite Hch, replace_last in *.
      rewrite to_child_cons_same, run_cons.
      destruct (IH {| the_world := snd (deliver ev (d2, the_world s));
                      children := olds ++ [fst (deliver ev (d2, the_world s))] |}
                  (fst (deliver ev (d2, the_world s))) eq_refl Hlive) as (H1 & H2).
      cbn [the_world] in H1, H2.
      rewrite H1, H2.
      now destruct (deliver ev (d2, the_world s)).
    + assert (Hnth : nth_error (children s) i = None)
        by (apply nth_error_None; rewrite Hch, length_app; simpl; lia).
      rewrite (step_deliver_none os s i ev Hnth) in *.
      rewrite to_child_cons_other by lia.
      now apply IH.
Qed.

Lemma run_pid evs d w : pid (fst (Detached.run evs (d, w))) = pid d.
Proof.
  revert d w. induction evs as [|ev evs IH]; intros d w; [reflexivity|].
  rewrite run_cons. pose proof (deliver_pid ev d w) as H.
  destruct (deliver ev (d, w)) as [d1 w1]. cbn [fst] in H. now rewrite IH.
Qed.

(** A spawned child that prints a success phrase and lives until the timer
    fires is confirmed and registered, whatever comes afterwards. *)
Lemma confirmed_run k cs p w0 pre post ph v :
  forallb is_data pre = true ->
  In ph success_phrases -> ci_eq ph v = true ->
  (exists x y, stdout_of pre = x ++ v ++ y) \/
  (exists x y, stderr_of pre = x ++ v ++ y) ->
  exists r,
    resolved (fst (Detached.run (pre ++ EvTimer :: post) (spawned k cs p, w0)))
    = [r] /\
    ToolResult.success r = true /\ ToolResult.pid r = Some p /\
    snd (Detached.run (pre ++ EvTimer :: post) (spawned k cs p, w0))
    = with_registry
        (JsMap.set k {| ProcessInfo.pid := p; ProcessInfo.command := cs |}) w0.
Proof.
  intros Hpre Hin Hv Hheld.
  set (d0 := spawned k cs p).
  destruct (timer_run_result k cs p w0 pre Hpre) as (Hres & Hw).
  fold d0 in Hres, Hw.
  assert (Hok : startup_detected (after_data pre d0) = true).
  { unfold startup_detected.
    change (combinedOutput (after_data pre d0))
      with (combined_text (stdout_of pre) (stderr_of pre)).
    destruct (@combined_text_holds (stdout_of pre) (stderr_of pre) v Hheld)
      as (x & y & ->).
    unfold js_match. rewrite exec_from_finds; [reflexivity|].
    now apply (@success_here ph v y). }
  rewrite Hok in Hw.
  change (pre ++ EvTimer :: post) with (pre ++ [EvTimer] ++ post).
  rewrite app_assoc, run_app.
  assert (Hc : consistent (fst (Detached.run (pre ++ [EvTimer]) (d0, w0))))
    by (apply run_consistent; left; apply spawned_pending).
  assert (Hset : settled (fst (Detached.run (pre ++ [EvTimer]) (d0, w0))))
    by (apply consistent_resolved_settled; [exact Hc | rewrite Hres; discriminate]).
  pose proof (run_pid (pre ++ [EvTimer]) d0 w0) as Hp.
  destruct (Detached.run (pre ++ [EvTimer]) (d0, w0)) as [d1 w1].
  cbn [fst snd] in *.
  rewrite settled_run by (try exact Hset; rewrite Hp; discriminate).
  exists (timer_result p (after_data pre d0)). cbn [fst snd].
  split; [exact Hres|]. split; [exact Hok|]. split; [reflexivity|exact Hw].
Qed.

Lemma reachable_wf os acts : JsMap.wf (registry (System.run os acts initial)).
Proof. apply run_wf. constructor. Qed.

Lemma reachable_consistent os acts :
  Forall consistent (children (System.run os acts initial)).
Proof. apply run_children_consistent. constructor. Qed.

Lemma system_run_app os acts1 acts2 s :
  System.run os (acts1 ++ acts2) s = System.run os acts2 (System.run os acts1 s).
Proof. unfold System.run. apply fold_left_app. Qed.

Lemma step_start_pid os s k c a p :
  ended (the_world s) = false ->
  step os s (ActStart k c a (SpawnReturns (Some p)))
  = {| the_world :=
         emit (EExeca c a k true) (snd (terminateTrackedProcess os k (the_world s)));
       children := children s ++ [spawned k (command_line c a) p] |}.
Proof.
  intros He. unfold step.
  now rewrite He, executeCommand_detached_unfold, spawn_detached_pid.
Qed.

(** C5. In every state the system can reach, the registry holds at most one
    record per key. And when a long-running request for [k] is issued, in a
    live process, after every earlier request has resolved:
    [terminateTrackedProcess] has removed the entry of [k] (after sending
    [SIGTERM] to the previous occupant, if there was one) before [execa] is
    called for the new child; from then on, however the later events of all
    children interleave, the registry holds under [k] at every instant
    either nothing or the record of the new child, never one left by an
    earlier request; and when the new child prints a success phrase and its
    timer fires before it exits, the record of the new child is the one
    under [k], whatever events of the earlier children came in between. *)
Theorem sequential_requests_keep_one_record
  (os : kill_oracle) (acts0 : list action) (k c : jsstring) (a : list jsstring)
  (p2 : N) (l : list (nat * event)) :
  let s := System.run os acts0 initial in
  let s1 := step os s (ActStart k c a (SpawnReturns (Some p2))) in
  let s2 := System.run os (deliveries l) s1 in
  let record :=
    {| ProcessInfo.pid := p2; ProcessInfo.command := command_line c a |} in
  Forall (fun d => resolved d <> []) (children s) ->
  ended (the_world s) = false ->
  (forall acts k', JsMap.count k' (registry (System.run os acts initial)) <= 1) /\
  (exists w1,
     terminateTrackedProcess os k (the_world s) = (Normal tt, w1) /\
     JsMap.get k (runningProcesses w1) = None /\
     trace w1 = trace (the_world s) ++
       match JsMap.get k (registry s) with
       | Some info =>
           [EKill (ProcessInfo.pid info) SIGTERM
              (os (length (trace (the_world s))) (ProcessInfo.pid info))]
       | None => []
       end /\
     the_world s1 = emit (EExeca c a k true) w1) /\
  (forall n,
     JsMap.get k (registry (System.run os (deliveries (firstn n l)) s1)) = None \/
     JsMap.get k (registry (System.run os (deliveries (firstn n l)) s1))
     = Some record) /\
  (forall pre post ph v,
     to_child (length (children s)) l = pre ++ EvTimer :: post ->
     forallb is_data pre = true ->
     In ph success_phrases -> ci_eq ph v = true ->
     (exists x y, stdout_of pre = x ++ v ++ y) \/
     (exists x y, stderr_of pre = x ++ v ++ y) ->
     ended (the_world s2) = false ->
     JsMap.get k (registry s2) = Some record /\
     JsMap.count k (registry s2) = 1 /\
     exists d2 r,
       nth_error (children s2) (length (children s)) = Some d2 /\
       resolved d2 = [r] /\
       ToolResult.success r = true /\ ToolResult.pid r = Some p2).
Proof.
  intros s s1 s2 record Hres Hlive.
  assert (Hs1 : s1 = {| the_world :=
                          emit (EExeca c a k true)
                            (snd (terminateTrackedProcess os k (the_world s)));
                        children := children s ++ [spawned k (command_line c a) p2] |})
    by (unfold s1; now rewrite step_start_pid).
  assert (Hold : Forall settled (children s)).
  { pose proof (reachable_consistent os acts0) as Hc. fold s in Hc.
    rewrite Forall_forall in *. intros d Hd.
    apply consistent_resolved_settled; auto. }
  split; [intros acts k'; apply wf_count_le_1, reachable_wf|].
  split.
  { exists (snd (terminateTrackedProcess os k (the_world s))).
    split; [|split; [|split]].
    - pose proof (terminate_normal os k (the_world s)) as Hn.
      destruct (terminateTrackedProcess os k (the_world s)); simpl in *; congruence.
    - rewrite terminate_registry. apply get_delete_same.
    - rewrite terminate_unfold. unfold registry.
      destruct (JsMap.get k (runningProcesses (the_world s))); simpl;
        [reflexivity | now rewrite app_nil_r].
    - now rewrite Hs1. }
  split.
  { intros n.
    assert (Hinv : youngest_inv (children s) k (command_line c a) p2 s1).
    { rewrite Hs1.
      exists (spawned k (command_line c a) p2). split; [reflexivity|].
      split; [reflexivity|]. left.
      split; [apply spawned_pending|]. repeat split.
      unfold registry. cbn [the_world emit runningProcesses].
      rewrite terminate_registry. apply get_delete_same. }
    apply (youngest_inv_run os (firstn n l) Hold) in Hinv.
    destruct Hinv as (d2 & _ & _ & [(_ & _ & _ & Hget)|(_ & r & _ & Hget)]).
    - now left.
    - rewrite Hget. destruct (ToolResult.success r); [now right | now left]. }
  intros pre post ph v Hto Hpre Hin Hv Hheld Hlive2.
  destruct (@youngest_alone os (children s) (spawned k (command_line c a) p2) l s1
              Hold (f_equal children Hs1) Hlive2) as (Hch & Hreg).
  fold s2 in Hch, Hreg. rewrite Hto in Hch, Hreg.
  destruct (@confirmed_run k (command_line c a) p2 (the_world s1) pre post ph v
              Hpre Hin Hv Hheld) as (r & Hr & Hok & Hp & Hw).
  assert (Hget : JsMap.get k (registry s2) = Some record).
  { rewrite Hreg, Hw. cbn [with_registry runningProcesses]. apply get_set_same. }
  split; [exact Hget|].
  split.
  { assert (Hle : JsMap.count k (registry s2) <= 1).
    { apply wf_count_le_1. unfold s2, s1, s.
      change (step os (System.run os acts0 initial)
                (ActStart k c a (SpawnReturns (Some p2))))
        with (System.run os [ActStart k c a (SpawnReturns (Some p2))]
                (System.run os acts0 initial)).
      rewrite <- !system_run_app. apply reachable_wf. }
    assert (Hpos : JsMap.count k (registry s2) <> 0).
    { intros H0. apply count_get in H0. congruence. }
    lia. }
  eexists _, r. split; [|split; [exact Hr|split; [exact Hok|exact Hp]]].
  rewrite Hch, nth_error_app2, Nat.sub_diag by lia. reflexivity.
Qed.

(** * Concrete runs *)



(** The child prints a line and exits with code 1; the timer comes later. *)
Lemma early_exit_run :
  forallb is_data [EvStderr (str "Error: Cannot find module")] = true /\
  exists d0 w0 r out err,
    executeCommand_detached os_delivers repo npm npm_start
      (SpawnReturns (Some 4242%N)) idle_world = (Normal d0, w0) /\
    resolved
      (fst (Detached.run
              ([EvStderr (str "Error: Cannot find module")]
                 ++ EvExit (Some 1%Z) None :: [EvTimer]) (d0, w0))) = [r] /\
    ToolResult.success r = false /\
    ToolResult.exitCode r = Some 1%Z /\
    ToolResult.pid r = Some 4242%N /\
    ToolResult.stdout r = Some out /\
    ToolResult.stderr r = Some err /\
    recent_part (stdout_of [EvStderr (str "Error: Cannot find module")]) out /\
    recent_part (stderr_of [EvStderr (str "Error: Cannot find module")]) err /\
    ToolResult.notes r = Some (NotePrematureExit (Some 1%Z) None) /\
    ToolResult.detectedPort r = None /\
    (forall n,
       JsMap.get repo
         (runningProcesses
            (snd (Detached.run
                    (firstn n
                       ([EvStderr (str "Error: Cannot find module")]
                          ++ EvExit (Some 1%Z) None :: [EvTimer]))
                    (d0, w0))))
       = None).
Proof.
  split; [reflexivity|].
  exact (early_exit_fails_and_never_registers os_delivers repo npm npm_start
           4242%N idle_world [EvStderr (str "Error: Cannot find module")]
           [EvTimer] (Some 1%Z) None eq_refl).
Defined.

(** Pid 100 is confirmed under [repo]; the second request retires it and
    spawns pid 200, whose record is the one under [repo] at the end, although
    the late exit of pid 100 arrived in between. *)
Lemma sequential_requests_run :
  Forall (fun d => resolved d <> [])
    (children (System.run os_delivers first_request initial)) /\
  ended (the_world (System.run os_delivers first_request initial)) = false /\
  JsMap.get repo
    (registry
       (System.run os_delivers (deliveries second_request_events)
          (step os_delivers (System.run os_delivers first_request initial)
             (ActStart repo npm npm_start (SpawnReturns (Some 200%N))))))
  = Some {| ProcessInfo.pid := 200;
            ProcessInfo.command := command_line npm npm_start |}.
Proof.
  assert (H : Forall (fun d => resolved d <> [])
                (children (System.run os_delivers first_request initial))).
  { vm_compute. constructor; [discriminate | constructor]. }
  assert (Hlive : ended (the_world (System.run os_delivers first_request initial))
                  = false) by reflexivity.
  split; [exact H|]. split; [exact Hlive|].
  refine (proj1 (proj2 (proj2 (proj2
           (sequential_requests_keep_one_record os_delivers first_request
              repo npm npm_start 200%N second_request_events H Hlive)))
           [EvStdout (str "ready on http://localhost:3000")] []
           (str "ready on") (str "ready on") eq_refl eq_refl _ eq_refl _ eq_refl)).
  - simpl. tauto.
  - left. exists [], (str " http://localhost:3000"). reflexivity.
Defined.

Lemma two_tracked_wf : JsMap.wf (runningProcesses two_tracked).
Proof.
  unfold JsMap.wf. simpl. constructor.
  - simpl. intros [H|[]]. discriminate H.
  - constructor; [simpl; tauto | constructor].
Defined.

(** Both signals fail, one of them with [EPERM]; the sweep still tries
    both keys and still reports that nothing remains. *)
Lemma sweep_run :
  JsMap.wf (runningProcesses two_tracked) /\
  cleanupAllTrackedProcesses os_refuses two_tracked =
    (Normal tt,
     {| runningProcesses := [];
        trace := (trace two_tracked
                    ++ sweep_kills os_refuses (length (trace two_tracked))
                         (runningProcesses two_tracked))
                   ++ [EReportAllTerminated] |}).
Proof.
  split; [exact two_tracked_wf|].
  exact (proj1 (cleanupAllTrackedProcesses_sweeps_all os_refuses two_tracked
                  two_tracked_wf)).
Defined.

(** ** The model evaluated *)

Example port_of_long_digit_run :
  port_of (js_match (str "dev server at LOCALHOST:300012") portRegex)
  = Some (str "30001").
Proof. vm_compute. reflexivity. Qed.

Example port_prefers_leftmost :
  port_of (js_match (str "on port 8080, proxy 127.0.0.1:9229") portRegex)
  = Some (str "8080").
Proof. vm_compute. reflexivity. Qed.

Example listening_on_port_80 :
  let st := Detached.run [EvStdout (str "listening on port 80"); EvTimer]
              (spawned repo (str "npm start") 77%N, idle_world) in
  map ToolResult.success (resolved (fst st)) = [true] /\
  map ToolResult.detectedPort (resolved (fst st)) = [None] /\
  JsMap.get repo (runningProcesses (snd st))
  = Some {| ProcessInfo.pid := 77; ProcessInfo.command := str "npm start" |}.
Proof. vm_compute. auto. Qed.

Example silent_child_is_left_untracked :
  let st := Detached.run [EvStdout (str "Loading configuration..."); EvTimer;
                          EvExit (Some 0%Z) None]
              (spawned repo (str "npm start") 77%N, idle_world) in
  map ToolResult.success (resolved (fst st)) = [false] /\
  map ToolResult.notes (resolved (fst st)) = [Some (NoteUnrecognized 77)] /\
  runningProcesses (snd st) = [].
Proof. vm_compute. auto. Qed.

Example timed_out_with_exit_code_0 :
  option_map ToolResult.success
    (match fst (executeCommand_normal repo npm npm_start (Some 5000%Z)
                  (ExecaReturns
                     {| ExecaResult.exitCode := Some 0%Z;
                        ExecaResult.timedOut := Some true;
                        ExecaResult.signal := Some SIGTERM;
                        ExecaResult.stdout := [];
                        ExecaResult.stderr := [] |}) idle_world) with
     | Normal r => Some r
     | Throw _ => None
     end)
  = Some false.
Proof. reflexivity. Qed.

Example retire_with_EPERM :
  terminateTrackedProcess os_refuses repo two_tracked
  = (Normal tt,
     {| runningProcesses :=
          [(other_repo,
            {| ProcessInfo.pid := 101; ProcessInfo.command := str "yarn dev" |})];
        trace :=
          [EKill 100 SIGTERM
             (Some {| code := Some (str "EPERM"); message := str "kill EPERM" |})] |}).
Proof. vm_compute. reflexivity. Qed.

Example superseding_request :
  let s := System.run os_delivers
             (first_request
                ++ ActStart repo npm npm_start (SpawnReturns (Some 200%N))
                     :: deliveries second_request_events) initial in
  registry s
  = [(repo, {| ProcessInfo.pid := 200; ProcessInfo.command := str "npm start" |})] /\
  trace (the_world s)
  = [EExeca npm npm_start repo true;
     EKill 100 SIGTERM None;
     EExeca npm npm_start repo true].
Proof. vm_compute. auto. Qed.

(** * Further properties of [process/manager.ts] *)

(** X1. Terminating the same key a second time is a no-op: the second call
    completes normally, sends no signal and leaves the world as the first
    call left it, whatever the operating system would answer. *)
Theorem terminate_again_is_noop
  (os os' : kill_oracle) (k : jsstring) (w : world) :
  terminateTrackedProcess os' k (snd (terminateTrackedProcess os k w))
  = (Normal tt, snd (terminateTrackedProcess os k w)).
Proof.
  rewrite (terminate_unfold os' k).
  rewrite terminate_registry, get_delete_same. reflexivity.
Qed.

Lemma keys_delete (V : Type) (k : jsstring) (mp : JsMap.jsmap V) :
  JsMap.keys (JsMap.delete k mp)
  = filter (fun k' => negb (JsString.eqb k k')) (JsMap.keys mp).
Proof.
  induction mp as [|[k0 v0] mp IH]; simpl; [reflexivity|].
  destruct (JsString.eqb k k0); simpl; congruence.
Qed.

(** X2. Terminating the key [k] leaves every other workspace alone: the
    record of any other key is unchanged, and the remaining keys keep their
    insertion order. *)
Theorem terminate_spares_other_keys
  (os : kill_oracle) (k : jsstring) (w : world) :
  (forall k', k' <> k ->
     JsMap.get k' (runningProcesses (snd (terminateTrackedProcess os k w)))
     = JsMap.get k' (runningProcesses w)) /\
  JsMap.keys (runningProcesses (snd (terminateTrackedProcess os k w)))
  = filter (fun k' => negb (JsString.eqb k k')) (JsMap.keys (runningProcesses w)).
Proof.
  rewrite terminate_registry. split.
  - intros k' Hne. now apply get_delete_other.
  - apply keys_delete.
Qed.

Lemma settled_run_registry evs d w :
  settled d ->
  runningProcesses (snd (Detached.run evs (d, w))) = runningProcesses w.
Proof.
  intros H. revert w. induction evs as [|ev evs IH]; intros w; [reflexivity|].
  rewrite run_cons.
  pose proof (settled_deliver_fst ev w H) as Hd.
  pose proof (settled_deliver_registry ev w H) as Hw.
  destruct (deliver ev (d, w)) as [d1 w1]. cbn [fst snd] in *. subst d1.
  now rewrite IH.
Qed.

(** X3. A long-running request whose spawn fails ([execa] throws, or the
    child has no pid) still terminates and unregisters the previous occupant
    of the key before it fails. It resolves at once with [success = false]
    and the error "Failed to start detached process: ...", and registers
    nothing. No later event changes the closure or the registry, and none
    but an 'error' event changes the world at all. The 'error' event of a
    child without pid, which Node emits for a child that could not be
    spawned, finds the listeners removed and is thrown as an uncaught
    exception; when [execa] itself threw there is no child, and the event
    does nothing. *)
Theorem failed_spawn_still_retires_occupant
  (os : kill_oracle) (k c : jsstring) (a : list jsstring) (ans : spawn_outcome)
  (w : world) :
  (forall p, ans <> SpawnReturns (Some p)) ->
  exists d0 r,
    executeCommand_detached os k c a ans w
    = (Normal d0,
       emit (EExeca c a k true) (snd (terminateTrackedProcess os k w))) /\
    resolved d0 = [r] /\
    ToolResult.success r = false /\
    ToolResult.pid r = None /\
    ToolResult.error r
    = Some (str "Failed to start detached process: " ++ setup_error_message ans) /\
    JsMap.get k
      (runningProcesses
         (emit (EExeca c a k true) (snd (terminateTrackedProcess os k w))))
    = None /\
    (forall evs w',
       fst (Detached.run evs (d0, w')) = d0 /\
       runningProcesses (snd (Detached.run evs (d0, w'))) = runningProcesses w') /\
    (forall ev w', (forall e, ev <> EvError e) -> deliver ev (d0, w') = (d0, w')) /\
    (forall e w',
       deliver (EvError e) (d0, w')
       = (d0, match ans with
              | SpawnReturns None => emit (EUncaught e) w'
              | _ => w'
              end)).
Proof.
  intros Hno. rewrite executeCommand_detached_unfold.
  set (w1 := snd (terminateTrackedProcess os k w)).
  assert (Hk : JsMap.get k (runningProcesses (emit (EExeca c a k true) w1)) = None).
  { unfold w1. cbn [emit runningProcesses].
    rewrite terminate_registry. apply get_delete_same. }
  destruct ans as [e0|[p|]]; [|now elim (Hno p)|].
  - eexists; eexists. split; [reflexivity|].
    repeat (split; [reflexivity || exact Hk|]).
    split; [|split].
    + intros evs w'.
      assert (Hs : settled (setup_failed (message e0)
                              (Detached.init k (command_line c a))))
        by (unfold settled; cbn; repeat split; auto; discriminate).
      split; [now apply settled_run_fst | now apply settled_run_registry].
    + intros [x|x|cd sg|e|] w' Hne; reflexivity.
    + intros e w'. reflexivity.
  - eexists; eexists. split; [reflexivity|].
    repeat (split; [reflexivity || exact Hk|]).
    split; [|split].
    + intros evs w'.
      match goal with
      | |- fst (Detached.run _ (?d, _)) = _ /\ _ =>
          assert (Hs : settled d)
            by (unfold settled; cbn; repeat split; auto; discriminate)
      end.
      split; [now apply settled_run_fst | now apply settled_run_registry].
    + intros [x|x|cd sg|e|] w' Hne; try reflexivity. now elim (Hne e).
    + intros e w'. reflexivity.
Qed.

Lemma timer_run
  (os : kill_oracle) (k c : jsstring) (a : list jsstring) (p : N) (w : world)
  (pre : list event) :
  forallb is_data pre = true ->
  exists d0 w0 r,
    executeCommand_detached os k c a (SpawnReturns (Some p)) w = (Normal d0, w0) /\
    resolved (fst (Detached.run (pre ++ [EvTimer]) (d0, w0))) = [r] /\
    ToolResult.success r
    = (is_match (js_match (combined_text (stdout_of pre) (stderr_of pre)) successRegex)
       || is_match (js_match (combined_text (stdout_of pre) (stderr_of pre)) portRegex)) /\
    snd (Detached.run (pre ++ [EvTimer]) (d0, w0))
    = {| runningProcesses :=
           if ToolResult.success r
           then JsMap.set k {| ProcessInfo.pid := p;
                               ProcessInfo.command := command_line c a |}
                  (runningProcesses w0)
           else runningProcesses w0;
         trace := trace w0 |}.
Proof.
  intros Hpre.
  rewrite executeCommand_detached_unfold, spawn_detached_pid.
  set (w0 := emit _ _). set (d0 := spawned k (command_line c a) p).
  assert (Hpend : pending (after_data pre d0))
    by (apply after_data_pending, spawned_pending).
  destruct (deliver_timer_pending w0 Hpend
              (eq_refl : pid (after_data pre d0) = Some p)) as (Hres & _ & Hw).
  exists d0, w0, (timer_result p (after_data pre d0)).
  split; [reflexivity|].
  rewrite run_app, (@run_data p) by auto. cbn [Detached.run fold_left].
  split; [exact Hres|].
  assert (Hs : startup_detected (after_data pre d0)
               = (is_match (js_match (combined_text (stdout_of pre) (stderr_of pre))
                              successRegex)
                  || is_match (js_match (combined_text (stdout_of pre) (stderr_of pre))
                                 portRegex))).
  { unfold startup_detected, port_in. rewrite port_truthy_iff_match. reflexivity. }
  split; [exact Hs|].
  rewrite Hw. cbn [timer_result ToolResult.success].
  destruct (startup_detected (after_data pre d0)); destruct w0; reflexivity.
Qed.

(** X4. The verdict of the timeout callback. When only output arrived
    before the timer, the result has [success = true] exactly when
    [successRegex] or [portRegex] matches the combined output. On success
    the record of the child overwrites whatever stood under the key; on
    failure the registry is untouched. Either way no signal is sent: an
    unrecognized child is left running, untracked. *)
Theorem timer_verdict
  (os : kill_oracle) (k c : jsstring) (a : list jsstring) (p : N) (w : world)
  (pre : list event) :
  forallb is_data pre = true ->
  exists d0 w0 r,
    executeCommand_detached os k c a (SpawnReturns (Some p)) w = (Normal d0, w0) /\
    resolved (fst (Detached.run (pre ++ [EvTimer]) (d0, w0))) = [r] /\
    ToolResult.success r
    = (is_match (js_match (combined_text (stdout_of pre) (stderr_of pre)) successRegex)
       || is_match (js_match (combined_text (stdout_of pre) (stderr_of pre)) portRegex)) /\
    snd (Detached.run (pre ++ [EvTimer]) (d0, w0))
    = {| runningProcesses :=
           if ToolResult.success r
           then JsMap.set k {| ProcessInfo.pid := p;
                               ProcessInfo.command := command_line c a |}
                  (runningProcesses w0)
           else runningProcesses w0;
         trace := trace w0 |}.
Proof. exact (timer_run os k c a p w pre). Qed.

Lemma detached_start_resolves_exactly_once_aux
  (os : kill_oracle) (k c : jsstring) (a : list jsstring) (p : N) (w : world)
  (pre : list event) (ev : event) (post : list event) :
  forallb is_data pre = true -> is_resolving ev = true ->
  exists d0 w0,
    executeCommand_detached os k c a (SpawnReturns (Some p)) w = (Normal d0, w0) /\
    Detached.run (pre ++ ev :: post) (d0, w0)
    = Detached.run (pre ++ [ev]) (d0, w0).
Proof.
  intros Hpre Hev.
  rewrite executeCommand_detached_unfold, spawn_detached_pid.
  set (w0 := emit _ _). set (d0 := spawned k (command_line c a) p).
  exists d0, w0. split; [reflexivity|].
  assert (Hpend : pending (after_data pre d0))
    by (apply after_data_pending, spawned_pending).
  destruct (deliver_resolving_pending ev w0 Hpend
              (eq_refl : pid (after_data pre d0) = Some p) Hev) as (_ & Hset).
  change (ev :: post) with ([ev] ++ post).
  rewrite app_assoc, (run_app (pre ++ [ev]) post).
  rewrite run_app, (@run_data p) by auto. cbn [Detached.run fold_left].
  pose proof (deliver_pid ev (after_data pre d0) w0) as Hp1.
  destruct (deliver ev (after_data pre d0, w0)) as [d1 w2].
  cbn [fst] in Hp1, Hset. apply settled_run; [exact Hset|].
  rewrite Hp1. discriminate.
Qed.

(** X5. Once a start is confirmed, the registry keeps the record of the
    child through every later event of that child, its exit included (the
    listeners are gone); the record stays until the key is terminated, and
    [terminateTrackedProcess] then sends its one [SIGTERM] to that pid. *)
Theorem confirmed_record_stays_until_terminated
  (os os' : kill_oracle) (k c : jsstring) (a : list jsstring) (p : N)
  (w : world) (pre post : list event) :
  forallb is_data pre = true ->
  is_match (js_match (combined_text (stdout_of pre) (stderr_of pre)) successRegex)
  || is_match (js_match (combined_text (stdout_of pre) (stderr_of pre)) portRegex)
  = true ->
  exists d0 w0,
    executeCommand_detached os k c a (SpawnReturns (Some p)) w = (Normal d0, w0) /\
    JsMap.get k
      (runningProcesses (snd (Detached.run (pre ++ EvTimer :: post) (d0, w0))))
    = Some {| ProcessInfo.pid := p; ProcessInfo.command := command_line c a |} /\
    terminateTrackedProcess os' k
      (snd (Detached.run (pre ++ EvTimer :: post) (d0, w0)))
    = (Normal tt,
       {| runningProcesses := JsMap.delete k (runningProcesses w0);
          trace := trace w0 ++ [EKill p SIGTERM (os' (length (trace w0)) p)] |}).
Proof.
  intros Hpre Hok.
  destruct (timer_run os k c a p w pre Hpre)
    as (d0 & w0 & r & Hstart & Hres & Hs & Hw).
  exists d0, w0. split; [exact Hstart|].
  assert (Hpost : Detached.run (pre ++ EvTimer :: post) (d0, w0)
                  = Detached.run (pre ++ [EvTimer]) (d0, w0)).
  { destruct (detached_start_resolves_exactly_once_aux os k c a p w pre EvTimer post
                Hpre eq_refl) as (d1 & w1 & Hstart' & H).
    rewrite Hstart in Hstart'. inversion Hstart'; subst. exact H. }
  rewrite Hpost, Hw. rewrite Hs, Hok.
  assert (Hget : JsMap.get k
            (JsMap.set k {| ProcessInfo.pid := p;
                            ProcessInfo.command := command_line c a |}
               (runningProcesses w0))
          = Some {| ProcessInfo.pid := p; ProcessInfo.command := command_line c a |})
    by apply get_set_same.
  split; [exact Hget|].
  rewrite terminate_unfold. cbn [runningProcesses trace]. rewrite Hget.
  cbn [ProcessInfo.pid]. unfold with_registry, emit.
  cbn [runningProcesses trace]. f_equal. f_equal.
  clear. induction (runningProcesses w0) as [|[k0 v0] mp IH]; simpl.
  - now rewrite jsstring_eqb_refl.
  - destruct (JsString.eqb k k0) eqn:E; simpl; rewrite E; [reflexivity|].
    now rewrite IH.
Qed.

Lemma executeCommand_normal_returns k c a t ans w :
  exists r, fst (executeCommand_normal k c a t ans w) = Normal r.
Proof.
  unfold executeCommand_normal. destruct ans as [x|msg out err].
  - destruct (_ && _); [eexists; reflexivity|].
    destruct (or_false _); eexists; reflexivity.
  - eexists; reflexivity.
Qed.

Lemma executeCommand_modes
  (os : kill_oracle) (k c : jsstring) (a : list jsstring)
  (timeoutOverride : option Z) (ans : execa_answer) (w : world) :
  (exists r,
     executeCommand os k c a false timeoutOverride ans w
     = (Normal (Finished r),
        {| runningProcesses := runningProcesses w;
           trace := trace w ++ [EExeca c a k false] |})) /\
  (exists d,
     executeCommand os k c a true timeoutOverride ans w
     = (Normal (Pending d),
        {| runningProcesses := JsMap.delete k (runningProcesses w);
           trace := trace (snd (terminateTrackedProcess os k w))
                      ++ [EExeca c a k true] |})).
Proof.
  split.
  - unfold executeCommand, bind, ret.
    pose proof (executeCommand_normal_world k c a timeoutOverride (to_normal ans) w)
      as Hw.
    destruct (executeCommand_normal_returns k c a timeoutOverride (to_normal ans) w)
      as (r & Hr).
    destruct (executeCommand_normal k c a timeoutOverride (to_normal ans) w)
      as [cr w1]. cbn [fst snd] in *. subst. eexists. reflexivity.
  - unfold executeCommand, bind, ret.
    rewrite executeCommand_detached_unfold.
    destruct (spawn_detached_consistent k c a (to_detached ans)
                (snd (terminateTrackedProcess os k w))) as (d0 & Hd & Hw & _).
    destruct (spawn_detached k c a (to_detached ans) _) as [cd w1].
    cbn [fst snd] in *. subst. exists d0. f_equal.
    unfold emit. cbn [runningProcesses]. now rewrite terminate_registry.
Qed.

(** X6. [executeCommand] makes exactly one [execa] request in either mode,
    and only the long-running mode touches the registry: a command that is
    not long-running leaves the tracked process of its workspace registered
    and sends no signal, whereas a long-running one first terminates
    whatever was tracked for the key. *)
Theorem only_long_running_requests_retire
  (os : kill_oracle) (k c : jsstring) (a : list jsstring)
  (timeoutOverride : option Z) (ans : execa_answer) (w : world) :
  (exists r,
     executeCommand os k c a false timeoutOverride ans w
     = (Normal (Finished r),
        {| runningProcesses := runningProcesses w;
           trace := trace w ++ [EExeca c a k false] |})) /\
  (exists d,
     executeCommand os k c a true timeoutOverride ans w
     = (Normal (Pending d),
        {| runningProcesses := JsMap.delete k (runningProcesses w);
           trace := trace (snd (terminateTrackedProcess os k w))
                      ++ [EExeca c a k true] |})).
Proof. exact (executeCommand_modes os k c a timeoutOverride ans w). Qed.

(** X7. A command that is not long-running reports, for each stream, the
    most recent part of what [execa] captured: the whole stream when it has
    at most 2000 units, its last 2000 units otherwise; the exit code and the
    signal are passed on unchanged. *)
Theorem short_command_reports_recent_output
  (k c : jsstring) (a : list jsstring) (timeoutOverride : option Z)
  (x : ExecaResult.t) (w : world) :
  exists r out err,
    fst (executeCommand_normal k c a timeoutOverride (ExecaReturns x) w)
    = Normal r /\
    ToolResult.stdout r = Some out /\
    ToolResult.stderr r = Some err /\
    (exists dropped, ExecaResult.stdout x = dropped ++ out) /\
    (exists dropped, ExecaResult.stderr x = dropped ++ err) /\
    length out = Nat.min (length (ExecaResult.stdout x)) 2000 /\
    length err = Nat.min (length (ExecaResult.stderr x)) 2000 /\
    ToolResult.exitCode r = ExecaResult.exitCode x /\
    ToolResult.signal r = ExecaResult.signal x.
Proof.
  assert (Hlen : forall s, length (tail_half s) = Nat.min (length s) 2000)
    by (intros s; rewrite tail_half_unfold, length_skipn; lia).
  assert (Hsuf : forall s, exists dropped, s = dropped ++ tail_half s)
    by (intros s; eexists; symmetry; apply tail_half_suffix).
  exists (match fst (executeCommand_normal k c a timeoutOverride (ExecaReturns x) w) with
          | Normal r => r
          | Throw _ =>
              {| ToolResult.success := false; ToolResult.stdout := None;
                 ToolResult.stderr := None; ToolResult.exitCode := None;
                 ToolResult.timedOut := None; ToolResult.signal := None;
                 ToolResult.pid := None; ToolResult.isRunningDetached := None;
                 ToolResult.detectedPort := None; ToolResult.notes := None;
                 ToolResult.error := None |}
          end),
    (tail_half (ExecaResult.stdout x)), (tail_half (ExecaResult.stderr x)).
  unfold executeCommand_normal.
  destruct (_ && _); [|destruct (or_false _)]; cbn;
    repeat split; auto.
Qed.

(** X8. A success phrase confirms the start wherever it stands and however
    it is capitalized: when either stream holds one of the six phrases of
    [successRegex] in any letter case, with any text around it, the timer
    resolves with [success = true] and registers the child. *)
Theorem success_phrase_confirms_in_any_case
  (os : kill_oracle) (k c : jsstring) (a : list jsstring) (p : N) (w : world)
  (pre : list event) (ph v : jsstring) :
  forallb is_data pre = true ->
  In ph success_phrases -> ci_eq ph v = true ->
  (exists x y, stdout_of pre = x ++ v ++ y) \/
  (exists x y, stderr_of pre = x ++ v ++ y) ->
  exists d0 w0 r,
    executeCommand_detached os k c a (SpawnReturns (Some p)) w = (Normal d0, w0) /\
    resolved (fst (Detached.run (pre ++ [EvTimer]) (d0, w0))) = [r] /\
    ToolResult.success r = true /\
    ToolResult.pid r = Some p /\
    JsMap.get k (runningProcesses (snd (Detached.run (pre ++ [EvTimer]) (d0, w0))))
    = Some {| ProcessInfo.pid := p; ProcessInfo.command := command_line c a |}.
Proof.
  intros Hpre Hin Hv Hheld.
  rewrite executeCommand_detached_unfold, spawn_detached_pid.
  set (w0 := emit _ _). set (d0 := spawned k (command_line c a) p).
  destruct (timer_run_result k (command_line c a) p w0 pre Hpre) as (Hres & Hw).
  fold d0 in Hres, Hw.
  assert (Hok : startup_detected (after_data pre d0) = true).
  { unfold startup_detected.
    change (combinedOutput (after_data pre d0))
      with (combined_text (stdout_of pre) (stderr_of pre)).
    destruct (@combined_text_holds (stdout_of pre) (stderr_of pre) v Hheld)
      as (x & y & ->).
    unfold js_match. rewrite exec_from_finds; [reflexivity|].
    now apply (@success_here ph v y). }
  exists d0, w0, (timer_result p (after_data pre d0)).
  split; [reflexivity|]. split; [exact Hres|].
  split; [exact Hok|]. split; [reflexivity|].
  rewrite Hw, Hok. cbn [with_registry runningProcesses]. apply get_set_same.
Qed.

(** X9. An address with a port of at least four digits confirms the start:
    when either stream holds [localhost:], [127.0.0.1:], [0.0.0.0:] or
    [on port ] (in any letter case) directly followed by four or more
    digits, the timer resolves with [success = true] and some detected port
    of four or five digits (the leftmost one in the combined output), and
    registers the child. *)
Theorem address_with_port_confirms
  (os : kill_oracle) (k c : jsstring) (a : list jsstring) (p : N) (w : world)
  (pre : list event) (pfx v ds : jsstring) :
  forallb is_data pre = true ->
  In pfx port_prefixes -> ci_eq pfx v = true ->
  forallb is_digit ds = true -> 4 <= length ds ->
  (exists x y, stdout_of pre = x ++ (v ++ ds) ++ y) \/
  (exists x y, stderr_of pre = x ++ (v ++ ds) ++ y) ->
  exists d0 w0 r q,
    executeCommand_detached os k c a (SpawnReturns (Some p)) w = (Normal d0, w0) /\
    resolved (fst (Detached.run (pre ++ [EvTimer]) (d0, w0))) = [r] /\
    ToolResult.success r = true /\
    ToolResult.detectedPort r = Some q /\
    forallb is_digit q = true /\ (length q = 4 \/ length q = 5) /\
    JsMap.get k (runningProcesses (snd (Detached.run (pre ++ [EvTimer]) (d0, w0))))
    = Some {| ProcessInfo.pid := p; ProcessInfo.command := command_line c a |}.
Proof.
  intros Hpre Hin Hv Hd Hl Hheld.
  rewrite executeCommand_detached_unfold, spawn_detached_pid.
  set (w0 := emit _ _). set (d0 := spawned k (command_line c a) p).
  destruct (timer_run_result k (command_line c a) p w0 pre Hpre) as (Hres & Hw).
  fold d0 in Hres, Hw.
  assert (Hm : is_match (js_match (combinedOutput (after_data pre d0)) portRegex)
               = true).
  { change (combinedOutput (after_data pre d0))
      with (combined_text (stdout_of pre) (stderr_of pre)).
    destruct (@combined_text_holds (stdout_of pre) (stderr_of pre) (v ++ ds) Hheld)
      as (x & y & ->).
    unfold js_match. rewrite <- (app_assoc v ds y).
    rewrite exec_from_finds; [reflexivity|].
    now apply (@port_here pfx v ds y). }
  assert (Ht : truthy (port_in (after_data pre d0)) = true)
    by (unfold port_in; now rewrite port_truthy_iff_match).
  destruct (port_in (after_data pre d0)) as [q|] eqn:Eq; [|discriminate].
  assert (Hok : startup_detected (after_data pre d0) = true)
    by (unfold startup_detected; rewrite Eq, Ht; apply orb_true_r).
  destruct (port_of_digits _ Eq) as (Hq1 & Hq2 & _).
  exists d0, w0, (timer_result p (after_data pre d0)), q.
  split; [reflexivity|]. split; [exact Hres|].
  split; [exact Hok|]. split; [exact Eq|].
  split; [exact Hq1|]. split; [exact Hq2|].
  rewrite Hw, Hok. cbn [with_registry runningProcesses]. apply get_set_same.
Qed.

(** ** Concrete runs of the further properties *)

(** The child could not be spawned (it has no pid) while pid 100 is tracked
    for [repo]: pid 100 is signalled and unregistered all the same, and the
    'error' event of the child is thrown as an uncaught exception. *)
Lemma failed_spawn_run :
  (forall p, SpawnReturns None <> SpawnReturns (Some p)) /\
  exists d0 r,
    executeCommand_detached os_refuses repo npm npm_start (SpawnReturns None)
      two_tracked
    = (Normal d0,
       emit (EExeca npm npm_start repo true)
         (snd (terminateTrackedProcess os_refuses repo two_tracked))) /\
    resolved d0 = [r] /\
    ToolResult.success r = false /\
    ToolResult.pid r = None /\
    ToolResult.error r
    = Some (str "Failed to start detached process: "
              ++ setup_error_message (SpawnReturns None)) /\
    JsMap.get repo
      (runningProcesses
         (emit (EExeca npm npm_start repo true)
            (snd (terminateTrackedProcess os_refuses repo two_tracked))))
    = None /\
    (forall evs w',
       fst (Detached.run evs (d0, w')) = d0 /\
       runningProcesses (snd (Detached.run evs (d0, w'))) = runningProcesses w') /\
    (forall ev w', (forall e, ev <> EvError e) -> deliver ev (d0, w') = (d0, w')) /\
    (forall e w', deliver (EvError e) (d0, w') = (d0, emit (EUncaught e) w')).
Proof.
  assert (H : forall p, SpawnReturns None <> SpawnReturns (Some p))
    by (intros p; discriminate).
  split; [exact H|].
  exact (@failed_spawn_still_retires_occupant os_refuses repo npm npm_start
           (SpawnReturns None) two_tracked H).
Defined.

(** A child that prints nothing recognizable: unconfirmed, untracked and
    unsignalled. *)
Lemma quiet_start_run :
  forallb is_data quiet_start = true /\
  exists d0 w0 r,
    executeCommand_detached os_delivers repo npm npm_start
      (SpawnReturns (Some 4242%N)) idle_world = (Normal d0, w0) /\
    resolved (fst (Detached.run (quiet_start ++ [EvTimer]) (d0, w0))) = [r] /\
    ToolResult.success r
    = (is_match (js_match (combined_text (stdout_of quiet_start)
                             (stderr_of quiet_start)) successRegex)
       || is_match (js_match (combined_text (stdout_of quiet_start)
                                (stderr_of quiet_start)) portRegex)) /\
    snd (Detached.run (quiet_start ++ [EvTimer]) (d0, w0))
    = {| runningProcesses :=
           if ToolResult.success r
           then JsMap.set repo
                  {| ProcessInfo.pid := 4242;
                     ProcessInfo.command := command_line npm npm_start |}
                  (runningProcesses w0)
           else runningProcesses w0;
         trace := trace w0 |}.
Proof.
  split; [reflexivity|].
  exact (@timer_verdict os_delivers repo npm npm_start 4242%N idle_world
           quiet_start eq_refl).
Defined.

(** The confirmed child of [chatty_start] exits; its record stays, and the
    next termination of the key signals pid 4242. *)
Lemma confirmed_then_exit_run :
  forallb is_data chatty_start = true /\
  JsMap.get repo
    (runningProcesses
       (snd (Detached.run
               (chatty_start ++ EvTimer :: [EvExit (Some 0%Z) None])
               (spawned repo (command_line npm npm_start) 4242%N,
                emit (EExeca npm npm_start repo true) idle_world))))
  = Some {| ProcessInfo.pid := 4242;
            ProcessInfo.command := command_line npm npm_start |}.
Proof.
  split; [reflexivity|].
  destruct (@confirmed_record_stays_until_terminated os_delivers os_refuses
              repo npm npm_start 4242%N idle_world chatty_start
              [EvExit (Some 0%Z) None] eq_refl eq_refl)
    as (d0 & w0 & Hstart & Hget & _).
  rewrite executeCommand_detached_unfold, spawn_detached_pid in Hstart.
  inversion Hstart; subst d0 w0. exact Hget.
Defined.

Lemma shouting_start_run :
  forallb is_data shouting_start = true /\
  In (str "compiled successfully") success_phrases /\
  ci_eq (str "compiled successfully") (str "COMPILED Successfully") = true /\
  exists d0 w0 r,
    executeCommand_detached os_delivers repo npm npm_start
      (SpawnReturns (Some 4242%N)) idle_world = (Normal d0, w0) /\
    resolved (fst (Detached.run (shouting_start ++ [EvTimer]) (d0, w0))) = [r] /\
    ToolResult.success r = true /\
    ToolResult.pid r = Some 4242%N /\
    JsMap.get repo
      (runningProcesses (snd (Detached.run (shouting_start ++ [EvTimer]) (d0, w0))))
    = Some {| ProcessInfo.pid := 4242;
              ProcessInfo.command := command_line npm npm_start |}.
Proof.
  assert (H1 : In (str "compiled successfully") success_phrases)
    by (left; reflexivity).
  split; [reflexivity|]. split; [exact H1|]. split; [reflexivity|].
  refine (@success_phrase_confirms_in_any_case os_delivers repo npm npm_start
            4242%N idle_world shouting_start (str "compiled successfully")
            (str "COMPILED Successfully") eq_refl H1 eq_refl _).
  right. exists (str "webpack: "), (str " in 3s"). reflexivity.
Defined.

Lemma address_start_run :
  forallb is_data address_start = true /\
  In (str "localhost:") port_prefixes /\
  ci_eq (str "localhost:") (str "LocalHost:") = true /\
  exists d0 w0 r q,
    executeCommand_detached os_delivers repo npm npm_start
      (SpawnReturns (Some 4242%N)) idle_world = (Normal d0, w0) /\
    resolved (fst (Detached.run (address_start ++ [EvTimer]) (d0, w0))) = [r] /\
    ToolResult.success r = true /\
    ToolResult.detectedPort r = Some q /\
    forallb is_digit q = true /\ (length q = 4 \/ length q = 5) /\
    JsMap.get repo
      (runningProcesses (snd (Detached.run (address_start ++ [EvTimer]) (d0, w0))))
    = Some {| ProcessInfo.pid := 4242;
              ProcessInfo.command := command_line npm npm_start |}.
Proof.
  assert (H1 : In (str "localhost:") port_prefixes) by (left; reflexivity).
  split; [reflexivity|]. split; [exact H1|]. split; [reflexivity|].
  refine (@address_with_port_confirms os_delivers repo npm npm_start
            4242%N idle_world address_start (str "localhost:")
            (str "LocalHost:") (str "30001") eq_refl H1 eq_refl eq_refl _ _).
  - simpl. lia.
  - left. exists (str "  Local:   http://"), (str "/"). reflexivity.
Defined.

(** * [utils/fsUtils.ts]: [cleanupRepo] *)

Lemma rm_loop_requests rm k left log :
  exists errs last,
    FsUtils.rm_loop rm k (S left) log
    = (match last with
       | None => Normal tt
       | Some e => Throw e
       end, log ++ rm_requests k errs last) /\
    length errs <= left /\
    (last = None \/ length errs = left).
Proof.
  revert log. induction left as [|left IH]; intros log.
  - cbn [FsUtils.rm_loop].
    destruct (rm (length log) k) as [e|].
    + exists [], (Some e). cbn. auto.
    + exists [], None. cbn. auto.
  - change (FsUtils.rm_loop rm k (S (S left)) log)
      with (match rm (length log) k with
            | None => (Normal tt, log ++ [FsUtils.FsRm k (rm (length log) k)])
            | Some rmError =>
                FsUtils.rm_loop rm k (S left)
                  ((log ++ [FsUtils.FsRm k (rm (length log) k)])
                     ++ [FsUtils.FsDelay FsUtils.delay])
            end).
    destruct (rm (length log) k) as [e|] eqn:E.
    + destruct (IH ((log ++ [FsUtils.FsRm k (Some e)])
                      ++ [FsUtils.FsDelay FsUtils.delay]))
        as (errs & last & Hrun & Hlen & Hlast).
      exists (e :: errs), last. rewrite Hrun. split; [|split].
      * f_equal. unfold rm_requests. cbn [flat_map].
        rewrite <- !app_assoc. reflexivity.
      * simpl. lia.
      * destruct Hlast as [->|Hl]; [now left | right; simpl; lia].
    + exists [], None. cbn. split; [reflexivity|]. split; [lia | now left].
Qed.

(** X10. [cleanupRepo] never throws, does nothing at all for an empty path,
    and for any other path leaves the registry exactly as
    [terminateTrackedProcess] leaves it (no entry for the path), whether or
    not the directory could be removed. *)
Theorem cleanupRepo_never_throws_and_unregisters
  (os : kill_oracle) (rm : FsUtils.rm_oracle) (st : FsUtils.state)
  (c : N) (k : jsstring) :
  FsUtils.cleanupRepo os rm [] st = (Normal tt, st) /\
  fst (FsUtils.cleanupRepo os rm (c :: k) st) = Normal tt /\
  FsUtils.procs (snd (FsUtils.cleanupRepo os rm (c :: k) st))
  = snd (terminateTrackedProcess os (c :: k) (FsUtils.procs st)) /\
  JsMap.get (c :: k)
    (runningProcesses (FsUtils.procs (snd (FsUtils.cleanupRepo os rm (c :: k) st))))
  = None.
Proof.
  split; [reflexivity|].
  assert (H : fst (FsUtils.cleanupRepo os rm (c :: k) st) = Normal tt /\
              FsUtils.procs (snd (FsUtils.cleanupRepo os rm (c :: k) st))
              = snd (terminateTrackedProcess os (c :: k) (FsUtils.procs st))).
  { unfold FsUtils.cleanupRepo.
    pose proof (terminate_normal os (c :: k) (FsUtils.procs st)) as Hn.
    destruct (terminateTrackedProcess os (c :: k) (FsUtils.procs st)) as [cr w1].
    cbn [fst snd] in *. subst cr.
    destruct (FsUtils.rm_loop rm (c :: k) FsUtils.maxAttempts (FsUtils.fs_log st)).
    split; reflexivity. }
  destruct H as (H1 & H2). split; [exact H1|]. split; [exact H2|].
  rewrite H2, terminate_registry. apply get_delete_same.
Qed.

(** X11. For a non-empty path [cleanupRepo] asks [fs.rm] at most three
    times: it stops at the first attempt that does not throw, gives up after
    the third failure, and waits 1000 ms after each failed attempt that is
    not the last. *)
Theorem cleanupRepo_tries_rm_at_most_three_times
  (os : kill_oracle) (rm : FsUtils.rm_oracle) (st : FsUtils.state)
  (c : N) (k : jsstring) :
  exists errs last,
    FsUtils.fs_log (snd (FsUtils.cleanupRepo os rm (c :: k) st))
    = FsUtils.fs_log st ++ rm_requests (c :: k) errs last /\
    length errs <= 2 /\
    (last = None \/ length errs = 2).
Proof.
  unfold FsUtils.cleanupRepo.
  pose proof (terminate_normal os (c :: k) (FsUtils.procs st)) as Hn.
  destruct (terminateTrackedProcess os (c :: k) (FsUtils.procs st)) as [cr w1].
  cbn [fst] in Hn. subst cr.
  destruct (rm_loop_requests rm (c :: k) 2 (FsUtils.fs_log st))
    as (errs & last & Hrun & Hlen & Hlast).
  change FsUtils.maxAttempts with 3. rewrite Hrun.
  exists errs, last. auto.
Qed.

(** * [utils/pathUtils.ts]: [resolveSecurePath] *)

Section PathFacts.

Import PathUtils.

Variable sep : N.

Lemma split_nonempty s : split sep s <> [].
Proof.
  destruct s as [|c s]; simpl; [discriminate|].
  destruct (N.eqb c sep); [discriminate|].
  destruct (split sep s); discriminate.
Qed.

Lemma jsstring_eqb_length a b : JsString.eqb a b = true -> length a = length b.
Proof. destruct (jsstring_eqb_spec a b); [congruence | discriminate]. Qed.

Lemma endsWith_cons c s q :
  endsWith (c :: s) q = JsString.eqb (c :: s) q || endsWith s q.
Proof.
  unfold endsWith.
  destruct (Nat.leb_spec (length q) (length s)) as [Hle|Hgt].
  - replace (length q <=? length (c :: s))%nat with true
      by (symmetry; apply Nat.leb_le; cbn [length]; lia).
    replace (length (c :: s) - length q) with (S (length s - length q))
      by (cbn [length]; lia).
    cbn [skipn andb].
    destruct (JsString.eqb (c :: s) q) eqn:E; [|reflexivity].
    apply jsstring_eqb_length in E. cbn [length] in E; lia.
  - cbn [andb]. rewrite orb_false_r.
    destruct (Nat.eq_dec (length q) (S (length s))) as [Heq|Hne].
    + replace (length q <=? length (c :: s))%nat with true
        by (symmetry; apply Nat.leb_le; cbn [length]; lia).
      replace (length (c :: s) - length q) with 0 by (cbn [length]; lia).
      reflexivity.
    + replace (length q <=? length (c :: s))%nat with false
        by (symmetry; apply Nat.leb_gt; cbn [length]; lia).
      cbn [andb]. symmetry.
      destruct (JsString.eqb (c :: s) q) eqn:E; [|reflexivity].
      apply jsstring_eqb_length in E. cbn [length] in E; lia.
Qed.

(** The first segment of [s] is [G] exactly when [s] is [G] or starts with
    [G] and a separator. *)
Lemma first_segment G s :
  ~ In sep G ->
  JsString.eqb (hd [] (split sep s)) G
  = JsString.eqb s G || startsWith s (G ++ [sep]).
Proof.
  revert G. induction s as [|c s IH]; intros G Hsep.
  - destruct G; reflexivity.
  - cbn [split]. destruct (N.eqb_spec c sep) as [->|Hc].
    + cbn [hd]. destruct G as [|x G]; cbn.
      * now rewrite N.eqb_refl.
      * assert (Hx : x <> sep) by (intros ->; apply Hsep; now left).
        rewrite (proj2 (N.eqb_neq sep x)) by congruence.
        rewrite (proj2 (N.eqb_neq x sep)) by congruence. reflexivity.
    + specialize (IH (tl G)).
      destruct (split sep s) as [|seg rest] eqn:Es;
        [now elim (split_nonempty s)|].
      cbn [hd] in *. destruct G as [|x G]; cbn.
      * rewrite (proj2 (N.eqb_neq sep c)) by congruence. reflexivity.
      * cbn [tl] in IH. rewrite IH by (intros Hin; apply Hsep; now right).
        rewrite (N.eqb_sym x c).
        destruct (N.eqb c x); reflexivity.
Qed.

(** A later segment of [s] is [G] exactly when [s] holds [G] between two
    separators or ends with a separator and [G]. *)
Lemma later_segment G s :
  ~ In sep G ->
  (In G (tl (split sep s)) <->
   includes s ([sep] ++ G ++ [sep]) || endsWith s ([sep] ++ G) = true).
Proof.
  intros Hsep. induction s as [|c s IH].
  - cbn. split; [tauto | discriminate].
  - cbn [split includes]. rewrite endsWith_cons.
    cbn [app startsWith JsString.eqb].
    destruct (N.eqb_spec c sep) as [->|Hc].
    + rewrite N.eqb_refl. cbn [andb tl].
      destruct (split sep s) as [|seg rest] eqn:Es;
        [now elim (split_nonempty s)|].
      cbn [tl] in IH. cbn [In].
      pose proof (first_segment G s Hsep) as Hf. rewrite Es in Hf. cbn [hd] in Hf.
      rewrite IH.
      destruct (jsstring_eqb_spec seg G) as [->|Hne].
      * symmetry in Hf. apply orb_true_iff in Hf.
        split; [intros _|tauto].
        destruct Hf as [-> | ->]; rewrite ?orb_true_r; reflexivity.
      * symmetry in Hf. apply orb_false_iff in Hf as [-> ->].
        cbn [orb]. split; [intros [?|H]; [congruence | exact H] | tauto].
    + rewrite (proj2 (N.eqb_neq sep c)) by congruence. cbn [andb orb].
      destruct (split sep s) as [|seg rest] eqn:Es;
        [now elim (split_nonempty s)|].
      cbn [tl] in *. exact IH.
Qed.

Lemma touches_git_segments n :
  ~ In sep dotgit ->
  (touches_git sep n = true <-> In dotgit (split sep n)).
Proof.
  intros Hsep. unfold touches_git.
  pose proof (first_segment dotgit n Hsep) as Hf.
  pose proof (later_segment dotgit n Hsep) as Hl.
  destruct (split sep n) as [|seg rest] eqn:Es; [now elim (split_nonempty n)|].
  cbn [hd tl] in *. cbn [In]. rewrite <- orb_assoc, orb_true_iff, <- Hl, <- Hf.
  destruct (jsstring_eqb_spec seg dotgit); split; intros [H|H];
    auto; congruence.
Qed.

Variable normalize : jsstring -> jsstring.
Variable resolve : list jsstring -> jsstring.
Variable isAbsolute : jsstring -> bool.

(** X12. [resolveSecurePath] returns a path exactly when the normalized
    relative path neither starts with ".." nor is absolute, the resolved
    path is the root or lies under the root followed by a separator, and no
    segment of the normalized relative path is ".git"; the path it returns
    is the resolved one. A path with a ".git" segment at any depth is always
    refused, while names that merely begin with ".git" (".gitignore",
    ".github") are not refused for that reason. *)
Theorem resolveSecurePath_returns_iff
  (repoPath relativePath p : jsstring) :
  ~ In sep dotgit ->
  (resolveSecurePath normalize resolve isAbsolute sep repoPath relativePath
   = Normal p
   <->
   startsWith (normalize relativePath) (str "..") = false /\
   isAbsolute (normalize relativePath) = false /\
   p = resolve [repoPath; normalize relativePath] /\
   (p = resolve [repoPath] \/ startsWith p (resolve [repoPath] ++ [sep]) = true) /\
   ~ In dotgit (split sep (normalize relativePath))).
Proof.
  intros Hsep. unfold resolveSecurePath.
  pose proof (touches_git_segments (normalize relativePath) Hsep) as Hg.
  destruct (startsWith (normalize relativePath) (str "..")); cbn [orb];
    [split; [discriminate | intros (H & _); discriminate]|].
  destruct (isAbsolute (normalize relativePath));
    [split; [discriminate | intros (_ & H & _); discriminate]|].
  set (abs := resolve [repoPath; normalize relativePath]).
  destruct (startsWith abs (resolve [repoPath] ++ [sep])) eqn:Es; cbn [negb andb].
  - destruct (touches_git sep (normalize relativePath)).
    + split; [discriminate|]. intros (_ & _ & _ & _ & Hn). elim Hn. now apply Hg.
    + split.
      * intros H. inversion H; subst p. repeat split; auto.
        intros Hin. apply Hg in Hin. discriminate.
      * intros (_ & _ & -> & _). reflexivity.
  - destruct (jsstring_eqb_spec abs (resolve [repoPath])) as [He|Hne]; cbn [negb].
    + destruct (touches_git sep (normalize relativePath)).
      * split; [discriminate|]. intros (_ & _ & _ & _ & Hn). elim Hn. now apply Hg.
      * split.
        -- intros H. inversion H; subst p. repeat split; auto.
           intros Hin. apply Hg in Hin. discriminate.
        -- intros (_ & _ & -> & _). reflexivity.
    + split; [discriminate|].
      intros (_ & _ & -> & [H|H] & _); [contradiction | fold abs in H; congruence].
Qed.

End PathFacts.

(** * [llm/executor.ts]: [executeToolCall] *)

Section ExecutorFacts.

Import Executor.

Variable os : kill_oracle.
Variable fs : fs_oracle.
Variable path : path_module.

Ltac no_outcome :=
  let H := fresh "H" in
  let Hfo := fresh "Hfo" in
  intros H Hfo; inversion H; subst; cbn in Hfo; discriminate Hfo.

Lemma executeToolCall_replies fn arguments repo ans st :
  exists o, fst (executeToolCall os fs path fn arguments repo ans st) = Normal o.
Proof.
  unfold executeToolCall, caught.
  destruct arguments as [msg| |a]; [eexists; reflexivity| |].
  - destruct (dispatch_null fn st) as [[o|e] st']; eexists; reflexivity.
  - destruct (dispatch os fs path fn a repo ans st) as [[o|e] st'];
      eexists; reflexivity.
Qed.

(** X13. A call that is rejected early (the arguments do not parse, the
    tool is unknown, or the first required argument is missing or empty)
    has no effect at all: nothing is spawned or signalled, the registry and
    the file system are untouched, and the caller gets a failure object with
    an error message instead of an exception. *)
Theorem rejected_tool_call_has_no_effect
  (fn : jsstring) (arguments : parse_outcome) (repo : jsstring)
  (ans : execa_answer) (st : state) :
  rejected_early fn arguments = true ->
  exists msg,
    executeToolCall os fs path fn arguments repo ans st
    = (Normal (Replied (failure msg)), st).
Proof.
  unfold rejected_early, executeToolCall, caught, dispatch, dispatch_null,
    throw_error.
  destruct arguments as [msg| |a]; [intros _; eexists; reflexivity| |].
  { intros _. destruct (is_file_tool fn); [eexists; reflexivity|].
    destruct (JsString.eqb fn (str "runCommand")); [eexists; reflexivity|].
    destruct (JsString.eqb fn (str "markRunning")); [eexists; reflexivity|].
    destruct (JsString.eqb fn (str "markUnrunnable")); eexists; reflexivity. }
  destruct (is_file_tool fn).
  - destruct (filePath a) as [[|c p]|]; cbn; try discriminate;
      intros _; eexists; reflexivity.
  - destruct (JsString.eqb fn (str "runCommand")).
    + destruct (command a) as [[|c cmd]|], (args a) as [argv|]; cbn;
        try discriminate; intros _; eexists; reflexivity.
    + destruct (JsString.eqb fn (str "markRunning")).
      * destruct (deploymentUrl a) as [[|c u]|]; cbn; try discriminate;
          intros _; eexists; reflexivity.
      * destruct (JsString.eqb fn (str "markUnrunnable")).
        -- destruct (reason a) as [[|c u]|]; cbn; try discriminate;
             intros _; eexists; reflexivity.
        -- intros _; eexists; reflexivity.
Qed.

Lemma file_tool_no_outcome fn repo fp a st r :
  fst (file_tool fs path fn repo fp a st) = Normal (Replied r) ->
  finalOutcome r = None.
Proof.
  unfold file_tool, throw_error.
  destruct (secure path repo fp) as [safe|e]; [|discriminate].
  destruct (JsString.eqb fn (str "inspectFile")).
  - destruct (readFile fs _ safe); cbn [fst]; intros H; inversion H; reflexivity.
  - destruct (content a) as [data|]; [|discriminate].
    destruct (JsString.eqb fn (str "createFile")).
    + destruct (mkdir fs _ _); [discriminate|].
      destruct (writeFile fs _ safe data); cbn [fst]; intros H; inversion H;
        reflexivity.
    + destruct (writeFile fs _ safe data); cbn [fst]; intros H; inversion H;
        reflexivity.
Qed.

Lemma executeToolCall_dispatched fn a repo ans st r fo :
  fst (executeToolCall os fs path fn (Parsed a) repo ans st) = Normal (Replied r) ->
  finalOutcome r = Some fo ->
  fst (dispatch os fs path fn a repo ans st) = Normal (Replied r) /\
  snd (executeToolCall os fs path fn (Parsed a) repo ans st)
  = snd (dispatch os fs path fn a repo ans st).
Proof.
  unfold executeToolCall.
  destruct (dispatch os fs path fn a repo ans st) as [[o|e] st']; cbn [fst snd].
  - auto.
  - intros H Hfo. inversion H; subst r. discriminate.
Qed.

Lemma final_outcome_cases
  (fn : jsstring) (a : tool_args) (repo : jsstring) (ans : execa_answer)
  (st : state) (r : reply) (fo : FinalOutcome) :
  fst (executeToolCall os fs path fn (Parsed a) repo ans st) = Normal (Replied r) ->
  finalOutcome r = Some fo ->
  (fn = str "markRunning" /\
   success r = true /\
   status fo = StatusSuccess /\
   url fo = deploymentUrl a /\
   (exists text,
      outcome_notes fo
      = NotesRunning text
          (option_map ProcessInfo.pid
             (JsMap.get repo (runningProcesses (procs st))))) /\
   snd (executeToolCall os fs path fn (Parsed a) repo ans st) = st)
  \/
  (fn = str "markUnrunnable" /\
   success r = true /\
   status fo = StatusFailure /\
   url fo = None /\
   Some (match outcome_notes fo with
         | NotesReason why => why
         | NotesRunning text _ => text
         end) = reason a /\
   snd (executeToolCall os fs path fn (Parsed a) repo ans st)
   = {| procs := snd (terminateTrackedProcess os repo (procs st));
        fs_log := fs_log st |} /\
   JsMap.get repo
     (runningProcesses
        (procs (snd (executeToolCall os fs path fn (Parsed a) repo ans st))))
   = None).
Proof.
  intros H Hfo.
  destruct (@executeToolCall_dispatched fn a repo ans st r fo H Hfo) as (Hd & Hst).
  rewrite Hst. clear H Hst.
  unfold dispatch, throw_error in Hd |- *.
  destruct (is_file_tool fn).
  { destruct (filePath a) as [[|c p]|]; try discriminate.
    apply file_tool_no_outcome in Hd. congruence. }
  destruct (JsString.eqb fn (str "runCommand")).
  { destruct (command a) as [[|c cmd]|], (args a) as [argv|]; try discriminate.
    destruct (executeCommand os repo (c :: cmd) argv _ _ ans (procs st))
      as [[i|e] w]; cbn [fst] in Hd; discriminate. }
  destruct (jsstring_eqb_spec fn (str "markRunning")) as [->|Hrun].
  { destruct (deploymentUrl a) as [[|c u]|] eqn:Eu; try discriminate.
    cbn [fst snd] in *. inversion Hd; subst r.
    cbn [finalOutcome] in Hfo. inversion Hfo; subst fo.
    left. cbn [success status url outcome_notes]. repeat split; eauto. }
  destruct (jsstring_eqb_spec fn (str "markUnrunnable")) as [->|Hun].
  { destruct (reason a) as [[|c u]|] eqn:Eu; try discriminate.
    pose proof (terminate_normal os repo (procs st)) as Hn.
    pose proof (terminate_registry os repo (procs st)) as Hreg.
    destruct (terminateTrackedProcess os repo (procs st)) as [cr w1].
    cbn [fst snd] in *. subst cr. inversion Hd; subst r.
    cbn [finalOutcome] in Hfo. inversion Hfo; subst fo.
    right. cbn [success status url outcome_notes procs snd]. repeat split; auto.
    rewrite Hreg. apply get_delete_same. }
  discriminate.
Qed.

(** X14. Only [markRunning] and [markUnrunnable] end the run. Whenever the
    returned object carries a final outcome, either the tool was
    [markRunning]: the outcome is a success with the given URL, its notes name
    the pid tracked for the workspace (if any), and nothing was changed; or
    the tool was [markUnrunnable]: the outcome is a failure with a null URL
    and the reason as notes, and the tracked process of the workspace has
    been terminated and unregistered first. *)
Theorem final_outcome_comes_from_mark_tools
  (fn : jsstring) (a : tool_args) (repo : jsstring) (ans : execa_answer)
  (st : state) (r : reply) (fo : FinalOutcome) :
  fst (executeToolCall os fs path fn (Parsed a) repo ans st) = Normal (Replied r) ->
  finalOutcome r = Some fo ->
  (fn = str "markRunning" /\
   success r = true /\
   status fo = StatusSuccess /\
   url fo = deploymentUrl a /\
   (exists text,
      outcome_notes fo
      = NotesRunning text
          (option_map ProcessInfo.pid
             (JsMap.get repo (runningProcesses (procs st))))) /\
   snd (executeToolCall os fs path fn (Parsed a) repo ans st) = st)
  \/
  (fn = str "markUnrunnable" /\
   success r = true /\
   status fo = StatusFailure /\
   url fo = None /\
   Some (match outcome_notes fo with
         | NotesReason why => why
         | NotesRunning text _ => text
         end) = reason a /\
   snd (executeToolCall os fs path fn (Parsed a) repo ans st)
   = {| procs := snd (terminateTrackedProcess os repo (procs st));
        fs_log := fs_log st |} /\
   JsMap.get repo
     (runningProcesses
        (procs (snd (executeToolCall os fs path fn (Parsed a) repo ans st))))
   = None).
Proof. apply final_outcome_cases. Qed.

Lemma file_tool_requests fn repo fp a st :
  exists delta,
    snd (file_tool fs path fn repo fp a st)
    = {| procs := procs st; fs_log := fs_log st ++ delta |} /\
    length delta <= 2 /\
    forall r, In r delta ->
              exists p, secure path repo fp = Normal p /\ targets path p r.
Proof.
  unfold file_tool, throw_error, log_fs.
  destruct (secure path repo fp) as [safe|e].
  2:{ exists []. rewrite app_nil_r. destruct st; cbn. repeat split; auto.
      intros r []. }
  assert (Hnil : exists delta : list fs_request,
             st = {| procs := procs st; fs_log := fs_log st ++ delta |} /\
             length delta <= 2 /\
             forall r, In r delta ->
                       exists p, Normal safe = Normal p /\ targets path p r).
  { exists []. rewrite app_nil_r. destruct st; cbn. repeat split; auto.
    intros r []. }
  destruct (JsString.eqb fn (str "inspectFile")).
  - exists [FsReadFile safe (readFile fs (length (fs_log st)) safe)].
    split; [destruct (readFile fs _ safe); reflexivity|].
    split; [cbn; lia|]. intros r [<-|[]]. exists safe. split; reflexivity.
  - destruct (content a) as [data|]; [|exact Hnil].
    destruct (JsString.eqb fn (str "createFile")).
    + destruct (mkdir fs (length (fs_log st)) (dirname path safe)) as [e|] eqn:Em.
      * exists [FsMkdir (dirname path safe) (Some e)]. cbn [snd procs fs_log].
        split; [reflexivity|]. split; [cbn; lia|].
        intros r [<-|[]]. exists safe. split; reflexivity.
      * cbn [procs fs_log].
        exists [FsMkdir (dirname path safe) None;
                FsWriteFile safe data
                  (writeFile fs
                     (length (fs_log st ++ [FsMkdir (dirname path safe) None]))
                     safe data)].
        split.
        -- destruct (writeFile fs _ safe data); cbn [snd];
             rewrite <- app_assoc; reflexivity.
        -- split; [cbn; lia|].
           intros r [<-|[<-|[]]]; exists safe; split; reflexivity.
    + exists [FsWriteFile safe data (writeFile fs (length (fs_log st)) safe data)].
      split; [destruct (writeFile fs _ safe data); reflexivity|].
      split; [cbn; lia|]. intros r [<-|[]]. exists safe. split; reflexivity.
Qed.

(** X15. The three file tools reach the file system only through
    [resolveSecurePath]: a call makes at most two requests, each of them a
    read or write of the very path that [resolveSecurePath] returned for the
    given [filePath], or the creation of that path's parent directory; when
    [resolveSecurePath] throws, no request is made. The process registry is
    never touched. *)
Theorem file_tools_touch_only_the_approved_path
  (fn : jsstring) (a : tool_args) (repo : jsstring) (ans : execa_answer)
  (st : state) :
  is_file_tool fn = true ->
  exists delta,
    snd (executeToolCall os fs path fn (Parsed a) repo ans st)
    = {| procs := procs st; fs_log := fs_log st ++ delta |} /\
    length delta <= 2 /\
    forall r, In r delta ->
              exists fp p, filePath a = Some fp /\
                           secure path repo fp = Normal p /\
                           targets path p r.
Proof.
  intros Hfile. unfold executeToolCall, dispatch, throw_error. rewrite Hfile.
  assert (Hnil : exists delta : list fs_request,
             st = {| procs := procs st; fs_log := fs_log st ++ delta |} /\
             length delta <= 2 /\
             forall r, In r delta ->
                       exists fp p, filePath a = Some fp /\
                                    secure path repo fp = Normal p /\
                                    targets path p r).
  { exists []. rewrite app_nil_r. destruct st; cbn. repeat split; auto.
    intros r []. }
  destruct (filePath a) as [[|c p]|] eqn:Ef; [exact Hnil| |exact Hnil].
  destruct (file_tool_requests fn repo (c :: p) a st) as (delta & Hs & Hl & Ht).
  exists delta.
  destruct (file_tool fs path fn repo (c :: p) a st) as [[o|e] st'];
    cbn [snd] in *; (split; [exact Hs|]); (split; [exact Hl|]);
    intros r Hr; destruct (Ht r Hr) as (q & Hq & Htq); exists (c :: p), q; auto.
Qed.

Lemma resolveSecurePath_refuses_git repo fp :
  ~ In (sep path) PathUtils.dotgit ->
  In PathUtils.dotgit (PathUtils.split (sep path) (normalize path fp)) ->
  exists e, secure path repo fp = Throw e.
Proof.
  intros Hsep Hin. unfold secure, PathUtils.resolveSecurePath.
  apply (@touches_git_segments (sep path) (normalize path fp) Hsep) in Hin.
  rewrite Hin.
  destruct (_ || _); [eexists; reflexivity|].
  destruct (_ && _); eexists; reflexivity.
Qed.

(** X16. Every file tool refuses a [filePath] with a segment spelled
    ".git": when some segment of the normalized [filePath] is exactly that
    string, the call makes no file-system request, changes nothing, and
    returns a failure object. The check compares the strings of the path as
    given: it resolves no symbolic link and folds no case, so it says
    nothing of a path that reaches the directory under another spelling. *)
Theorem file_tools_never_reach_dot_git
  (fn : jsstring) (a : tool_args) (repo : jsstring) (ans : execa_answer)
  (st : state) (fp : jsstring) :
  is_file_tool fn = true ->
  ~ In (sep path) PathUtils.dotgit ->
  filePath a = Some fp ->
  In PathUtils.dotgit (PathUtils.split (sep path) (normalize path fp)) ->
  exists msg,
    executeToolCall os fs path fn (Parsed a) repo ans st
    = (Normal (Replied (failure msg)), st).
Proof.
  intros Hfile Hsep Hfp Hin.
  unfold executeToolCall, dispatch, throw_error. rewrite Hfile, Hfp.
  destruct fp as [|c p]; [eexists; reflexivity|].
  unfold file_tool.
  destruct (resolveSecurePath_refuses_git repo (c :: p) Hsep Hin) as (e & ->).
  eexists; reflexivity.
Qed.

(** X17. [createFile] creates the parent directory before it writes and
    writes nothing when that fails; [editFile] never creates a directory;
    both write exactly the given content to the approved path, and both
    report success exactly when nothing threw. Without a string [content]
    neither makes any request. *)
Theorem write_tools_order_their_requests
  (create : bool) (a : tool_args) (repo : jsstring) (ans : execa_answer)
  (st : state) (c : N) (fp p : jsstring) :
  filePath a = Some (c :: fp) ->
  secure path repo (c :: fp) = Normal p ->
  let fn := if create then str "createFile" else str "editFile" in
  let made := mkdir fs (length (fs_log st)) (dirname path p) in
  let log1 := if create then fs_log st ++ [FsMkdir (dirname path p) made]
              else fs_log st in
  let wrote := fun data => writeFile fs (length log1) p data in
  match content a with
  | None =>
      exists msg,
        executeToolCall os fs path fn (Parsed a) repo ans st
        = (Normal (Replied (failure msg)), st)
  | Some data =>
      if create && match made with Some _ => true | None => false end
      then
        exists msg,
          executeToolCall os fs path fn (Parsed a) repo ans st
          = (Normal (Replied (failure msg)),
             {| procs := procs st; fs_log := log1 |})
      else
        exists r,
          executeToolCall os fs path fn (Parsed a) repo ans st
          = (Normal (Replied r),
             {| procs := procs st;
                fs_log := log1 ++ [FsWriteFile p data (wrote data)] |}) /\
          success r = match wrote data with None => true | Some _ => false end
  end.
Proof.
  intros Hfp Hsec fn made log1 wrote.
  assert (Hft : is_file_tool fn = true) by (destruct create; reflexivity).
  assert (Hin : JsString.eqb fn (str "inspectFile") = false)
    by (destruct create; reflexivity).
  assert (Hcr : JsString.eqb fn (str "createFile") = create)
    by (destruct create; reflexivity).
  unfold executeToolCall, dispatch, throw_error. rewrite Hft, Hfp.
  unfold file_tool, throw_error, log_fs. rewrite Hsec, Hin, Hcr.
  destruct (content a) as [data|]; [|eexists; reflexivity].
  unfold wrote, log1, made. clear wrote log1 made.
  destruct create; cbn [andb].
  - destruct (mkdir fs (length (fs_log st)) (dirname path p)) as [e|];
      cbn [procs fs_log]; [eexists; reflexivity|].
    destruct (writeFile fs _ p data); eexists; split; reflexivity.
  - destruct (writeFile fs _ p data); cbn [procs fs_log];
      eexists; split; reflexivity.
Qed.

(** X18. [inspectFile] makes one read of the approved path and returns at
    most the first 5000 units of the file: the whole text when it is
    shorter, its first 5000 units otherwise. A failed read becomes a failure
    object that carries the message of the error. *)
Theorem inspectFile_returns_a_bounded_prefix
  (a : tool_args) (repo : jsstring) (ans : execa_answer) (st : state)
  (c : N) (fp p : jsstring) :
  filePath a = Some (c :: fp) ->
  secure path repo (c :: fp) = Normal p ->
  snd (executeToolCall os fs path (str "inspectFile") (Parsed a) repo ans st)
  = {| procs := procs st;
       fs_log := fs_log st
                   ++ [FsReadFile p (readFile fs (length (fs_log st)) p)] |} /\
  match readFile fs (length (fs_log st)) p with
  | Normal text =>
      exists shown rest,
        fst (executeToolCall os fs path (str "inspectFile") (Parsed a) repo ans st)
        = Normal (Replied {| success := true; error := None;
                             file_content := Some shown;
                             reply_message := None; finalOutcome := None |}) /\
        text = shown ++ rest /\
        length shown = Nat.min (length text) 5000
  | Throw e =>
      fst (executeToolCall os fs path (str "inspectFile") (Parsed a) repo ans st)
      = Normal (Replied (failure (str "Tool execution failed: " ++ message e)))
  end.
Proof.
  intros Hfp Hsec.
  unfold executeToolCall, dispatch, throw_error.
  change (is_file_tool (str "inspectFile")) with true. cbv iota. rewrite Hfp.
  unfold file_tool, log_fs. rewrite Hsec.
  change (JsString.eqb (str "inspectFile") (str "inspectFile")) with true.
  cbv iota.
  destruct (readFile fs (length (fs_log st)) p) as [text|e].
  - split; [reflexivity|].
    exists (firstn MAX_FILE_CONTENT_LENGTH text), (skipn MAX_FILE_CONTENT_LENGTH text).
    split; [reflexivity|]. split; [symmetry; apply firstn_skipn|].
    rewrite length_firstn. unfold MAX_FILE_CONTENT_LENGTH. lia.
  - split; reflexivity.
Qed.

(** X19. The [runCommand] tool is long-running exactly when the
    [isLongRunning] argument is truthy. With the argument omitted, [null],
    [false], [0] or the empty string the command runs in the normal mode,
    the tracked process of the workspace stays registered and no signal is
    sent. With any other value, [true] but also a non-zero number, a
    non-empty string such as "false", an array or an object, the tracked
    process is terminated and unregistered before the detached child is
    spawned. Either way exactly one [execa] request is made and no
    file-system request. *)
Theorem runCommand_is_long_running_only_on_request
  (a : tool_args) (repo : jsstring) (ans : execa_answer) (st : state)
  (c : N) (cmd : jsstring) (argv : list jsstring) :
  command a = Some (c :: cmd) -> args a = Some argv ->
  match isLongRunning a with
  | None | Some JNull | Some (JBool false) | Some (JNumber false)
  | Some (JString []) =>
      exists r,
        executeToolCall os fs path (str "runCommand") (Parsed a) repo ans st
        = (Normal (Ran (Finished r)),
           {| procs :=
                {| runningProcesses := runningProcesses (procs st);
                   trace := trace (procs st)
                              ++ [EExeca (c :: cmd) argv repo false] |};
              fs_log := fs_log st |})
  | Some (JBool true) | Some (JNumber true) | Some (JString (_ :: _))
  | Some JCompound =>
      exists d,
        executeToolCall os fs path (str "runCommand") (Parsed a) repo ans st
        = (Normal (Ran (Pending d)),
           {| procs :=
                {| runningProcesses :=
                     JsMap.delete repo (runningProcesses (procs st));
                   trace := trace (snd (terminateTrackedProcess os repo (procs st)))
                              ++ [EExeca (c :: cmd) argv repo true] |};
              fs_log := fs_log st |})
  end.
Proof.
  intros Hc Ha.
  unfold executeToolCall, caught, dispatch.
  change (is_file_tool (str "runCommand")) with false.
  change (JsString.eqb (str "runCommand") (str "runCommand")) with true.
  cbv iota. rewrite Hc, Ha.
  destruct (executeCommand_modes os repo (c :: cmd) argv (timeout a) ans (procs st))
    as ((r & Hshort) & (d & Hlong)).
  destruct (isLongRunning a) as [[|[|]|[|]|[|x s]|]|]; cbn [long_running];
    first [rewrite Hlong; exists d; reflexivity
          | rewrite Hshort; exists r; reflexivity].
Qed.

End ExecutorFacts.

(** ** [utils/fsUtils.ts]: [listDirectoryStructure] *)

Section ListingFacts.

Import FsUtils.

Variables maxDepth maxItems : nat.

Lemma node_induction (P : node -> Prop) :
  (forall name, P (File name)) ->
  (forall name dirents, Forall P dirents -> P (Dir name dirents)) ->
  (forall name, P (Locked name)) ->
  forall n, P n.
Proof.
  intros HF HD HL. fix IH 1. intros [name|name dirents|name].
  - apply HF.
  - apply HD. induction dirents as [|d ds IHds]; constructor;
      [apply IH | exact IHds].
  - apply HL.
Qed.

Lemma listDirectoryStructure_eq root cd c :
  listDirectoryStructure maxDepth maxItems root cd c =
  if ((maxDepth <? cd) || (maxItems <=? c))%nat then ([], c)
  else match root with
       | Dir _ ds =>
           dirent_loop
             (fun d k => listDirectoryStructure maxDepth maxItems d (S cd) k)
             maxItems cd ds c
       | File n | Locked n => ([error_line cd n], c)
       end.
Proof. destruct root; reflexivity. Qed.

Lemma dirent_loop_cons recurse cd d rest c :
  dirent_loop recurse maxItems cd (d :: rest) c =
  if (maxItems <=? c)%nat then ([], c)
  else if ignored (name_of d) then dirent_loop recurse maxItems cd rest c
  else if isDirectory d then
    let '(subStructure, c1) := recurse d (S c) in
    let '(more, c2) := dirent_loop recurse maxItems cd rest c1 in
    (dir_line cd (name_of d) :: subStructure ++ more, c2)
  else
    let '(more, c2) := dirent_loop recurse maxItems cd rest (S c) in
    (file_line cd (name_of d) :: more, c2).
Proof. reflexivity. Qed.

Lemma strip_indent_repeat n l :
  strip_indent (repeat_str (str "  ") n ++ l) = strip_indent l.
Proof. induction n as [|n IH]; [reflexivity|exact IH]. Qed.

Lemma is_entry_dir_line d name : is_entry_line (dir_line d name) = true.
Proof. unfold is_entry_line, dir_line. rewrite strip_indent_repeat. reflexivity. Qed.

Lemma is_entry_file_line d name : is_entry_line (file_line d name) = true.
Proof. unfold is_entry_line, file_line. rewrite strip_indent_repeat. reflexivity. Qed.

Lemma is_entry_error_line d name : is_entry_line (error_line d name) = false.
Proof. unfold is_entry_line, error_line. rewrite strip_indent_repeat. reflexivity. Qed.

Lemma dirent_loop_budget recurse cd ds :
  Forall (fun d => forall c, within_budget maxItems 1 c (recurse d c)) ds ->
  forall c, within_budget maxItems 0 c (dirent_loop recurse maxItems cd ds c).
Proof.
  induction 1 as [|d ds Hd _ IH]; intros c.
  - cbn. unfold within_budget; cbn. lia.
  - rewrite dirent_loop_cons.
    destruct (Nat.leb_spec maxItems c) as [Hle|Hlt].
    { unfold within_budget; cbn. lia. }
    destruct (ignored (name_of d)); [apply IH|].
    destruct (isDirectory d).
    + specialize (Hd (S c)). destruct (recurse d (S c)) as [sub c1].
      specialize (IH c1). destruct (dirent_loop recurse maxItems cd ds c1) as [more c2].
      unfold within_budget in *. cbn [fst snd] in *.
      cbn [filter]. rewrite is_entry_dir_line. cbn [length].
      rewrite filter_app, !length_app. lia.
    + specialize (IH (S c)).
      destruct (dirent_loop recurse maxItems cd ds (S c)) as [more c2].
      unfold within_budget in *. cbn [fst snd] in *.
      cbn [filter]. rewrite is_entry_file_line. cbn [length]. lia.
Qed.

Lemma listDirectoryStructure_budget root :
  forall cd c,
    within_budget maxItems 1 c (listDirectoryStructure maxDepth maxItems root cd c).
Proof.
  induction root as [name|name ds IH|name] using node_induction; intros cd c;
    rewrite listDirectoryStructure_eq;
    destruct ((maxDepth <? cd) || (maxItems <=? c))%nat;
    try (unfold within_budget; cbn [fst snd filter length];
         rewrite ?is_entry_error_line; cbn [length]; lia).
  assert (H0 : within_budget maxItems 0 c
                 (dirent_loop
                    (fun d k => listDirectoryStructure maxDepth maxItems d (S cd) k)
                    maxItems cd ds c)).
  { apply dirent_loop_budget. eapply Forall_impl; [|exact IH].
    intros d Hd k. apply Hd. }
  unfold within_budget in *. lia.
Qed.

(** X20. The item limit is global to a walk: the shared counter only grows
    and never passes [maxItems] (unless it started beyond it); the number of
    entry lines returned is exactly the growth of the counter, so at most
    [maxItems - itemCount]; and with the error lines the listing has at most
    two lines per counted item, and one more. *)
Theorem listing_respects_item_limit
  (root : node) (currentDepth itemCount : nat) :
  let r := listDirectoryStructure maxDepth maxItems root currentDepth itemCount in
  itemCount <= snd r /\ snd r <= Nat.max itemCount maxItems /\
  length (filter is_entry_line (fst r)) = snd r - itemCount /\
  length (filter is_entry_line (fst r)) <= maxItems - itemCount /\
  length (fst r) <= 2 * (maxItems - itemCount) + 1.
Proof.
  intros r. subst r.
  pose proof (listDirectoryStructure_budget root currentDepth itemCount) as H.
  unfold within_budget in H. lia.
Qed.

Lemma entry_line_dir cd d :
  isDirectory d = true -> dir_line cd (name_of d) = entry_line cd d.
Proof. unfold entry_line. intros ->. reflexivity. Qed.

Lemma entry_line_file cd d :
  isDirectory d = false -> file_line cd (name_of d) = entry_line cd d.
Proof. unfold entry_line. intros ->. reflexivity. Qed.

Lemma dirent_loop_lines recurse cd ds :
  Forall (fun d => forall c l, In l (fst (recurse d c)) ->
                               listed_line maxDepth d (S cd) l) ds ->
  forall c l,
    In l (fst (dirent_loop recurse maxItems cd ds c)) ->
    exists d, In d ds /\ ignored (name_of d) = false /\
              (l = entry_line cd d \/ listed_line maxDepth d (S cd) l).
Proof.
  induction 1 as [|d ds Hd _ IH]; intros c l.
  - intros [].
  - rewrite dirent_loop_cons.
    destruct (maxItems <=? c)%nat; [intros []|].
    destruct (ignored (name_of d)) eqn:Ei.
    { intros Hl. destruct (IH _ _ Hl) as (d' & Hin & Hr).
      exists d'. split; [right; exact Hin|exact Hr]. }
    destruct (isDirectory d) eqn:Ed.
    + specialize (Hd (S c)). destruct (recurse d (S c)) as [sub c1].
      specialize (IH c1). destruct (dirent_loop recurse maxItems cd ds c1) as [more c2].
      cbn [fst] in *. intros [<-|Hl].
      * exists d. split; [left; reflexivity|]. split; [exact Ei|].
        left. apply entry_line_dir, Ed.
      * apply in_app_or in Hl. destruct Hl as [Hl|Hl].
        -- exists d. split; [left; reflexivity|]. split; [exact Ei|].
           right. apply Hd, Hl.
        -- destruct (IH _ Hl) as (d' & Hin & Hr).
           exists d'. split; [right; exact Hin|exact Hr].
    + specialize (IH (S c)).
      destruct (dirent_loop recurse maxItems cd ds (S c)) as [more c2].
      cbn [fst] in *. intros [<-|Hl].
      * exists d. split; [left; reflexivity|]. split; [exact Ei|].
        left. apply entry_line_file, Ed.
      * destruct (IH _ Hl) as (d' & Hin & Hr).
        exists d'. split; [right; exact Hin|exact Hr].
Qed.

Lemma listDirectoryStructure_lines root :
  forall cd c l,
    In l (fst (listDirectoryStructure maxDepth maxItems root cd c)) ->
    listed_line maxDepth root cd l.
Proof.
  induction root as [name|name ds IH|name] using node_induction; intros cd c l;
    rewrite listDirectoryStructure_eq;
    destruct (Nat.ltb_spec maxDepth cd) as [Hgt|Hle];
    cbn [orb]; try (intros H; exact (False_ind _ H));
    destruct (maxItems <=? c)%nat; try (intros H; exact (False_ind _ H)).
  - intros [<-|[]]. exists 0, (File name). split; [reflexivity|].
    left. rewrite Nat.add_0_r. split; [reflexivity|].
    split; [intros nm ds; discriminate|exact Hle].
  - intros Hl.
    destruct (@dirent_loop_lines
                (fun d k => listDirectoryStructure maxDepth maxItems d (S cd) k)
                cd ds) with (c := c) (l := l)
      as (d & Hin & Hi & [->|(k & n & Hv & Hk)]).
    + eapply Forall_impl; [|exact IH]. intros d Hd k l'. apply Hd.
    + exact Hl.
    + exists 1, d. split; [exists d; repeat split; assumption|].
      right. exists 0. rewrite Nat.add_0_r. repeat split. exact Hle.
    + exists (S k), n. split; [exists d; repeat split; assumption|].
      replace (cd + S k) with (S cd + k) by lia.
      destruct Hk as [Hk|(k' & -> & Hk)]; [left; exact Hk|].
      right. exists (S k'). split; [reflexivity|].
      replace (cd + S k') with (S cd + k') by lia. exact Hk.
  - intros [<-|[]]. exists 0, (Locked name). split; [reflexivity|].
    left. rewrite Nat.add_0_r. split; [reflexivity|].
    split; [intros nm ds; discriminate|exact Hle].
Qed.

(** X21. Every line of the listing is accounted for by the tree: it is
    either the entry line of a dirent that lies below the start on a path
    without ignored names (so no ignored name is ever listed, nor anything
    under an ignored directory), indented by its level, or the error line of
    such a place where [fs.readdir] threw; and no line is indented by more
    than [maxDepth] levels. *)
Theorem listing_shows_only_visible_entries
  (root : node) (currentDepth itemCount : nat) (l : jsstring) :
  In l (fst (listDirectoryStructure maxDepth maxItems root currentDepth itemCount)) ->
  exists k n,
    visible root k n /\
    ((l = error_line (currentDepth + k) (name_of n) /\
      (forall name dirents, n <> Dir name dirents) /\
      currentDepth + k <= maxDepth)
     \/
     (exists k', k = S k' /\ l = entry_line (currentDepth + k') n /\
                 currentDepth + k' <= maxDepth)).
Proof. apply listDirectoryStructure_lines. Qed.

Lemma items_Dir name ds :
  items (Dir name ds)
  = list_sum (map (fun d => if ignored (name_of d) then 0 else S (items d)) ds).
Proof. reflexivity. Qed.

Lemma levels_Dir name ds :
  levels (Dir name ds)
  = list_max (map (fun d => if ignored (name_of d) then 0
                            else if isDirectory d then S (levels d) else 0) ds).
Proof. reflexivity. Qed.

Lemma outline_Dir cd name ds :
  outline cd (Dir name ds)
  = flat_map (fun d => if ignored (name_of d) then []
                       else entry_line cd d
                              :: (if isDirectory d then outline (S cd) d else []))
      ds.
Proof. reflexivity. Qed.

Lemma list_sum_cons a l : list_sum (a :: l) = a + list_sum l.
Proof. reflexivity. Qed.

Lemma list_max_cons a l : list_max (a :: l) = Nat.max a (list_max l).
Proof. reflexivity. Qed.

Lemma items_file d : isDirectory d = false -> items d = 0.
Proof. destruct d; [reflexivity|discriminate|discriminate]. Qed.

Lemma dirent_loop_complete recurse cd ds :
  Forall (fun d => forall c, S cd + levels d <= maxDepth ->
                             c + items d < maxItems ->
                             recurse d c = (outline (S cd) d, c + items d)) ds ->
  forall c name,
    cd + levels (Dir name ds) <= maxDepth ->
    c + items (Dir name ds) < maxItems ->
    dirent_loop recurse maxItems cd ds c
    = (outline cd (Dir name ds), c + items (Dir name ds)).
Proof.
  induction 1 as [|d ds Hd _ IH]; intros c name.
  - intros _ _. cbn. rewrite Nat.add_0_r. reflexivity.
  - rewrite items_Dir, levels_Dir, outline_Dir. cbn [map flat_map].
    rewrite list_sum_cons, list_max_cons.
    specialize (fun c => IH c name). rewrite items_Dir, levels_Dir, outline_Dir in IH.
    intros Hlev Hit. rewrite dirent_loop_cons.
    destruct (Nat.leb_spec maxItems c) as [Hle|Hlt]; [lia|].
    destruct (ignored (name_of d)).
    { cbn [app]. rewrite IH by lia. reflexivity. }
    destruct (isDirectory d) eqn:Ed.
    + rewrite Hd by lia. rewrite IH by lia.
      rewrite (entry_line_dir _ _ Ed). cbn [app]. f_equal. lia.
    + rewrite (items_file _ Ed) in *. rewrite IH by lia.
      rewrite (entry_line_file _ _ Ed). cbn [app]. f_equal. lia.
Qed.

Lemma listDirectoryStructure_complete root :
  forall cd c,
    cd + levels root <= maxDepth ->
    c + items root < maxItems ->
    listDirectoryStructure maxDepth maxItems root cd c
    = (outline cd root, c + items root).
Proof.
  induction root as [name|name ds IH|name] using node_induction; intros cd c Hlev Hit;
    rewrite listDirectoryStructure_eq;
    (destruct (Nat.ltb_spec maxDepth cd) as [Hgt|Hle]; [lia|]);
    (destruct (Nat.leb_spec maxItems c) as [Hge|Hlt]; [lia|]);
    cbn [orb].
  - cbn. rewrite Nat.add_0_r. reflexivity.
  - apply dirent_loop_complete; [|exact Hlev|exact Hit].
    eapply Forall_impl; [|exact IH]. intros d Hd k. apply Hd.
  - cbn. rewrite Nat.add_0_r. reflexivity.
Qed.

(** X22. Within the limits the listing is complete: when the tree descends
    at most [maxDepth - currentDepth] directory levels and the counter stays
    strictly below [maxItems], the result is the full outline of the tree,
    with every dirent that is not ignored, in [fs.readdir]'s order, and the
    counter has advanced by the number of those dirents. *)
Theorem listing_is_complete_within_limits
  (root : node) (currentDepth itemCount : nat) :
  currentDepth + levels root <= maxDepth ->
  itemCount + items root < maxItems ->
  listDirectoryStructure maxDepth maxItems root currentDepth itemCount
  = (outline currentDepth root, itemCount + items root).
Proof. apply listDirectoryStructure_complete. Qed.

Lemma dirent_loop_exhausted recurse cd ds c :
  maxItems <= c -> dirent_loop recurse maxItems cd ds c = ([], c).
Proof.
  intros H. destruct ds as [|d ds]; [reflexivity|].
  rewrite dirent_loop_cons.
  destruct (Nat.leb_spec maxItems c); [reflexivity|lia].
Qed.

Lemma dirent_loop_truncated recurse cd ds :
  Forall (fun d => forall c, S cd + levels d <= maxDepth ->
                             truncated maxItems (outline (S cd) d) (recurse d c)) ds ->
  forall c name,
    cd + levels (Dir name ds) <= maxDepth ->
    truncated maxItems (outline cd (Dir name ds))
      (dirent_loop recurse maxItems cd ds c).
Proof.
  induction 1 as [|d ds Hd _ IH]; intros c name.
  - intros _. exists []. split; [reflexivity|left; reflexivity].
  - rewrite levels_Dir, outline_Dir. cbn [map flat_map].
    rewrite list_max_cons.
    specialize (fun c => IH c name). rewrite levels_Dir, outline_Dir in IH.
    intros Hlev. rewrite dirent_loop_cons.
    destruct (Nat.leb_spec maxItems c) as [Hle|Hlt].
    { eexists. split; [reflexivity|right; exact Hle]. }
    destruct (ignored (name_of d)).
    { cbn [app]. apply IH. lia. }
    destruct (isDirectory d) eqn:Ed.
    + destruct (Hd (S c)) as (rest1 & E1 & H1); [lia|].
      destruct (recurse d (S c)) as [sub c1]. cbn [fst snd] in E1, H1.
      destruct H1 as [->|Hfull].
      * destruct (IH c1) as (rest2 & E2 & H2); [lia|].
        destruct (dirent_loop recurse maxItems cd ds c1) as [more c2].
        cbn [fst snd] in *. exists rest2. split; [|exact H2].
        rewrite E1, E2, app_nil_r, <- entry_line_dir by exact Ed.
        cbn [fst app]. rewrite <- app_assoc. reflexivity.
      * rewrite dirent_loop_exhausted by exact Hfull. cbn [fst snd].
        eexists. split; [|right; exact Hfull].
        rewrite E1, <- (entry_line_dir _ _ Ed).
        cbn [fst app]. rewrite <- !app_assoc. reflexivity.
    + destruct (IH (S c)) as (rest2 & E2 & H2); [lia|].
      destruct (dirent_loop recurse maxItems cd ds (S c)) as [more c2].
      cbn [fst snd] in *. exists rest2. split; [|exact H2].
      rewrite E2, <- entry_line_file by exact Ed. cbn [fst app]. reflexivity.
Qed.

Lemma listDirectoryStructure_truncated root :
  forall cd c,
    cd + levels root <= maxDepth ->
    truncated maxItems (outline cd root)
      (listDirectoryStructure maxDepth maxItems root cd c).
Proof.
  induction root as [name|name ds IH|name] using node_induction; intros cd c Hlev;
    rewrite listDirectoryStructure_eq;
    (destruct (Nat.ltb_spec maxDepth cd) as [Hgt|Hle]; [lia|]);
    cbn [orb];
    (destruct (Nat.leb_spec maxItems c) as [Hge|Hlt];
     [eexists; split; [reflexivity|right; exact Hge]|]).
  - exists []. split; [reflexivity|left; reflexivity].
  - apply dirent_loop_truncated; [|exact Hlev].
    eapply Forall_impl; [|exact IH]. intros d Hd k. apply Hd.
  - exists []. split; [reflexivity|left; reflexivity].
Qed.

(** X23. The item limit only cuts the listing off at its end: when the
    depth limit does not bind, the result is a prefix of the full outline,
    with nothing skipped or reordered before the cut, and it is shorter than
    the outline only if the counter has reached [maxItems]. *)
Theorem item_limit_truncates_at_the_end
  (root : node) (currentDepth itemCount : nat) :
  currentDepth + levels root <= maxDepth ->
  exists rest,
    outline currentDepth root
    = fst (listDirectoryStructure maxDepth maxItems root currentDepth itemCount)
        ++ rest /\
    (rest = [] \/
     maxItems <= snd (listDirectoryStructure maxDepth maxItems root
                        currentDepth itemCount)).
Proof. apply listDirectoryStructure_truncated. Qed.

End ListingFacts.

(** * [core/orchestrator.ts]: [cloneAndRun] *)

Section OrchestratorFacts.

Variable env : Orchestrator.environment.



Lemma cleanup_normal repoPath st :
  fst (Orchestrator.terminateTrackedProcess env repoPath st) = Normal tt.
Proof.
  unfold Orchestrator.terminateTrackedProcess. destruct repoPath as [|c p]; [reflexivity|].
  unfold FsUtils.cleanupRepo.
  pose proof (terminate_normal (Orchestrator.os env) (c :: p) (Executor.procs (Orchestrator.exec st))) as Hn.
  cbn [FsUtils.procs FsUtils.fs_log].
  destruct (terminateTrackedProcess (Orchestrator.os env) (c :: p)
              (Executor.procs (Orchestrator.exec st))) as [cr w1].
  cbn [fst] in Hn. subst cr.
  destruct (FsUtils.rm_loop (Orchestrator.rm env) (c :: p) FsUtils.maxAttempts (Orchestrator.rm_log st)).
  reflexivity.
Qed.





Lemma executeToolCall_null os fs path fn repo ans st :
  exists msg,
    Executor.executeToolCall os fs path fn Executor.ParsedNull repo ans st
    = (Normal (Executor.Replied (Executor.failure msg)), st).
Proof.
  unfold Executor.executeToolCall, Executor.caught, Executor.dispatch_null,
    Executor.throw_error.
  destruct (Executor.is_file_tool fn); [eexists; reflexivity|].
  destruct (JsString.eqb fn (str "runCommand")); [eexists; reflexivity|].
  destruct (JsString.eqb fn (str "markRunning")); [eexists; reflexivity|].
  destruct (JsString.eqb fn (str "markUnrunnable")); eexists; reflexivity.
Qed.


Lemma cleanup_effect c p st :
  let st' := snd (Orchestrator.terminateTrackedProcess env (c :: p) st) in
  Orchestrator.openaiClient st' = Orchestrator.openaiClient st /\
  Orchestrator.git_log st' = Orchestrator.git_log st /\
  Orchestrator.llm_log st' = Orchestrator.llm_log st /\
  JsMap.get (c :: p)
    (runningProcesses (Executor.procs (Orchestrator.exec st'))) = None /\
  exists errs last,
    Orchestrator.rm_log st'
    = Orchestrator.rm_log st ++ rm_requests (c :: p) errs last /\
    length errs <= 2 /\ (last = None \/ length errs = 2).
Proof.
  unfold Orchestrator.terminateTrackedProcess, FsUtils.cleanupRepo.
  cbn [FsUtils.procs FsUtils.fs_log].
  pose proof (terminate_normal (Orchestrator.os env) (c :: p)
                (Executor.procs (Orchestrator.exec st))) as Hn.
  pose proof (terminate_registry (Orchestrator.os env) (c :: p)
                (Executor.procs (Orchestrator.exec st))) as Hreg.
  destruct (terminateTrackedProcess (Orchestrator.os env) (c :: p)
              (Executor.procs (Orchestrator.exec st))) as [cr w1].
  cbn [fst snd] in Hn, Hreg. subst cr.
  destruct (rm_loop_requests (Orchestrator.rm env) (c :: p) 2
              (Orchestrator.rm_log st)) as (errs & last & Hrun & Hlen & Hlast).
  change FsUtils.maxAttempts with 3. rewrite Hrun.
  cbn. repeat split; auto.
  - rewrite Hreg. apply get_delete_same.
  - exists errs, last. auto.
Qed.

Lemma markRunning_has_url os fs path a repo ans st r :
  fst (Executor.executeToolCall os fs path (str "markRunning")
         (Executor.Parsed a) repo ans st) = Normal (Executor.Replied r) ->
  Executor.finalOutcome r <> None ->
  exists c u, Executor.deploymentUrl a = Some (c :: u).
Proof.
  unfold Executor.executeToolCall, Executor.dispatch, Executor.throw_error.
  change (Executor.is_file_tool (str "markRunning")) with false.
  change (JsString.eqb (str "markRunning") (str "runCommand")) with false.
  change (JsString.eqb (str "markRunning") (str "markRunning")) with true.
  cbv iota.
  destruct (Executor.deploymentUrl a) as [[|c u]|]; cbn [fst];
    try (intros H Hf; inversion H; subst r; now elim Hf).
  eauto.
Qed.

Lemma cloneAndCheckout_log git repoUrl targetPath commitHash token log :
  GitClient.cloneAndCheckout git repoUrl targetPath commitHash token log
  = (Normal tt,
     log ++ [GitClient.GitClone repoUrl targetPath
               (GitClient.clone_options token) None;
             GitClient.GitCheckout targetPath commitHash None])
  \/
  exists e more,
    GitClient.cloneAndCheckout git repoUrl targetPath commitHash token log
    = (Throw e, log ++ more) /\ length more <= 2.
Proof.
  unfold GitClient.cloneAndCheckout.
  destruct (GitClient.clone git (length log) repoUrl targetPath) as [e|].
  - right. eexists _, [_]. split; [reflexivity|cbn; lia].
  - cbv zeta.
    destruct (GitClient.checkout git _ targetPath commitHash) as [e|].
    + right. eexists _, [_; _]. rewrite <- app_assoc. split; [reflexivity|cbn; lia].
    + left. rewrite <- app_assoc. reflexivity.
Qed.

Import Orchestrator.




Lemma truncate_result_fits s :
  length (truncate_result s)
  <= Z.to_nat MAX_TOOL_RESULT_LENGTH + length truncation_mark.
Proof.
  unfold truncate_result.
  destruct (Z.ltb_spec MAX_TOOL_RESULT_LENGTH (Z.of_nat (length s))) as [Hlt|Hge].
  - rewrite length_app, length_firstn. lia.
  - lia.
Qed.

Lemma await_tool_final now o st1 toolResult st2 fo :
  await_tool env now o st1 = Some (toolResult, st2) ->
  finalOutcome_of toolResult = Some fo ->
  exists r, o = Executor.Replied r /\ Executor.finalOutcome r = Some fo.
Proof.
  unfold await_tool. destruct o as [r|[r|d]].
  - intros H. inversion H; subst. cbn. eauto.
  - intros H. inversion H; subst. discriminate.
  - destruct (first_resolution _ _) as [[r w]|]; [|discriminate].
    intros H. inversion H; subst. discriminate.
Qed.

Lemma tool_calls_loop_messages repo calls :
  forall acc q st out st' q',
    tool_calls_loop env repo calls acc q st = Some (Normal out, st', q') ->
    exists results,
      toolResultsMessages out = acc ++ results /\
      Forall is_tool_message results /\
      Forall fits_limit results /\
      forall i content,
        In (ToolMessage i content) results ->
        exists call, In call calls /\ id call = Some i.
Proof.
  induction calls as [|call calls IH]; intros acc q st out st' q'.
  - cbn. intros H. inversion H; subst. exists []. cbn.
    rewrite app_nil_r. repeat split; auto. intros i c [].
  - cbn [tool_calls_loop].
    assert (Hskip : forall q0,
                    tool_calls_loop env repo calls acc q0 st
                    = Some (Normal out, st', q') ->
                    exists results,
                      toolResultsMessages out = acc ++ results /\
                      Forall is_tool_message results /\
                      Forall fits_limit results /\
                      forall i content,
                        In (ToolMessage i content) results ->
                        exists call0, In call0 (call :: calls) /\ id call0 = Some i).
    { intros q0 H. destruct (IH _ _ _ _ _ _ H) as (results & H1 & H2 & H3 & H4).
      exists results. repeat split; auto.
      intros i c Hin. destruct (H4 i c Hin) as (call0 & Hc & Hi).
      exists call0. split; [right; exact Hc|exact Hi]. }
    destruct (id call) as [[|c i]|] eqn:Eid; [apply Hskip| |apply Hskip].
    destruct (Executor.executeToolCall _ _ _ _ _ _ _ _) as [[o|e] st1];
      [|discriminate].
    destruct (q && yields o st st1); [discriminate|].
    destruct (await_tool env _ o st1) as [[toolResult st2]|]; [|discriminate].
    destruct (finalOutcome_of toolResult).
    + intros H. inversion H; subst. exists []. cbn.
      rewrite app_nil_r. repeat split; auto. intros i0 c0 [].
    + intros H. destruct (IH _ _ _ _ _ _ H) as (results & H1 & H2 & H3 & H4).
      eexists (_ :: results). split; [|split; [|split]].
      * rewrite H1, <- app_assoc. reflexivity.
      * constructor; [exact I|exact H2].
      * constructor; [apply truncate_result_fits|exact H3].
      * intros i0 c0 [Heq|Hin].
        -- inversion Heq; subst. exists call. split; [left; reflexivity|exact Eid].
        -- destruct (H4 i0 c0 Hin) as (call0 & Hc & Hi).
           exists call0. split; [right; exact Hc|exact Hi].
Qed.

Lemma tool_calls_loop_final repo calls :
  forall acc q st out st' q' fo,
    tool_calls_loop env repo calls acc q st = Some (Normal out, st', q') ->
    final out = Some fo ->
    exists call ans st0 r,
      In call calls /\
      Executor.executeToolCall (os env) (fs env) (path env) (name call)
        (arguments call) repo ans st0
      = (Normal (Executor.Replied r), st') /\
      Executor.finalOutcome r = Some fo.
Proof.
  induction calls as [|call calls IH]; intros acc q st out st' q' fo.
  - cbn. intros H. inversion H; subst. discriminate.
  - cbn [tool_calls_loop].
    assert (Hskip : forall acc0 q0 st0,
               tool_calls_loop env repo calls acc0 q0 st0
               = Some (Normal out, st', q') ->
               final out = Some fo ->
               exists call0 ans st1 r,
                 In call0 (call :: calls) /\
                 Executor.executeToolCall (os env) (fs env) (path env)
                   (name call0) (arguments call0) repo ans st1
                 = (Normal (Executor.Replied r), st') /\
                 Executor.finalOutcome r = Some fo).
    { intros acc0 q0 st0 H Hf.
      destruct (IH _ _ _ _ _ _ _ H Hf) as (call0 & ans & st1 & r & Hc & Hr).
      exists call0, ans, st1, r. split; [right; exact Hc|exact Hr]. }
    destruct (id call) as [[|c i]|]; [apply Hskip| |apply Hskip].
    destruct (Executor.executeToolCall _ _ _ _ _ _ _ _) as [[o|e] st1] eqn:Ex;
      [|discriminate].
    destruct (q && yields o st st1); [discriminate|].
    destruct (await_tool env _ o st1) as [[toolResult st2]|] eqn:Ea; [|discriminate].
    destruct (finalOutcome_of toolResult) as [fo1|] eqn:Ef; [|apply Hskip].
    intros H Hfo. inversion H; subst. cbn [final] in Hfo. inversion Hfo; subst fo1.
    destruct (await_tool_final _ _ _ Ea Ef) as (r & -> & Hr).
    cbn [await_tool] in Ea. inversion Ea; subst.
    exists call, (execa env (length (trace (Executor.procs st)))), st, r.
    split; [left; reflexivity|]. split; [exact Ex|exact Hr].
Qed.

Lemma turn_frame repo v st :
  match turn env repo v st with
  | Break _ st' | Next _ st' | Thrown _ _ st' =>
      openaiClient st' = openaiClient st /\ rm_log st' = rm_log st /\
      git_log st' = git_log st /\ llm_log st' = llm_log st ++ [messages v]
  | Never => True
  end.
Proof.
  unfold turn. destruct (error_queued st); [exact I|].
  destruct (llm env (length (llm_log st)) (messages v)) as [e|[|[m|] rest]];
    cbv zeta; try (cbn; auto; fail).
  destruct (tool_calls m) as [calls|].
  - destruct (tool_calls_loop env repo calls [] _ _) as [[[[out|e] x] q]|];
      [|cbn; auto|exact I].
    destruct (final out); cbn; auto.
  - destruct (Executor.missing (content m)); cbn; auto.
Qed.


Lemma turn_next repo v st v' st' :
  turn env repo v st = Next v' st' ->
  finalOutcome v' = finalOutcome v /\ loopCompleted v' = loopCompleted v /\
  exists m choices results,
    llm env (length (llm_log st)) (messages v) = LlmResponds (Some m :: choices) /\
    messages v' = messages v ++ AssistantMessage m :: results /\
    Forall (answers m) results /\
    Forall fits_limit results.
Proof.
  unfold turn. destruct (error_queued st); [discriminate|].
  destruct (llm env (length (llm_log st)) (messages v)) as [e|[|[m|] rest]];
    cbv zeta; try discriminate.
  destruct (tool_calls m) as [calls|] eqn:Ec.
  - destruct (tool_calls_loop env repo calls [] _ _) as [[[[out|e] x] q]|] eqn:El;
      try discriminate.
    destruct (final out); [discriminate|].
    intros H. inversion H; subst. cbn [push finalOutcome loopCompleted messages].
    split; [reflexivity|]. split; [reflexivity|].
    destruct (tool_calls_loop_messages _ _ _ _ _ El) as (results & H1 & H2 & H3 & H4).
    exists m, rest, results. split; [reflexivity|].
    split; [rewrite H1, <- app_assoc; reflexivity|].
    split; [|exact H3].
    apply Forall_forall. intros msg Hin.
    rewrite Forall_forall in H2. specialize (H2 msg Hin).
    destruct msg as [s|s|m0|i c]; try contradiction.
    destruct (H4 i c Hin) as (call & Hc & Hi).
    exists calls, call. auto.
  - destruct (Executor.missing (content m)); [discriminate|].
    intros H. inversion H; subst. cbn [push finalOutcome loopCompleted messages].
    split; [reflexivity|]. split; [reflexivity|].
    exists m, rest, []. repeat split; auto.
Qed.

Lemma turn_thrown repo v st e v' st' :
  turn env repo v st = Thrown e v' st' ->
  finalOutcome v' = finalOutcome v /\ loopCompleted v' = loopCompleted v.
Proof.
  unfold turn. destruct (error_queued st); [discriminate|].
  destruct (llm env (length (llm_log st)) (messages v)) as [e0|[|[m|] rest]];
    cbv zeta; try discriminate;
    try (intros H; inversion H; subst; split; reflexivity).
  destruct (tool_calls m) as [calls|].
  - destruct (tool_calls_loop env repo calls [] _ _) as [[[[out|e1] x] q]|];
      try discriminate.
    + destruct (final out); discriminate.
    + intros H; inversion H; subst; split; reflexivity.
  - destruct (Executor.missing (content m)); discriminate.
Qed.

Lemma turn_break repo v st v' st' :
  turn env repo v st = Break v' st' ->
  loopCompleted v' = true /\
  broken_with env repo (finalOutcome v) (finalOutcome v') (exec st').
Proof.
  unfold turn. destruct (error_queued st); [discriminate|].
  destruct (llm env (length (llm_log st)) (messages v)) as [e|[|[m|] rest]] eqn:El;
    cbv zeta; try discriminate.
  - destruct (tool_calls m) as [calls|] eqn:Ec.
    + destruct (tool_calls_loop env repo calls [] _ _) as [[[[out|e] x] q]|] eqn:Et;
        try discriminate.
      destruct (final out) as [fo|] eqn:Ef; [|discriminate].
      intros H. inversion H; subst. split; [reflexivity|].
      right. right.
      destruct (tool_calls_loop_final _ _ _ _ _ Et Ef)
        as (call & ans & st0 & r & Hin & Hr & Hfo).
      exists call, fo. split; [|reflexivity].
      split; [exists (length (llm_log st)), (messages v), m, rest, calls; auto|].
      exists ans, st0, r. auto.
    + destruct (Executor.missing (content m)); [|discriminate].
      intros H. inversion H; subst. split; [reflexivity|].
      right. left. reflexivity.
  - intros H. inversion H; subst. split; [reflexivity|]. left. reflexivity.
Qed.





Lemma set_openaiClient_same st : set_openaiClient (openaiClient st) st = st.
Proof. destruct st; reflexivity. Qed.

Lemma turns_frame repo left :
  forall v st c v' st',
    turns env repo left v st = Some (c, v', st') ->
    openaiClient st' = openaiClient st /\ rm_log st' = rm_log st /\
    git_log st' = git_log st.
Proof.
  induction left as [|left IH]; intros v st c v' st'.
  - cbn. intros H. inversion H; subst. auto.
  - cbn [turns]. pose proof (turn_frame repo v st) as Hf.
    destruct (turn env repo v st) as [v1 st1|v1 st1|e v1 st1|];
      [| | |discriminate]; destruct Hf as (H1 & H2 & H3 & _).
    + intros H. inversion H; subst. auto.
    + intros H. destruct (IH _ _ _ _ _ H) as (G1 & G2 & G3).
      repeat split; congruence.
    + intros H. inversion H; subst. auto.
Qed.

Lemma turns_outcome repo left :
  forall v st c v' st',
    turns env repo left v st = Some (c, v', st') ->
    (finalOutcome v' = finalOutcome v /\ loopCompleted v' = loopCompleted v) \/
    (c = Normal tt /\ loopCompleted v' = true /\
     broken_with env repo (finalOutcome v) (finalOutcome v') (exec st')).
Proof.
  induction left as [|left IH]; intros v st c v' st'.
  - cbn. intros H. inversion H; subst. auto.
  - cbn [turns].
    destruct (turn env repo v st) as [v1 st1|v1 st1|e v1 st1|] eqn:Et;
      [| | |discriminate].
    + intros H. inversion H; subst. right.
      destruct (turn_break _ _ _ Et). auto.
    + intros H. destruct (turn_next _ _ _ Et) as (Hf & Hl & _).
      rewrite <- Hf, <- Hl. apply (IH _ _ _ _ _ H).
    + intros H. inversion H; subst. left. apply (turn_thrown _ _ _ Et).
Qed.

Lemma grows_cons n r reqs :
  match reqs with
  | [] => True
  | r2 :: _ =>
      exists m choices results,
        llm env n r = LlmResponds (Some m :: choices) /\
        r2 = r ++ AssistantMessage m :: results /\
        Forall (answers m) results
  end ->
  grows env (S n) reqs ->
  grows env n (r :: reqs).
Proof. destruct reqs as [|r2 reqs]; cbn [grows]; auto. Qed.

Lemma turns_requests repo left :
  forall v st c v' st',
    turns env repo left v st = Some (c, v', st') ->
    exists asked,
      llm_log st' = llm_log st ++ asked /\
      length asked <= left /\
      match asked with
      | [] => True
      | r :: _ => r = messages v
      end /\
      grows env (length (llm_log st)) asked /\
      (Forall fits_limit (messages v) -> Forall (Forall fits_limit) asked).
Proof.
  induction left as [|left IH]; intros v st c v' st'.
  - cbn [turns]. intros H. inversion H; subst. exists [].
    rewrite app_nil_r. cbn. repeat split; auto.
  - cbn [turns]. pose proof (turn_frame repo v st) as Hf.
    destruct (turn env repo v st) as [v1 st1|v1 st1|e v1 st1|] eqn:Et;
      [| | |discriminate]; destruct Hf as (_ & _ & _ & Hlog).
    + intros H. inversion H; subst. exists [messages v].
      cbn. repeat split; auto; lia.
    + intros H. destruct (IH _ _ _ _ _ H) as (asked & H1 & H2 & H3 & H4 & H5).
      destruct (turn_next _ _ _ Et) as (_ & _ & m & choices & results
                                          & Hm & Hv & Ht & Hfit).
      exists (messages v :: asked). split; [|split; [|split; [|split]]].
      * rewrite H1, Hlog, <- app_assoc. reflexivity.
      * cbn [length]. lia.
      * reflexivity.
      * apply grows_cons.
        -- destruct asked as [|r2 asked]; [exact I|].
           exists m, choices, results. subst r2. auto.
        -- rewrite Hlog, length_app, Nat.add_1_r in H4. exact H4.
      * intros Hall. constructor; [exact Hall|]. apply H5.
        rewrite Hv. apply Forall_app. split; [exact Hall|].
        constructor; [exact I|exact Hfit].
    + intros H. inversion H; subst. exists [messages v].
      cbn. repeat split; auto; lia.
Qed.




Lemma catch_block_cases error tmp fo st c st' :
  catch_block env error tmp fo st = Some (c, st') ->
  on_unhandled env error tmp fo st = (c, st').
Proof.
  unfold catch_block. destruct (or_empty tmp).
  - intros H. now inversion H.
  - destruct (error_queued st); [discriminate|]. intros H. now inversion H.
Qed.


Lemma on_unhandled_effect error tmp fo0 st :
  exists outcome,
    on_unhandled env error tmp fo0 st
    = (Normal outcome, snd (terminateTrackedProcess env (or_empty tmp) st)) /\
    status outcome = Executor.StatusFailure /\
    notes outcome = NotesUnhandled (message error) /\
    url outcome = match fo0 with
                  | Some fo => url fo
                  | None => None
                  end /\
    repoPath outcome = match fo0 with
                       | Some fo => repoPath fo
                       | None => match tmp with
                                 | Some (c :: p) => c :: p
                                 | _ => str "unknown"
                                 end
                       end.
Proof.
  unfold on_unhandled.
  pose proof (cleanup_normal (or_empty tmp) st) as Hn.
  destruct (terminateTrackedProcess env (or_empty tmp) st) as [cr st'].
  cbn [fst snd] in *. subst cr.
  eexists. split; [reflexivity|]. destruct fo0; cbn; auto.
Qed.

(** The workspace that the [catch] cleans up, and the path it reports. *)
Lemma try_block_outcome options st c st' :
  try_block env options st = Some (c, st') ->
  exists outcome,
    c = Normal outcome /\
    ((exists msg st1,
        notes outcome = NotesUnhandled msg /\
        status outcome = Executor.StatusFailure /\
        url outcome = None /\
        repoPath outcome = match mkdtemp env with
                           | Normal tmp => tmp
                           | Throw _ => str "unknown"
                           end /\
        rm_log st1 = rm_log st /\
        st' = snd (terminateTrackedProcess env
                     (match mkdtemp env with
                      | Normal tmp => tmp
                      | Throw _ => []
                      end) st1))
     \/
     (exists tmp,
        mkdtemp env = Normal tmp /\ rm_log st' = rm_log st /\
        (outcome = set_notes NotesEmptyResponse (incomplete tmp) \/
         outcome = set_notes NotesNoContent (incomplete tmp) \/
         outcome = set_notes NotesMaxTurns (incomplete tmp) \/
         exists call fo, marked env tmp call fo (exec st') /\
                         outcome = of_tool fo tmp))).
Proof.
  unfold try_block. destruct (error_queued st); [discriminate|].
  destruct (mkdtemp env) as [tmp|e].
  2:{ intros H0; apply catch_block_cases in H0; revert H0.
      destruct (on_unhandled_effect e None None st)
        as (out & -> & Hs & Hn & Hu & Hp).
      intros H. injection H as Hc Hst. subst c st'. exists out. split; [reflexivity|].
      left. exists (message e), st. repeat split; auto. }
  destruct (GitClient.cloneAndCheckout _ _ _ _ _ _) as [[u|e] log].
  2:{ intros H0; apply catch_block_cases in H0; revert H0.
      destruct (on_unhandled_effect e (Some tmp) (Some (incomplete tmp))
                  (set_git_log log st)) as (out & -> & Hs & Hn & Hu & Hp).
      intros H. injection H as Hc Hst. subst c st'. exists out. split; [reflexivity|].
      left. exists (message e), (set_git_log log st). repeat split; auto. }
  cbv zeta.
  match goal with
  | |- context [turns env tmp MAX_LLM_TURNS ?v ?s] =>
      destruct (turns env tmp MAX_LLM_TURNS v s) as [[[cr v'] st1]|] eqn:Et;
        [|discriminate];
        destruct (turns_frame _ _ _ _ Et) as (_ & Hrm & _);
        pose proof (turns_outcome _ _ _ _ Et) as Ho
  end.
  cbn [finalOutcome loopCompleted rm_log set_git_log] in Hrm, Ho.
  destruct Ho as [(Hf & Hl)|(-> & Hl & Hb)].
  - destruct cr as [[]|e].
    + intros H. injection H as Hc Hst. subst c st'. eexists. split; [reflexivity|].
      right. exists tmp. split; [reflexivity|]. split; [exact Hrm|].
      rewrite Hl, Hf. auto.
    + intros H0; apply catch_block_cases in H0; revert H0.
      destruct (on_unhandled_effect e (Some tmp) (Some (finalOutcome v')) st1)
        as (out & -> & Hs & Hn & Hu & Hp).
      intros H. injection H as Hc Hst. subst c st'. exists out. split; [reflexivity|].
      left. exists (message e), st1. rewrite Hf in Hu, Hp. repeat split; auto.
  - intros H. injection H as Hc Hst. subst c st'. eexists. split; [reflexivity|].
    right. exists tmp. split; [reflexivity|]. split; [exact Hrm|].
    rewrite Hl. destruct Hb as [->|[->|Hm]]; auto.
Qed.


Lemma try_block_requests options st c st' :
  try_block env options st = Some (c, st') ->
  exists asked cloned,
    llm_log st' = llm_log st ++ asked /\
    length asked <= MAX_LLM_TURNS /\
    git_log st' = git_log st ++ cloned /\
    length cloned <= 2 /\
    (asked = [] \/
     exists tmp rest,
       mkdtemp env = Normal tmp /\
       asked = opening env tmp :: rest /\
       cloned = [GitClient.GitClone (repoUrl options) tmp
                   (GitClient.clone_options (githubToken options)) None;
                 GitClient.GitCheckout tmp (commitHash options) None]) /\
    grows env (length (llm_log st)) asked /\
    Forall (Forall fits_limit) asked.
Proof.
  assert (Hclean : forall p s,
             llm_log (snd (terminateTrackedProcess env p s)) = llm_log s /\
             git_log (snd (terminateTrackedProcess env p s)) = git_log s).
  { intros [|ch p] s; [split; reflexivity|].
    destruct (cleanup_effect ch p s) as (_ & Hg & Hl & _). auto. }
  unfold try_block. destruct (error_queued st); [discriminate|].
  destruct (mkdtemp env) as [tmp|e] eqn:Em.
  2:{ intros H0; apply catch_block_cases in H0; revert H0.
      destruct (on_unhandled_effect e None None st) as (out & -> & _).
      intros H. injection H as Hc Hst. subst c st'. destruct (Hclean (or_empty None) st) as (Hl & Hg).
      exists [], []. rewrite !app_nil_r. cbn [length grows].
      repeat split; auto; lia. }
  destruct (cloneAndCheckout_log (git env) (repoUrl options) tmp
              (commitHash options) (githubToken options) (git_log st))
    as [->|(e & more & -> & Hmore)].
  2:{ intros H0; apply catch_block_cases in H0; revert H0.
      destruct (on_unhandled_effect e (Some tmp) (Some (incomplete tmp))
                  (set_git_log (git_log st ++ more) st)) as (out & -> & _).
      intros H. injection H as Hc Hst. subst c st'.
      destruct (Hclean (or_empty (Some tmp))
                  (set_git_log (git_log st ++ more) st)) as (Hl & Hg).
      exists [], more. rewrite !app_nil_r. cbn [length grows].
      repeat split; auto; lia. }
  cbv zeta.
  match goal with
  | |- context [turns env tmp MAX_LLM_TURNS ?v ?s] =>
      destruct (turns env tmp MAX_LLM_TURNS v s) as [[[cr v'] st1]|] eqn:Et;
        [|discriminate];
        destruct (turns_frame _ _ _ _ Et) as (_ & _ & Hgit);
        destruct (turns_requests _ _ _ _ Et) as (asked & Hlog & Hlen & Hhd & Hgr & Hfit)
  end.
  cbn [messages llm_log git_log set_git_log] in Hgit, Hlog, Hhd, Hgr, Hfit.
  assert (Hres : llm_log st' = llm_log st1 /\ git_log st' = git_log st1 ->
                 exists asked0 cloned,
                   llm_log st' = llm_log st ++ asked0 /\
                   length asked0 <= MAX_LLM_TURNS /\
                   git_log st' = git_log st ++ cloned /\
                   length cloned <= 2 /\
                   (asked0 = [] \/
                    exists tmp0 rest,
                      Normal tmp = Normal tmp0 /\
                      asked0 = opening env tmp0 :: rest /\
                      cloned = [GitClient.GitClone (repoUrl options) tmp0
                                  (GitClient.clone_options (githubToken options)) None;
                                GitClient.GitCheckout tmp0 (commitHash options) None]) /\
                   grows env (length (llm_log st)) asked0 /\
                   Forall (Forall fits_limit) asked0).
  { intros (Hl & Hg). exists asked. eexists.
    split; [congruence|]. split; [exact Hlen|].
    split; [rewrite Hg; exact Hgit|]. split; [cbn; lia|].
    split; [|split; [exact Hgr|]].
    - destruct asked as [|r rest]; [left; reflexivity|right].
      exists tmp, rest. subst r. auto.
    - apply Hfit. repeat constructor. }
  destruct cr as [[]|e].
  - intros H. injection H as Hc Hst. subst c st'. apply Hres. auto.
  - intros H0; apply catch_block_cases in H0; revert H0.
    destruct (on_unhandled_effect e (Some tmp) (Some (finalOutcome v')) st1)
      as (out & -> & _).
    intros H. injection H as Hc Hst. subst c st'. apply Hres. apply Hclean.
Qed.

Lemma cloneAndRun_cases options st c st' :
  cloneAndRun env options st = Some (c, st') ->
  (c = Throw key_required /\ st' = st) \/
  exists client, try_block env options (set_openaiClient client st) = Some (c, st').
Proof.
  unfold cloneAndRun, OpenAIClient.initializeOpenAI.
  destruct (openaiApiKey options) as [|ch key].
  - rewrite set_openaiClient_same. intros H. inversion H; subst. left. auto.
  - destruct (openaiClient st) as [client|]; cbv beta iota zeta;
      unfold OpenAIClient.getOpenAIClient; cbv beta iota; intros H; right; eauto.
Qed.

(** X25. A run is frugal with its requests: the model is asked at most
    [MAX_LLM_TURNS] (15) times and git at most twice, and the model is asked
    only when the temporary directory exists and both the shallow clone
    into it (with the token, if any, in an authorization header) and the
    checkout of the requested commit have succeeded. *)
Theorem cloneAndRun_bounds_its_requests
  (options : RunOptions) (st : state) (c : completion FinalOutcome) (st' : state) :
  cloneAndRun env options st = Some (c, st') ->
  exists asked cloned,
    llm_log st' = llm_log st ++ asked /\
    length asked <= MAX_LLM_TURNS /\
    git_log st' = git_log st ++ cloned /\
    length cloned <= 2 /\
    (asked = [] \/
     exists tmp,
       mkdtemp env = Normal tmp /\
       cloned = [GitClient.GitClone (repoUrl options) tmp
                   (GitClient.clone_options (githubToken options)) None;
                 GitClient.GitCheckout tmp (commitHash options) None]).
Proof.
  intros H. destruct (cloneAndRun_cases _ _ H) as [(-> & ->)|(client & Ht)].
  - exists [], []. rewrite !app_nil_r. cbn. repeat split; auto; lia.
  - destruct (try_block_requests _ _ Ht)
      as (asked & cloned & H1 & H2 & H3 & H4 & H5 & _).
    exists asked, cloned. repeat split; auto.
    destruct H5 as [->|(tmp & rest & Hm & _ & Hc)]; [left; reflexivity|right].
    exists tmp. auto.
Qed.

(** X26. A run succeeds only because the model said so: when the outcome
    is a success, one of the tool calls of a reply was [markRunning], its
    arguments parsed, and the URL of the outcome is the non-empty
    [deploymentUrl] of that call; the reported path is the temporary
    directory, which has not been removed. In every other outcome the URL
    is [null]. *)
Theorem success_is_declared_by_markRunning
  (options : RunOptions) (st : state) (outcome : FinalOutcome) (st' : state) :
  cloneAndRun env options st = Some (Normal outcome, st') ->
  (status outcome = Executor.StatusSuccess ->
   exists call a c u,
     requested env call /\
     name call = str "markRunning" /\
     arguments call = Executor.Parsed a /\
     Executor.deploymentUrl a = Some (c :: u) /\
     url outcome = Some (c :: u) /\
     mkdtemp env = Normal (repoPath outcome) /\
     rm_log st' = rm_log st) /\
  (status outcome = Executor.StatusFailure -> url outcome = None).
Proof.
  intros H. destruct (cloneAndRun_cases _ _ H) as [(Hc & _)|(client & Ht)];
    [discriminate|].
  destruct (try_block_outcome _ _ Ht) as (out & Hout & Hcases).
  inversion Hout; subst out. clear Hout.
  destruct Hcases as [(msg & st1 & Hn & Hs & Hu & _)
                     |(tmp & Hm & Hrm & [->|[->|[->|(call & fo & Hmk & ->)]]])];
    try (split; [intros Hx; try discriminate; congruence|intros _; auto; reflexivity]).
  destruct Hmk as (Hreq & ans & st0 & r & Hex & Hfo).
  destruct (arguments call) as [pm| |a] eqn:Ea.
  { cbn in Hex. inversion Hex; subst r. discriminate. }
  { destruct (executeToolCall_null (os env) (fs env) (path env) (name call)
                tmp ans st0) as (msg & Hnull).
    rewrite Hnull in Hex. inversion Hex; subst r. discriminate. }
  assert (Hfst : fst (Executor.executeToolCall (os env) (fs env) (path env)
                        (name call) (Executor.Parsed a) tmp ans st0)
                 = Normal (Executor.Replied r)) by (rewrite Hex; reflexivity).
  destruct (@final_outcome_cases (os env) (fs env) (path env) (name call) a tmp
              ans st0 r fo Hfst Hfo)
    as [(Hname & _ & Hst & Hurl & _)|(Hname & _ & Hst & Hurl & _)];
    cbn [of_tool status url repoPath]; rewrite Hst.
  - split; [intros _|discriminate].
    rewrite Hname in Hfst.
    destruct (@markRunning_has_url (os env) (fs env) (path env) a tmp ans st0 r Hfst)
      as (ch & u & Hd); [congruence|].
    exists call, a, ch, u. rewrite Hurl. repeat split; auto.
  - split; [discriminate|intros _; exact Hurl].
Qed.

(** X27. The clone is removed exactly when the run fell into the [catch]:
    an outcome whose notes are not those of an unhandled exception leaves
    every [fs.rm] unrequested, success or not; after an exception the
    outcome is a failure without URL, and if the temporary directory had
    been created its tracked process is unregistered and [fs.rm] is tried
    on it, at most three times. *)
Theorem clone_is_removed_only_after_an_exception
  (options : RunOptions) (st : state) (outcome : FinalOutcome) (st' : state) :
  cloneAndRun env options st = Some (Normal outcome, st') ->
  ((forall msg, notes outcome <> NotesUnhandled msg) /\
   rm_log st' = rm_log st)
  \/
  ((exists msg, notes outcome = NotesUnhandled msg) /\
   status outcome = Executor.StatusFailure /\
   url outcome = None /\
   match mkdtemp env with
   | Normal (c :: p) =>
       repoPath outcome = c :: p /\
       JsMap.get (c :: p) (runningProcesses (Executor.procs (exec st'))) = None /\
       exists errs last,
         rm_log st' = rm_log st ++ rm_requests (c :: p) errs last /\
         length errs <= 2 /\ (last = None \/ length errs = 2)
   | Normal [] => repoPath outcome = [] /\ rm_log st' = rm_log st
   | Throw _ => repoPath outcome = str "unknown" /\ rm_log st' = rm_log st
   end).
Proof.
  intros H. destruct (cloneAndRun_cases _ _ H) as [(Hc & _)|(client & Ht)];
    [discriminate|].
  destruct (try_block_outcome _ _ Ht) as (out & Hout & Hcases).
  inversion Hout; subst out. clear Hout.
  cbn [rm_log set_openaiClient] in Hcases.
  destruct Hcases as [(msg & st1 & Hn & Hs & Hu & Hp & Hrm & Hst)
                     |(tmp & Hm & Hrm & Hk)].
  - right. split; [eauto|]. split; [exact Hs|]. split; [exact Hu|].
    destruct (mkdtemp env) as [[|c p]|e]; subst st'.
    + split; [exact Hp|exact Hrm].
    + split; [exact Hp|].
      destruct (cleanup_effect c p st1) as (_ & _ & _ & Hget & errs & last & Hr & Hl).
      split; [exact Hget|]. exists errs, last. rewrite <- Hrm. auto.
    + split; [exact Hp|exact Hrm].
  - left. split; [|exact Hrm].
    destruct Hk as [->|[->|[->|(call & fo & _ & ->)]]]; intros msg; discriminate.
Qed.

(** X28. What the model is sent of a tool result is bounded: in every
    request of the run, the content of every tool message has at most
    [MAX_TOOL_RESULT_LENGTH] (4000) units and the 15 of the truncation
    mark. *)
Theorem tool_results_are_sent_truncated
  (options : RunOptions) (st : state) (c : completion FinalOutcome) (st' : state) :
  cloneAndRun env options st = Some (c, st') ->
  exists asked,
    llm_log st' = llm_log st ++ asked /\
    forall request i content,
      In request asked ->
      In (ToolMessage i content) request ->
      length content <= 4015.
Proof.
  intros H. destruct (cloneAndRun_cases _ _ H) as [(-> & ->)|(client & Ht)].
  - exists []. rewrite app_nil_r. split; [reflexivity|]. intros r i ct [].
  - destruct (try_block_requests _ _ Ht)
      as (asked & cloned & H1 & _ & _ & _ & _ & _ & Hfit).
    exists asked. split; [exact H1|].
    intros request i ct Hin Hmsg.
    rewrite Forall_forall in Hfit. specialize (Hfit request Hin).
    rewrite Forall_forall in Hfit. exact (Hfit _ Hmsg).
Qed.

(** X29. The conversation only grows. The first request of a run consists
    of the system prompt and the user prompt with the directory listing;
    every later request repeats the one before it unchanged and appends the
    reply that the model gave to it, followed by tool messages only, each
    answering a tool call of that reply. *)
Theorem conversation_only_grows
  (options : RunOptions) (st : state) (c : completion FinalOutcome) (st' : state) :
  cloneAndRun env options st = Some (c, st') ->
  exists asked,
    llm_log st' = llm_log st ++ asked /\
    match asked with
    | [] => True
    | first :: _ => exists tmp, mkdtemp env = Normal tmp /\ first = opening env tmp
    end /\
    grows env (length (llm_log st)) asked.
Proof.
  intros H. destruct (cloneAndRun_cases _ _ H) as [(-> & ->)|(client & Ht)].
  - exists []. rewrite app_nil_r. cbn. auto.
  - destruct (try_block_requests _ _ Ht)
      as (asked & cloned & H1 & _ & _ & _ & H5 & Hg & _).
    exists asked. split; [exact H1|]. split; [|exact Hg].
    destruct H5 as [->|(tmp & rest & Hm & -> & _)]; [exact I|].
    exists tmp. auto.
Qed.

(** X30. The notes of the outcome agree with the registry at the return.
    After a success they name exactly the pid that the registry holds for
    the temporary directory at that moment (or none, when it holds nothing).
    That is the pid last registered there: the registry keeps the record of
    a confirmed child that has exited since. After [markUnrunnable] nothing
    is tracked for the directory any more. *)
Theorem outcome_notes_agree_with_the_registry
  (options : RunOptions) (st : state) (outcome : FinalOutcome) (st' : state) :
  cloneAndRun env options st = Some (Normal outcome, st') ->
  (status outcome = Executor.StatusSuccess ->
   exists text,
     notes outcome
     = NotesOfTool
         (Executor.NotesRunning text
            (option_map ProcessInfo.pid
               (JsMap.get (repoPath outcome)
                  (runningProcesses (Executor.procs (exec st'))))))) /\
  (forall n, notes outcome = NotesOfTool n ->
             status outcome = Executor.StatusFailure ->
             JsMap.get (repoPath outcome)
               (runningProcesses (Executor.procs (exec st'))) = None).
Proof.
  intros H. destruct (cloneAndRun_cases _ _ H) as [(Hc & _)|(client & Ht)];
    [discriminate|].
  destruct (try_block_outcome _ _ Ht) as (out & Hout & Hcases).
  inversion Hout; subst out. clear Hout.
  destruct Hcases as [(msg & st1 & Hn & Hs & Hu & _)
                     |(tmp & Hm & Hrm & [->|[->|[->|(call & fo & Hmk & ->)]]])];
    try (split; [intros Hx; try discriminate; congruence
                |intros n Hn'; try discriminate; congruence]).
  destruct Hmk as (Hreq & ans & st0 & r & Hex & Hfo).
  destruct (arguments call) as [pm| |a] eqn:Ea.
  { cbn in Hex. inversion Hex; subst r. discriminate. }
  { destruct (executeToolCall_null (os env) (fs env) (path env) (name call)
                tmp ans st0) as (msg & Hnull).
    rewrite Hnull in Hex. inversion Hex; subst r. discriminate. }
  assert (Hfst : fst (Executor.executeToolCall (os env) (fs env) (path env)
                        (name call) (Executor.Parsed a) tmp ans st0)
                 = Normal (Executor.Replied r)) by (rewrite Hex; reflexivity).
  assert (Hsnd : snd (Executor.executeToolCall (os env) (fs env) (path env)
                        (name call) (Executor.Parsed a) tmp ans st0)
                 = exec st') by (rewrite Hex; reflexivity).
  destruct (@final_outcome_cases (os env) (fs env) (path env) (name call) a tmp
              ans st0 r fo Hfst Hfo)
    as [(_ & _ & Hst & _ & (text & Hnotes) & Hsame)
       |(_ & _ & Hst & _ & _ & _ & Hget)];
    cbn [of_tool status notes repoPath]; rewrite Hst.
  - split; [intros _|discriminate].
    exists text. rewrite Hnotes. rewrite Hsnd in Hsame. rewrite Hsame. reflexivity.
  - split; [discriminate|intros n _ _].
    rewrite Hsnd in Hget. exact Hget.
Qed.

End OrchestratorFacts.

(** ** Concrete runs of the file and tool properties *)

Lemma slash_not_in_dotgit : ~ In 47%N PathUtils.dotgit.
Proof. vm_compute. intros H. repeat (destruct H as [H|H]; [discriminate H|]). exact H. Qed.

(** ".github" is not ".git": the path is approved. *)
Lemma github_path_run :
  ~ In (Executor.sep plain_paths) PathUtils.dotgit /\
  Executor.secure plain_paths repo (str ".github/ci.yml")
  = Normal (repo ++ str "/.github/ci.yml").
Proof.
  split; [exact slash_not_in_dotgit|].
  apply (proj2 (@resolveSecurePath_returns_iff 47%N
                  (Executor.normalize plain_paths)
                  (Executor.resolve plain_paths)
                  (Executor.isAbsolute plain_paths)
                  repo (str ".github/ci.yml") (repo ++ str "/.github/ci.yml")
                  slash_not_in_dotgit)).
  split; [reflexivity|]. split; [reflexivity|]. split; [reflexivity|].
  split; [right; reflexivity|].
  vm_compute. intros H. repeat (destruct H as [H|H]; [discriminate H|]). exact H.
Defined.

Lemma unknown_tool_run :
  rejected_early (str "deleteFile") (Executor.Parsed no_args) = true /\
  exists msg,
    Executor.executeToolCall os_delivers blank_disk plain_paths (str "deleteFile")
      (Executor.Parsed no_args) repo no_answer tracked_state
    = (Normal (Executor.Replied (Executor.failure msg)), tracked_state).
Proof.
  split; [reflexivity|].
  exact (@rejected_tool_call_has_no_effect os_delivers blank_disk plain_paths
           (str "deleteFile") (Executor.Parsed no_args) repo no_answer
           tracked_state eq_refl).
Defined.

Lemma markUnrunnable_run :
  fst (Executor.executeToolCall os_delivers blank_disk plain_paths
         (str "markUnrunnable") (Executor.Parsed give_up_args) repo no_answer
         tracked_state)
  = Normal (Executor.Replied gave_up) /\
  JsMap.get repo
    (runningProcesses
       (Executor.procs
          (snd (Executor.executeToolCall os_delivers blank_disk plain_paths
                  (str "markUnrunnable") (Executor.Parsed give_up_args) repo
                  no_answer tracked_state))))
  = None.
Proof.
  assert (H : fst (Executor.executeToolCall os_delivers blank_disk plain_paths
                     (str "markUnrunnable") (Executor.Parsed give_up_args) repo
                     no_answer tracked_state)
              = Normal (Executor.Replied gave_up)) by reflexivity.
  split; [exact H|].
  destruct (@final_outcome_comes_from_mark_tools os_delivers blank_disk
              plain_paths (str "markUnrunnable") give_up_args repo no_answer
              tracked_state gave_up _ H eq_refl)
    as [(Hn & _)|(_ & _ & _ & _ & _ & _ & Hget)].
  - discriminate Hn.
  - exact Hget.
Defined.

Lemma createFile_run :
  Executor.is_file_tool (str "createFile") = true /\
  exists delta,
    snd (Executor.executeToolCall os_delivers blank_disk plain_paths
           (str "createFile")
           (Executor.Parsed (write_args (str "src/app.js") (str "x")))
           repo no_answer tracked_state)
    = {| Executor.procs := Executor.procs tracked_state;
         Executor.fs_log := Executor.fs_log tracked_state ++ delta |} /\
    length delta <= 2 /\
    forall r, In r delta ->
              exists fp p,
                Executor.filePath (write_args (str "src/app.js") (str "x"))
                = Some fp /\
                Executor.secure plain_paths repo fp = Normal p /\
                targets plain_paths p r.
Proof.
  split; [reflexivity|].
  exact (@file_tools_touch_only_the_approved_path os_delivers blank_disk
           plain_paths (str "createFile")
           (write_args (str "src/app.js") (str "x")) repo no_answer
           tracked_state eq_refl).
Defined.

(** "sub/.git/config" is refused; "sub/.GIT/config" is not. *)
Lemma git_config_run :
  Executor.is_file_tool (str "editFile") = true /\
  ~ In (Executor.sep plain_paths) PathUtils.dotgit /\
  In PathUtils.dotgit
    (PathUtils.split (Executor.sep plain_paths)
       (Executor.normalize plain_paths (str "sub/.git/config"))) /\
  (exists msg,
     Executor.executeToolCall os_delivers blank_disk plain_paths (str "editFile")
       (Executor.Parsed (write_args (str "sub/.git/config") (str "x")))
       repo no_answer tracked_state
     = (Normal (Executor.Replied (Executor.failure msg)), tracked_state)) /\
  Executor.secure plain_paths repo (str "sub/.GIT/config")
  = Normal (repo ++ str "/sub/.GIT/config").
Proof.
  assert (Hin : In PathUtils.dotgit
                  (PathUtils.split (Executor.sep plain_paths)
                     (Executor.normalize plain_paths (str "sub/.git/config"))))
    by (right; left; reflexivity).
  split; [reflexivity|]. split; [exact slash_not_in_dotgit|].
  split; [exact Hin|].
  split; [|reflexivity].
  exact (@file_tools_never_reach_dot_git os_delivers blank_disk plain_paths
           (str "editFile") (write_args (str "sub/.git/config") (str "x"))
           repo no_answer tracked_state (str "sub/.git/config")
           eq_refl slash_not_in_dotgit eq_refl Hin).
Defined.

Lemma createFile_order_run :
  exists r,
    Executor.executeToolCall os_delivers blank_disk plain_paths (str "createFile")
      (Executor.Parsed (write_args (str "src/app.js") (str "x")))
      repo no_answer tracked_state
    = (Normal (Executor.Replied r),
       {| Executor.procs := two_tracked;
          Executor.fs_log :=
            [Executor.FsMkdir (repo ++ str "/src") None;
             Executor.FsWriteFile (repo ++ str "/src/app.js") (str "x") None] |}) /\
    Executor.success r = true.
Proof.
  exact (@write_tools_order_their_requests os_delivers blank_disk plain_paths
           true (write_args (str "src/app.js") (str "x")) repo no_answer
           tracked_state 115%N (str "rc/app.js") (repo ++ str "/src/app.js")
           eq_refl eq_refl).
Defined.

Lemma inspectFile_run :
  snd (Executor.executeToolCall os_delivers blank_disk plain_paths
         (str "inspectFile")
         (Executor.Parsed (write_args (str "package.json") (str "")))
         repo no_answer tracked_state)
  = {| Executor.procs := two_tracked;
       Executor.fs_log :=
         [Executor.FsReadFile (repo ++ str "/package.json")
            (Executor.readFile blank_disk 0 (repo ++ str "/package.json"))] |}.
Proof.
  exact (proj1 (@inspectFile_returns_a_bounded_prefix os_delivers blank_disk
                  plain_paths (write_args (str "package.json") (str ""))
                  repo no_answer tracked_state 112%N (str "ackage.json")
                  (repo ++ str "/package.json") eq_refl eq_refl)).
Defined.

(** The flag arrives as the string "false": pid 100, tracked for [repo],
    is signalled and unregistered, and the command is started detached. *)
Lemma quoted_flag_run :
  exists d,
    Executor.executeToolCall os_delivers blank_disk plain_paths (str "runCommand")
      (Executor.Parsed quoted_flag_args) repo no_answer tracked_state
    = (Normal (Executor.Ran (Pending d)),
       {| Executor.procs :=
            {| runningProcesses := JsMap.delete repo (runningProcesses two_tracked);
               trace := trace (snd (terminateTrackedProcess os_delivers repo
                                      two_tracked))
                          ++ [EExeca npm npm_start repo true] |};
          Executor.fs_log := [] |}).
Proof.
  exact (@runCommand_is_long_running_only_on_request os_delivers blank_disk
           plain_paths quoted_flag_args repo no_answer tracked_state
           110%N (str "pm") npm_start eq_refl eq_refl).
Defined.

(** The sample tree, listed with the default limits: ".git" and what lies
    under it are left out. *)
Lemma sample_line_run :
  In (FsUtils.file_line 1 (str "index.js"))
    (fst (FsUtils.listDirectoryStructure FsUtils.MAX_DIR_LISTING_DEPTH
            FsUtils.MAX_DIR_ITEMS sample_tree 0 0)) /\
  exists k n,
    visible sample_tree k n /\
    ((FsUtils.file_line 1 (str "index.js")
      = FsUtils.error_line (0 + k) (FsUtils.name_of n) /\
      (forall name dirents, n <> FsUtils.Dir name dirents) /\
      0 + k <= FsUtils.MAX_DIR_LISTING_DEPTH)
     \/
     (exists k', k = S k' /\
                 FsUtils.file_line 1 (str "index.js") = entry_line (0 + k') n /\
                 0 + k' <= FsUtils.MAX_DIR_LISTING_DEPTH)).
Proof.
  assert (H : In (FsUtils.file_line 1 (str "index.js"))
                (fst (FsUtils.listDirectoryStructure FsUtils.MAX_DIR_LISTING_DEPTH
                        FsUtils.MAX_DIR_ITEMS sample_tree 0 0)))
    by (right; right; left; reflexivity).
  split; [exact H|].
  exact (@listing_shows_only_visible_entries FsUtils.MAX_DIR_LISTING_DEPTH
           FsUtils.MAX_DIR_ITEMS sample_tree 0 0 _ H).
Defined.

Lemma sample_outline_run :
  FsUtils.listDirectoryStructure FsUtils.MAX_DIR_LISTING_DEPTH
    FsUtils.MAX_DIR_ITEMS sample_tree 0 0
  = (outline 0 sample_tree, 0 + items sample_tree).
Proof.
  apply (@listing_is_complete_within_limits FsUtils.MAX_DIR_LISTING_DEPTH
           FsUtils.MAX_DIR_ITEMS sample_tree 0 0).
  - vm_compute. lia.
  - vm_compute. lia.
Defined.

(** With room for two items only, the listing stops after "src/". *)
Lemma sample_cut_run :
  exists rest,
    outline 0 sample_tree
    = fst (FsUtils.listDirectoryStructure FsUtils.MAX_DIR_LISTING_DEPTH 2
             sample_tree 0 0) ++ rest /\
    (rest = [] \/
     2 <= snd (FsUtils.listDirectoryStructure FsUtils.MAX_DIR_LISTING_DEPTH 2
                 sample_tree 0 0)).
Proof.
  apply (@item_limit_truncates_at_the_end FsUtils.MAX_DIR_LISTING_DEPTH 2
           sample_tree 0 0).
  vm_compute. lia.
Defined.

Example sample_listing :
  fst (FsUtils.listDirectoryStructure FsUtils.MAX_DIR_LISTING_DEPTH
         FsUtils.MAX_DIR_ITEMS sample_tree 0 0)
  = [FsUtils.file_line 0 (str "package.json");
     FsUtils.dir_line 0 (str "src");
     FsUtils.file_line 1 (str "index.js");
     FsUtils.dir_line 1 (str "lib");
     FsUtils.dir_line 0 (str "private");
     FsUtils.error_line 1 (str "private")].
Proof. reflexivity. Qed.

Example sample_listing_cut :
  FsUtils.listDirectoryStructure FsUtils.MAX_DIR_LISTING_DEPTH 2 sample_tree 0 0
  = ([FsUtils.file_line 0 (str "package.json"); FsUtils.dir_line 0 (str "src")],
     2).
Proof. reflexivity. Qed.

(** ** Concrete runs of [cloneAndRun] *)

(** The model starts the server and declares it running: two requests,
    one clone and one checkout. *)
Lemma frugal_run :
  exists asked cloned,
    Orchestrator.llm_log (final_state demo_env)
    = Orchestrator.llm_log fresh ++ asked /\
    length asked <= Orchestrator.MAX_LLM_TURNS /\
    Orchestrator.git_log (final_state demo_env)
    = Orchestrator.git_log fresh ++ cloned /\
    length cloned <= 2 /\
    (asked = [] \/
     exists tmp,
       Orchestrator.mkdtemp demo_env = Normal tmp /\
       cloned = [GitClient.GitClone (Orchestrator.repoUrl demo_options) tmp
                   (GitClient.clone_options (Orchestrator.githubToken demo_options))
                   None;
                 GitClient.GitCheckout tmp (Orchestrator.commitHash demo_options)
                   None]).
Proof.
  apply (@cloneAndRun_bounds_its_requests demo_env demo_options fresh
           (Normal demo_outcome) (final_state demo_env)).
  vm_compute. reflexivity.
Defined.

Lemma declared_run :
  (Orchestrator.status demo_outcome = Executor.StatusSuccess ->
   exists call a c u,
     requested demo_env call /\
     Orchestrator.name call = str "markRunning" /\
     Orchestrator.arguments call = Executor.Parsed a /\
     Executor.deploymentUrl a = Some (c :: u) /\
     Orchestrator.url demo_outcome = Some (c :: u) /\
     Orchestrator.mkdtemp demo_env = Normal (Orchestrator.repoPath demo_outcome) /\
     Orchestrator.rm_log (final_state demo_env) = Orchestrator.rm_log fresh) /\
  (Orchestrator.status demo_outcome = Executor.StatusFailure ->
   Orchestrator.url demo_outcome = None).
Proof.
  apply (@success_is_declared_by_markRunning demo_env demo_options fresh
           demo_outcome (final_state demo_env)).
  vm_compute. reflexivity.
Defined.

(** The model refuses the first request: the clone is removed. *)
Lemma refused_run :
  ((forall msg, Orchestrator.notes refused_outcome <> Orchestrator.NotesUnhandled msg) /\
   Orchestrator.rm_log (final_state refused_env) = Orchestrator.rm_log fresh)
  \/
  ((exists msg, Orchestrator.notes refused_outcome = Orchestrator.NotesUnhandled msg) /\
   Orchestrator.status refused_outcome = Executor.StatusFailure /\
   Orchestrator.url refused_outcome = None /\
   match Orchestrator.mkdtemp refused_env with
   | Normal (c :: p) =>
       Orchestrator.repoPath refused_outcome = c :: p /\
       JsMap.get (c :: p)
         (runningProcesses
            (Executor.procs (Orchestrator.exec (final_state refused_env)))) = None /\
       exists errs last,
         Orchestrator.rm_log (final_state refused_env)
         = Orchestrator.rm_log fresh ++ rm_requests (c :: p) errs last /\
         length errs <= 2 /\ (last = None \/ length errs = 2)
   | Normal [] =>
       Orchestrator.repoPath refused_outcome = [] /\
       Orchestrator.rm_log (final_state refused_env) = Orchestrator.rm_log fresh
   | Throw _ =>
       Orchestrator.repoPath refused_outcome = str "unknown" /\
       Orchestrator.rm_log (final_state refused_env) = Orchestrator.rm_log fresh
   end).
Proof.
  apply (@clone_is_removed_only_after_an_exception refused_env demo_options fresh
           refused_outcome (final_state refused_env)).
  vm_compute. reflexivity.
Defined.

Lemma truncated_run :
  exists asked,
    Orchestrator.llm_log (final_state demo_env)
    = Orchestrator.llm_log fresh ++ asked /\
    forall request i content,
      In request asked ->
      In (Orchestrator.ToolMessage i content) request ->
      length content <= 4015.
Proof.
  apply (@tool_results_are_sent_truncated demo_env demo_options fresh
           (Normal demo_outcome) (final_state demo_env)).
  vm_compute. reflexivity.
Defined.

Lemma growing_run :
  exists asked,
    Orchestrator.llm_log (final_state demo_env)
    = Orchestrator.llm_log fresh ++ asked /\
    match asked with
    | [] => True
    | first :: _ =>
        exists tmp, Orchestrator.mkdtemp demo_env = Normal tmp /\
                    first = opening demo_env tmp
    end /\
    grows demo_env (length (Orchestrator.llm_log fresh)) asked.
Proof.
  apply (@conversation_only_grows demo_env demo_options fresh
           (Normal demo_outcome) (final_state demo_env)).
  vm_compute. reflexivity.
Defined.

Lemma tracked_run :
  (Orchestrator.status demo_outcome = Executor.StatusSuccess ->
   exists text,
     Orchestrator.notes demo_outcome
     = Orchestrator.NotesOfTool
         (Executor.NotesRunning text
            (option_map ProcessInfo.pid
               (JsMap.get (Orchestrator.repoPath demo_outcome)
                  (runningProcesses
                     (Executor.procs (Orchestrator.exec (final_state demo_env)))))))) /\
  (forall n, Orchestrator.notes demo_outcome = Orchestrator.NotesOfTool n ->
             Orchestrator.status demo_outcome = Executor.StatusFailure ->
             JsMap.get (Orchestrator.repoPath demo_outcome)
               (runningProcesses
                  (Executor.procs (Orchestrator.exec (final_state demo_env)))) = None).
Proof.
  apply (@outcome_notes_agree_with_the_registry demo_env demo_options fresh
           demo_outcome (final_state demo_env)).
  vm_compute. reflexivity.
Defined.


Example demo_run :
  Orchestrator.cloneAndRun demo_env demo_options fresh
  = Some (Normal demo_outcome, final_state demo_env) /\
  length (Orchestrator.llm_log (final_state demo_env)) = 2 /\
  Orchestrator.rm_log (final_state demo_env) = [] /\
  JsMap.get repo
    (runningProcesses (Executor.procs (Orchestrator.exec (final_state demo_env))))
  = Some {| ProcessInfo.pid := 100; ProcessInfo.command := str "npm start" |}.
Proof. vm_compute. auto. Qed.

Example refused_run_cleans_up :
  Orchestrator.cloneAndRun refused_env demo_options fresh
  = Some (Normal refused_outcome, final_state refused_env) /\
  Orchestrator.rm_log (final_state refused_env) = [FsUtils.FsRm repo None] /\
  length (Orchestrator.llm_log (final_state refused_env)) = 1.
Proof. vm_compute. auto. Qed.
